(** * agent-gui: the supervising program of win-gpg-agent

    A shallow embedding of [cmd/agent/main.go]: the environment-variable
    transaction [setVars] with its [cleaner], the start-up and tear-down
    sequence of [run] with its deferred calls, the session callback
    [onSession], the tray callbacks and [clipServe].

    The program talks to the outside through the packages [agent], [util],
    [systray] and [clip].  Every such call is recorded as an [Event] in the
    trace of the [World]; whether a fallible call fails is decided by an
    oracle over the history, so that a statement quantified over the oracle
    covers every behaviour of the collaborators. *)

From Stdlib Require Import ZArith NArith Ascii String List Lia.
From stdpp Require Import base tactics option list gmap strings pretty.

Local Open Scope stdpp_scope.

(** ** Go's [strings] and [encoding/hex], as far as [main.go] uses them *)

Module GoStrings.

(** utf8.RuneSelf: bytes below it are single-byte runes. *)
Definition RuneSelf : N := 128.

(** One iteration of the ASCII fast path of [strings.EqualFold], for two
    bytes below [RuneSelf]: equal, or an upper-case letter and its
    lower-case form. *)
Definition equalFoldByte (sr tr : N) : bool :=
  if (tr =? sr)%N then true
  else
    let lo := if (tr <? sr)%N then tr else sr in
    let hi := if (tr <? sr)%N then sr else tr in
    (65 <=? lo)%N && (lo <=? 90)%N && (hi =? lo + 97 - 65)%N.

(** [strings.EqualFold].  The byte loop is Go's.  At the first byte that
    is not ASCII Go switches to a rune loop that compares under
    [unicode.SimpleFold]; that loop is embedded for the operands this
    program gives it, one of which is an ASCII word without the letters
    k and s (the only ASCII letters whose fold orbit leaves ASCII): a
    rune outside ASCII then never folds to the letter facing it, and the
    answer is [false]. *)
Fixpoint EqualFold (s t : string) : bool :=
  match s, t with
  | String a s', String b t' =>
      let sr := N_of_ascii a in
      let tr := N_of_ascii b in
      if (RuneSelf <=? N.lor sr tr)%N then false
      else if equalFoldByte sr tr then EqualFold s' t' else false
  | EmptyString, EmptyString => true
  | _, _ => false
  end.

(** Lower-casing of one ASCII byte and of a byte string; used to say
    what "equal case-insensitively" means. *)
Definition lowerByte (c : ascii) : ascii :=
  let n := N_of_ascii c in
  if (65 <=? n)%N && (n <=? 90)%N then ascii_of_N (n + 32) else c.

Fixpoint ToLowerASCII (s : string) : string :=
  match s with
  | EmptyString => EmptyString
  | String c s' => String (lowerByte c) (ToLowerASCII s')
  end.

Definition isLowerLetter (c : ascii) : bool :=
  let n := N_of_ascii c in (97 <=? n)%N && (n <=? 122)%N.

Fixpoint allLowerLetters (s : string) : bool :=
  match s with
  | EmptyString => true
  | String c s' => isLowerLetter c && allLowerLetters s'
  end.

End GoStrings.

Module Hex.

Inductive Error :=
| ErrLength
| InvalidByteError (b : ascii).

(** reverseHexTable: the value of a hex digit, [None] where the table
    holds 0xff. *)
Definition fromHexChar (c : ascii) : option N :=
  let n := N_of_ascii c in
  if (48 <=? n)%N && (n <=? 57)%N then Some (n - 48)%N
  else if (97 <=? n)%N && (n <=? 102)%N then Some (n - 97 + 10)%N
  else if (65 <=? n)%N && (n <=? 70)%N then Some (n - 65 + 10)%N
  else None.

(** hex.Decode, two characters per step; an odd tail reports an invalid
    character before the bad length. *)
Fixpoint Decode (src : string) : list N * option Error :=
  match src with
  | EmptyString => ([], None)
  | String p EmptyString =>
      match fromHexChar p with
      | None => ([], Some (InvalidByteError p))
      | Some _ => ([], Some ErrLength)
      end
  | String p (String q rest) =>
      match fromHexChar p, fromHexChar q with
      | None, _ => ([], Some (InvalidByteError p))
      | Some _, None => ([], Some (InvalidByteError q))
      | Some a, Some b =>
          let '(bs, err) := Decode rest in
          (N.lor (N.shiftl a 4) b :: bs, err)
      end
  end.

Definition DecodeString (s : string) : list N * option Error := Decode s.

Definition hextable (n : N) : ascii :=
  if (n <? 10)%N then ascii_of_N (48 + n) else ascii_of_N (97 + n - 10).

Fixpoint EncodeToString (src : list N) : string :=
  match src with
  | [] => EmptyString
  | v :: rest =>
      String (hextable (N.shiftr v 4))
        (String (hextable (N.land v 15)) (EncodeToString rest))
  end.

End Hex.

(** ** Data of the program *)

(** The connector kinds of package [agent] that [main.go] names. *)
Inductive ConnectorKind :=
| ConnectorSockAgent
| ConnectorSockAgentExtra
| ConnectorSockAgentSSH
| ConnectorPipeSSH
| ConnectorSockAgentCygwinSSH
| ConnectorExtraPort.

(** systray.SessionEvent: the two kinds [onSession] acts on, and every
    other kind the tray library may deliver, by its code. *)
Inductive SessionEvent :=
| SesLock
| SesUnlock
| SesOther (code : Z).

(** The fields of config.Config that [main.go] reads. *)
Record Config := {
  GUI_PipeName : string;
  GUI_Home : string;
  GUI_ExtraPort : Z;
  GUI_SetEnv : bool;
  GUI_SSH : string;
  GUI_Clp_Keys : list string;
  GUI_Clp_Port : Z;
  GUI_Clp_LE : string;
  GPG_Home : string;
}.

(** One element of the slice [vars] of [setVars]. *)
Record EnvVar := {
  initialized : bool;
  name : string;
  value : string;
  register : bool;
  translate : bool;
}.

Definition set_initialized (b : bool) (v : EnvVar) : EnvVar :=
  {| initialized := b; name := name v; value := value v;
     register := register v; translate := translate v |}.

Definition set_value (s : string) (v : EnvVar) : EnvVar :=
  {| initialized := initialized v; name := name v; value := s;
     register := register v; translate := translate v |}.

Definition envGPGHomeName : string := "GNUPG_HOME".
Definition envGUIHomeName : string := "AGENT_HOME".
Definition envPipeName : string := "SSH_AUTH_SOCK".

(** Modelled from the spec: the environment store behind package [util],
    which is not part of the sources at hand.  An entry is written "either
    to a persistent user-scoped store, a process-scoped store, or both, per
    its persistence flag": the process-scoped store always, the user-scoped
    store when the flag is set. *)
Record Store := {
  process : gmap string string;
  user : gmap string string;
}.

(** Modelled from the spec: a successful write, to the process-scoped
    store and, per the persistence flag, to the user-scoped store. *)
Definition store_write (n v : string) (persist : bool) (s : Store) : Store :=
  {| process := <[n := v]> (process s);
     user := if persist then <[n := v]> (user s) else user s |}.

(** Modelled from the spec: a successful removal, from the scopes a write
    with the same flag reaches. *)
Definition store_remove (n : string) (persist : bool) (s : Store) : Store :=
  {| process := delete n (process s);
     user := if persist then delete n (user s) else user s |}.

(** Modelled from the spec: an entry is observable "via the environment
    store" when its name is bound in a scope the entry is written to. *)
Definition observable (v : EnvVar) (s : Store) : Prop :=
  is_Some (process s !! name v) ∨ (register v = true ∧ is_Some (user s !! name v)).

(** Modelled from the spec: LockState of the LockController in package
    [agent]. *)
Inductive LockState := Unlocked | Locked.

(** Calls that leave the program. *)
Inductive Event :=
| EvServe (k : ConnectorKind)
| EvClose (k : ConnectorKind)
| EvStart
| EvStop
| EvSessionLock
| EvSessionUnlock
| EvPrepareEnv (n v : string) (reg trans : bool)
| EvCleanEnv (n : string) (reg : bool)
| EvLog (msg : string)
| EvClipCancel
| EvClipServe (port : Z) (le : string) (pkeys : gmap (list N) (list N)) (magic : list N).

(** The collaborators: the outcome of a fallible call as a function of the
    history that ends with it ([None] is Go's nil error), the pure helpers
    of [util] and [agent], SHA-256, and the session events the tray
    delivers while it runs. *)
Record Externals := {
  failure : list Event → option string;
  PrepareWindowsPath : string → string;
  PathGUI : ConnectorKind → string;
  translatePath : string → string;
  Sum256 : list N → list N;
  delivered : list SessionEvent;
}.

(** The mutable state: the trace of calls, the environment store, the lock
    state, the slice [vars] captured by the closure [cleaner], and the
    globals [clipHelp] and [clipCtx] (live or cancelled, nil before
    [clipServe]). *)
Record World := {
  trace : list Event;
  store : Store;
  lock : LockState;
  vars : list EnvVar;
  clipHelp : string;
  clipCtx : option bool;
}.

Definition set_trace (t : list Event) (w : World) : World :=
  {| trace := t; store := store w; lock := lock w; vars := vars w;
     clipHelp := clipHelp w; clipCtx := clipCtx w |}.
Definition set_store (s : Store) (w : World) : World :=
  {| trace := trace w; store := s; lock := lock w; vars := vars w;
     clipHelp := clipHelp w; clipCtx := clipCtx w |}.
Definition set_lock (l : LockState) (w : World) : World :=
  {| trace := trace w; store := store w; lock := l; vars := vars w;
     clipHelp := clipHelp w; clipCtx := clipCtx w |}.
Definition set_vars (vs : list EnvVar) (w : World) : World :=
  {| trace := trace w; store := store w; lock := lock w; vars := vs;
     clipHelp := clipHelp w; clipCtx := clipCtx w |}.
Definition set_clipHelp (s : string) (w : World) : World :=
  {| trace := trace w; store := store w; lock := lock w; vars := vars w;
     clipHelp := s; clipCtx := clipCtx w |}.
Definition set_clipCtx (c : option bool) (w : World) : World :=
  {| trace := trace w; store := store w; lock := lock w; vars := vars w;
     clipHelp := clipHelp w; clipCtx := c |}.

(** ** The state monad of the program *)

Definition M (A : Type) : Type := World → A * World.

Definition ret {A} (a : A) : M A := λ w, (a, w).
Definition bind {A B} (c : M A) (k : A → M B) : M B :=
  λ w, let '(a, w') := c w in k a w'.

Notation "'let*' x := c 'in' k" := (bind c (λ x, k))
  (at level 10, x name, c at level 100, k at level 200).
Notation "c >> k" := (bind c (λ _, k))
  (at level 90, right associativity).

Definition gets {A} (f : World → A) : M A := λ w, (f w, w).
Definition modify (f : World → World) : M unit := λ w, (tt, f w).

(** ** The program *)

Definition nl : string := String (ascii_of_nat 10) EmptyString.

Section Program.

Variable X : Externals.
Variable cfg : Config.

(** A fallible call into a collaborator: the call enters the trace and
    the oracle gives its error. *)
Definition call (e : Event) : M (option string) :=
  λ w, let tr := trace w ++ [e] in (failure X tr, set_trace tr w).

(** A call whose result the program does not look at. *)
Definition emit (e : Event) : M unit :=
  λ w, (tt, set_trace (trace w ++ [e]) w).

Definition log_Print (msg : string) : M unit := emit (EvLog msg).

Definition gpgAgent_Serve (k : ConnectorKind) : M (option string) := call (EvServe k).
Definition gpgAgent_Close (k : ConnectorKind) : M unit := emit (EvClose k).
Definition gpgAgent_Start : M (option string) := call EvStart.
Definition gpgAgent_Stop : M (option string) := call EvStop.

(** Modelled from the spec: SessionLock of the LockController in package
    [agent], "LockState→Locked". *)
Definition gpgAgent_SessionLock : M unit :=
  emit EvSessionLock >> modify (set_lock Locked).

(** Modelled from the spec: SessionUnlock of the LockController, the
    "reverse transition". *)
Definition gpgAgent_SessionUnlock : M unit :=
  emit EvSessionUnlock >> modify (set_lock Unlocked).

(** Modelled from the spec: util.PrepareUserEnvironmentVariable, which is
    not part of the sources at hand.  The value "may be translated ...
    before being written"; a call that fails writes nothing. *)
Definition PrepareUserEnvironmentVariable
    (n v : string) (reg trans : bool) : M (option string) :=
  let* err := call (EvPrepareEnv n v reg trans) in
  match err with
  | Some e => ret (Some e)
  | None =>
      modify (λ w, set_store
        (store_write n (if trans then translatePath X v else v) reg (store w)) w)
      >> ret None
  end.

(** Modelled from the spec: util.CleanUserEnvironmentVariable, which is
    not part of the sources at hand.  It removes the name from the scopes
    the entry was written to; a call that fails removes nothing. *)
Definition CleanUserEnvironmentVariable (n : string) (reg : bool) : M (option string) :=
  let* err := call (EvCleanEnv n reg) in
  match err with
  | Some e => ret (Some e)
  | None => modify (λ w, set_store (store_remove n reg (store w)) w) >> ret None
  end.

(** *** setVars *)

(** The slice literal of [setVars], with the overwrite of [vars[0].value]
    when [native] is false. *)
Definition varsTable (native : bool) : list EnvVar :=
  let vars := [
    {| initialized := false; name := envPipeName; value := GUI_PipeName cfg;
       register := false; translate := false |};
    {| initialized := false; name := "WSL_" +:+ envGPGHomeName; value := GPG_Home cfg;
       register := true; translate := true |};
    {| initialized := false; name := "WIN_" +:+ envGPGHomeName;
       value := PrepareWindowsPath X (GPG_Home cfg);
       register := true; translate := false |};
    {| initialized := false; name := "WSL_" +:+ envGUIHomeName; value := GUI_Home cfg;
       register := true; translate := true |};
    {| initialized := false; name := "WIN_" +:+ envGUIHomeName;
       value := PrepareWindowsPath X (GUI_Home cfg);
       register := true; translate := false |} ] in
  if negb native
  then alter (set_value (PathGUI X ConnectorSockAgentCygwinSSH)) 0%nat vars
  else vars.

(** The body of the loop of [cleaner] at index [i].  The loops keep [i]
    below [len(vars)], so the branch for an index out of range, where Go
    would panic, is never taken. *)
Definition cleanAt (i : nat) : M unit :=
  let* vs := gets vars in
  match vs !! i with
  | None => ret tt
  | Some v =>
      if initialized v then
        let* err := CleanUserEnvironmentVariable (name v) (register v) in
        match err with
        | Some e =>
            log_Print ("Unable to delete " +:+ name v +:+ " from user environment: " +:+ e)
        | None => ret tt
        end
        >> modify (λ w, set_vars (alter (set_initialized false) i (vars w)) w)
      else ret tt
  end.

(** [for i := len(vars) - 1; i >= 0; i--], entered with [n = i + 1]. *)
Fixpoint cleanerFrom (n : nat) : M unit :=
  match n with
  | O => ret tt
  | S i => cleanAt i >> cleanerFrom i
  end.

(** The closure [cleaner]; the slice it captured lives in the world. *)
Definition cleaner : M unit :=
  let* vs := gets vars in cleanerFrom (length vs).

(** [for i := 0; i < len(vars); i++], entered at [i] with [n] iterations
    left, [i + n] being [len(vars)]. *)
Fixpoint registerFrom (n i : nat) : M (option string) :=
  match n with
  | O => ret None
  | S n' =>
      let* vs := gets vars in
      match vs !! i with
      | None => ret None
      | Some v =>
          let* err := PrepareUserEnvironmentVariable
                        (name v) (value v) (register v) (translate v) in
          match err with
          | Some e =>
              cleaner >>
              ret (Some ("unable to add " +:+ name v +:+ " to user environment: " +:+ e))
          | None =>
              modify (λ w, set_vars (alter (set_initialized true) i (vars w)) w) >>
              registerFrom n' (S i)
          end
      end
  end.

(** [setVars] from the point where the slice is built: the slice is
    stored and every entry registered.  The result is the error; on
    success the caller holds the closure [cleaner]. *)
Definition setVarsOn (table : list EnvVar) : M (option string) :=
  modify (set_vars table) >> registerFrom (length table) 0.

Definition setVars (native : bool) : M (option string) :=
  setVarsOn (varsTable native).

(** *** The tray callbacks *)

(** [onReady], as far as the goroutine of [run] goes: the log line.  The
    goroutine it starts for the menu (the About and Status boxes, the line
    "Requesting exit" and systray.Quit) runs beside the program and is not
    embedded; the trace holds the calls of the goroutine of [run]. *)
Definition onReady : M unit := log_Print "Entering systray".

(** [onExit], for a [clipCancel] that is set.  [clipCancel] is nil until
    [clipServe] has run, and the call at line 79 panics then; [main] calls
    [clipServe] before [run], and the statements about the result of a
    run that goes through the tray carry the hypothesis [clipCancelSet]. *)
Definition onExit : M unit :=
  (emit EvClipCancel >> modify (set_clipCtx (Some false))) >>
  (let* err := gpgAgent_Stop in
   match err with
   | Some e => log_Print ("Problem stopping gpg agent: " +:+ e)
   | None => ret tt
   end) >>
  log_Print "Exiting systray".

Definition onSession (e : SessionEvent) : M unit :=
  match e with
  | SesLock => gpgAgent_SessionLock
  | SesUnlock => gpgAgent_SessionUnlock
  | _ => ret tt
  end.

Fixpoint deliver (es : list SessionEvent) : M unit :=
  match es with
  | [] => ret tt
  | e :: es' => onSession e >> deliver es'
  end.

(** systray.Run: the tray calls [onReady], then [onSession] for every
    session event it receives, and [onExit] when it quits. *)
Definition systray_Run : M unit :=
  onReady >> deliver (delivered X) >> onExit.

(** *** run *)

(** A deferred call of [run]. *)
Inductive Deferred :=
| DeferClose (k : ConnectorKind)
| DeferCleaner.

Definition runDeferred1 (d : Deferred) : M unit :=
  match d with
  | DeferClose k => gpgAgent_Close k
  | DeferCleaner => cleaner
  end.

(** The deferred calls run last-in first-out; the list holds the most
    recent one first. *)
Fixpoint runDeferred (ds : list Deferred) : M unit :=
  match ds with
  | [] => ret tt
  | d :: ds' => runDeferred1 d >> runDeferred ds'
  end.

(** [return r] with the deferred calls [ds] pending. *)
Definition return_ {A} (ds : list Deferred) (r : A) : M A :=
  runDeferred ds >> ret r.

(** [if err := gpgAgent.Serve(k); err != nil { return err }] followed by
    [defer gpgAgent.Close(k)], then the rest of the function. *)
Definition serveStep (k : ConnectorKind) (ds : list Deferred)
    (rest : list Deferred → M (option string)) : M (option string) :=
  let* err := gpgAgent_Serve k in
  match err with
  | Some e => return_ ds (Some e)
  | None => rest (DeferClose k :: ds)
  end.

Definition extraPortStep (ds : list Deferred)
    (rest : list Deferred → M (option string)) : M (option string) :=
  if decide (GUI_ExtraPort cfg ≠ 0%Z)
  then serveStep ConnectorExtraPort ds rest
  else rest ds.

Definition setEnvStep (ds : list Deferred)
    (rest : list Deferred → M (option string)) : M (option string) :=
  if GUI_SetEnv cfg then
    let* err := setVars (negb (GoStrings.EqualFold (GUI_SSH cfg) "cygwin")) in
    match err with
    | Some e => return_ ds (Some e)
    | None => rest (DeferCleaner :: ds)
    end
  else rest ds.

Definition run : M (option string) :=
  serveStep ConnectorSockAgentCygwinSSH [] (λ ds,
  serveStep ConnectorPipeSSH ds (λ ds,
  serveStep ConnectorSockAgentSSH ds (λ ds,
  extraPortStep ds (λ ds,
  serveStep ConnectorSockAgent ds (λ ds,
  serveStep ConnectorSockAgentExtra ds (λ ds,
  setEnvStep ds (λ ds,
  let* err := gpgAgent_Start in
  match err with
  | Some e => return_ ds (Some e)
  | None => systray_Run >> return_ ds None
  end))))))).

(** *** clipServe *)

(** The loop over [cfg.GUI.Clp.Keys], at index [i] with the map built so
    far. *)
Fixpoint clipKeys (i : nat) (keys : list string)
    (pkeys : gmap (list N) (list N)) : M (gmap (list N) (list N)) :=
  match keys with
  | [] => ret pkeys
  | k :: keys' =>
      let '(pk, err) := Hex.DecodeString k in
      if bool_decide (err ≠ None) || negb (length pk =? 32)%nat then
        log_Print ("Bad gclpr public key " +:+ pretty i +:+ ". Ignoring") >>
        clipKeys (S i) keys' pkeys
      else
        let hpk := Sum256 X pk in
        log_Print ("gclpr found public key: " +:+ k +:+ " [" +:+
                   Hex.EncodeToString hpk +:+ "]") >>
        clipKeys (S i) keys' (<[hpk := pk]> pkeys)
  end.

Definition compatibleMagic : list N := [103; 99; 108; 112; 114; 1; 1; 0]%N.

(** [clipServe]; the goroutine that runs clip.Serve is recorded where it
    is started.  What the goroutine does when clip.Serve comes back with
    an error (a log line, and the help text "gclpr is not running")
    happens beside the program and is not embedded. *)
Definition clipServe : M unit :=
  modify (set_clipCtx (Some true)) >>
  if (0 <? length (GUI_Clp_Keys cfg))%nat then
    let* pkeys := clipKeys 0 (GUI_Clp_Keys cfg) ∅ in
    if (0 <? size pkeys)%nat then
      modify (set_clipHelp
        ("---------------------------" +:+ nl +:+ "gclpr is serving " +:+
         pretty (size pkeys) +:+ " key(s) on port " +:+ pretty (GUI_Clp_Port cfg))) >>
      emit (EvClipServe (GUI_Clp_Port cfg) (GUI_Clp_LE cfg) pkeys compatibleMagic)
    else ret tt
  else ret tt.

End Program.

(** ** Reading traces *)

Definition prepareEv (v : EnvVar) : Event :=
  EvPrepareEnv (name v) (value v) (register v) (translate v).

Definition cleanEv (v : EnvVar) : Event := EvCleanEnv (name v) (register v).

Definition deleteLog (n e : string) : Event :=
  EvLog ("Unable to delete " +:+ n +:+ " from user environment: " +:+ e).

Definition serveCall (e : Event) : option ConnectorKind :=
  match e with EvServe k => Some k | _ => None end.
Definition closeCall (e : Event) : option ConnectorKind :=
  match e with EvClose k => Some k | _ => None end.
Definition cleanCall (e : Event) : option (string * bool) :=
  match e with EvCleanEnv n r => Some (n, r) | _ => None end.
Definition prepareCall (e : Event) : option (string * string * bool * bool) :=
  match e with EvPrepareEnv n v r t => Some (n, v, r, t) | _ => None end.

(** The connectors served, the connectors closed, the variables removed
    and the variables written in a run of events, in order. *)
Definition serveCalls : list Event → list ConnectorKind := omap serveCall.
Definition closeCalls : list Event → list ConnectorKind := omap closeCall.
Definition cleanCalls : list Event → list (string * bool) := omap cleanCall.
Definition prepareCalls : list Event → list (string * string * bool * bool) :=
  omap prepareCall.

Definition isRevocation (e : Event) : bool :=
  match e with EvCleanEnv _ _ | EvLog _ => true | _ => false end.

(** The entries of a slice whose [initialized] flag is set. *)
Definition applied (vs : list EnvVar) : list EnvVar :=
  filter (λ v, initialized v = true) vs.

Definition key (v : EnvVar) : string * bool := (name v, register v).

(** Every removal call of [evs] that fails, made after the history [hist],
    is followed at once by its log line. *)
Definition failuresLogged (X : Externals) (hist evs : list Event) : Prop :=
  ∀ pre n r post e,
    evs = pre ++ EvCleanEnv n r :: post →
    failure X (hist ++ pre ++ [EvCleanEnv n r]) = Some e →
    ∃ post', post = deleteLog n e :: post'.

(** Every removal call of [evs] that succeeds, made after the history
    [hist], has its name unbound in [s], in the scopes of its flag. *)
Definition removalsHold (X : Externals) (hist evs : list Event) (s : Store) : Prop :=
  ∀ pre n r post,
    evs = pre ++ EvCleanEnv n r :: post →
    failure X (hist ++ pre ++ [EvCleanEnv n r]) = None →
    process s !! n = None ∧ (r = true → user s !! n = None).

(** The connectors [run] serves, in the order of the function body. *)
Definition configured (cfg : Config) : list ConnectorKind :=
  [ConnectorSockAgentCygwinSSH; ConnectorPipeSSH; ConnectorSockAgentSSH] ++
  (if decide (GUI_ExtraPort cfg ≠ 0%Z) then [ConnectorExtraPort] else []) ++
  [ConnectorSockAgent; ConnectorSockAgentExtra].

(** [clipCancel] is set: [clipServe] has run, as in [main] before [run]. *)
Definition clipCancelSet (w : World) : Prop := clipCtx w ≠ None.

(** [w'] differs from [w] at most in trace, store and slice. *)
Definition sameGlobals (w w' : World) : Prop :=
  lock w' = lock w ∧ clipHelp w' = clipHelp w ∧ clipCtx w' = clipCtx w.

Definition addError (n e : string) : string :=
  "unable to add " +:+ n +:+ " to user environment: " +:+ e.

(** The slice while the registration loop is at index [i] over the table
    [vs0]: the entries before [i] are flagged. *)
Definition midway (vs0 : list EnvVar) (i : nat) : list EnvVar :=
  (set_initialized true <$> take i vs0) ++ drop i vs0.

(** A computation that only appends to the trace, with events that all
    satisfy [P]. *)
Definition Emits {A} (P : Event → Prop) (c : M A) : Prop :=
  ∀ w, ∃ evs, trace (c w).2 = trace w ++ evs ∧ Forall P evs.

(** A computation that, besides, leaves the slice and the store alone. *)
Definition Quiet {A} (P : Event → Prop) (c : M A) : Prop :=
  ∀ w, ∃ evs, trace (c w).2 = trace w ++ evs ∧ Forall P evs ∧
              vars (c w).2 = vars w ∧ store (c w).2 = store w.

(** The Serve calls of a computation, against the list [ks] of connectors
    it has still to serve: they are made in the order of [ks]; a failed one
    ends the computation with its error and is the last; when none fails all
    of [ks] is served. *)
Definition ServesIn (X : Externals) (ks : list ConnectorKind)
    (c : M (option string)) : Prop :=
  ∀ w, ∃ evs,
    trace (c w).2 = trace w ++ evs ∧
    serveCalls evs `prefix_of` ks ∧
    (∀ pre k post e,
       evs = pre ++ EvServe k :: post →
       failure X (trace w ++ pre ++ [EvServe k]) = Some e →
       (c w).1 = Some e ∧ serveCalls post = []) ∧
    ((∀ pre k post,
       evs = pre ++ EvServe k :: post →
       failure X (trace w ++ pre ++ [EvServe k]) = None) →
     serveCalls evs = ks).

Definition noServe (e : Event) : Prop := serveCall e = None.

(** The tail of [run]: from [gpgAgent.Start] on, and from the publication
    of the environment on. *)
Definition startAndRun (X : Externals) (ds : list Deferred) : M (option string) :=
  let* err := gpgAgent_Start X in
  match err with
  | Some e => return_ X ds (Some e)
  | None => systray_Run X >> return_ X ds None
  end.

Definition afterServing (X : Externals) (cfg : Config) (ds : list Deferred) :
    M (option string) :=
  setEnvStep X cfg ds (startAndRun X).

(** The value of [native] that [run] passes to [setVars]. *)
Definition nativeSSH (cfg : Config) : bool :=
  negb (GoStrings.EqualFold (GUI_SSH cfg) "cygwin").

(** The removals a tear-down owes: the whole table in reverse when the
    environment was published, none otherwise. *)
Definition revocationOf (X : Externals) (cfg : Config) : list (string * bool) :=
  if GUI_SetEnv cfg then key <$> reverse (varsTable X cfg (nativeSSH cfg)) else [].

Definition written (v : EnvVar) : string * string * bool * bool :=
  (name v, value v, register v, translate v).

(** The writes a start-up makes: the whole table in order when
    publication is enabled, none otherwise. *)
Definition publicationOf (X : Externals) (cfg : Config) :
    list (string * string * bool * bool) :=
  if GUI_SetEnv cfg then written <$> varsTable X cfg (nativeSSH cfg) else [].

(** Events between the last Serve and the tear-down: no connector is
    served or closed and no variable removed. *)
Definition isUp (e : Event) : Prop :=
  serveCall e = None ∧ closeCall e = None ∧ cleanCall e = None.

(** A successful [rest], entered with the connectors [done] served (the
    most recent first) and with [todo] still to serve, serves [todo], then
    stays up, then revokes the environment, then closes every connector,
    the last served first. *)
Definition Unwinds (X : Externals) (cfg : Config) (todo : list ConnectorKind)
    (rest : list Deferred → M (option string)) : Prop :=
  ∀ done w, (rest (DeferClose <$> done) w).1 = None →
    ∃ mid rev,
      trace (rest (DeferClose <$> done) w).2
      = trace w ++ (EvServe <$> todo) ++ mid ++ rev
          ++ (EvClose <$> (reverse todo ++ done)) ∧
      Forall isUp mid ∧
      prepareCalls mid = publicationOf X cfg ∧
      Forall (λ e, isRevocation e = true) rev ∧
      cleanCalls rev = revocationOf X cfg.

(** One step of the byte loop of EqualFold as a test on two bytes, and the
    exhaustive comparison of that test with lower-casing, over all bytes
    against all lower-case letters. *)
Definition foldMatches (a b : ascii) : bool :=
  negb (GoStrings.RuneSelf <=? N.lor (N_of_ascii a) (N_of_ascii b))%N &&
  GoStrings.equalFoldByte (N_of_ascii a) (N_of_ascii b).

Definition bothBool (p : bool → bool) : bool := p true && p false.

Definition everyByte (p : ascii → bool) : bool :=
  bothBool (λ b0, bothBool (λ b1, bothBool (λ b2, bothBool (λ b3,
  bothBool (λ b4, bothBool (λ b5, bothBool (λ b6, bothBool (λ b7,
    p (Ascii b0 b1 b2 b3 b4 b5 b6 b7))))))))).

Definition foldTable : bool :=
  everyByte (λ b,
    if GoStrings.isLowerLetter b
    then everyByte (λ a,
           Bool.eqb (foldMatches a b) (Ascii.eqb (GoStrings.lowerByte a) b))
    else true).

(** The socket path published for SSH: the Cygwin connector's when the
    configured mode is "cygwin" in any letter case, the native pipe name
    otherwise. *)
Definition sshSocket (X : Externals) (cfg : Config) : string :=
  if decide (GoStrings.ToLowerASCII (GUI_SSH cfg) = "cygwin")
  then PathGUI X ConnectorSockAgentCygwinSSH
  else GUI_PipeName cfg.

(** The five writes of a publication whose SSH socket path is [sock]. *)
Definition fiveWrites (X : Externals) (cfg : Config) (sock : string) :
    list (string * string * bool * bool) :=
  [("SSH_AUTH_SOCK", sock, false, false);
   ("WSL_GNUPG_HOME", GPG_Home cfg, true, true);
   ("WIN_GNUPG_HOME", PrepareWindowsPath X (GPG_Home cfg), true, false);
   ("WSL_AGENT_HOME", GUI_Home cfg, true, true);
   ("WIN_AGENT_HOME", PrepareWindowsPath X (GUI_Home cfg), true, false)].

(** The effect on the store of one successful write of an entry. *)
Definition writeEntry (X : Externals) (s : Store) (v : EnvVar) : Store :=
  store_write (name v)
    (if translate v then translatePath X (value v) else value v) (register v) s.

(** What one session event asks of the agent. *)
Definition sessionCall (e : SessionEvent) : option Event :=
  match e with
  | SesLock => Some EvSessionLock
  | SesUnlock => Some EvSessionUnlock
  | SesOther _ => None
  end.

Definition lockAfter (l : LockState) (e : SessionEvent) : LockState :=
  match e with
  | SesLock => Locked
  | SesUnlock => Unlocked
  | SesOther _ => l
  end.

(** A configured key that [clipServe] keeps: it decodes without error to
    32 bytes. *)
Definition validKey (k : string) : bool :=
  bool_decide ((Hex.DecodeString k).2 = None) &&
  (length (Hex.DecodeString k).1 =? 32)%nat.

(** The map after one more key. *)
Definition addKey (X : Externals) (m : gmap (list N) (list N)) (k : string) :
    gmap (list N) (list N) :=
  if validKey k
  then <[Sum256 X (Hex.DecodeString k).1 := (Hex.DecodeString k).1]> m
  else m.

Definition badKeyLog (i : nat) : Event :=
  EvLog ("Bad gclpr public key " +:+ pretty i +:+ ". Ignoring").

Definition isLog (e : Event) : Prop :=
  match e with EvLog _ => True | _ => False end.

Definition servingHelp (cfg : Config) (pkeys : gmap (list N) (list N)) : string :=
  "---------------------------" +:+ nl +:+ "gclpr is serving " +:+
  pretty (size pkeys) +:+ " key(s) on port " +:+ pretty (GUI_Clp_Port cfg).

(** The events of the tray part of a run: no connector call and no
    environment call. *)
Definition isTray (e : Event) : Prop :=
  match e with
  | EvLog _ | EvSessionLock | EvSessionUnlock | EvClipCancel | EvStop => True
  | _ => False
  end.

(** An event that, if it is a write, writes an entry of [table]. *)
Definition writesFrom (table : list EnvVar) (e : Event) : Prop :=
  match e with
  | EvPrepareEnv n v r t => (n, v, r, t) ∈ written <$> table
  | _ => True
  end.

(** ** The relay session of an emulated-socket connector *)

Module Relay.

(** Modelled from the spec: the state of a RelaySession, "Handshaking →
    Relaying → Closed (terminal)".  Package [agent], which implements the
    connectors, is not part of the sources at hand. *)
Inductive SessionState := Handshaking | Relaying | Closed.

(** Modelled from the spec: the HandshakeAdapter variants, "passthrough,
    native-socket passthrough, and an emulated-socket secret-exchange
    adapter"; the last carries the secret published at bind time. *)
Inductive HandshakeAdapter :=
| Passthrough
| NativeSocketPassthrough
| EmulatedSocket (secret : list N).

(** Modelled from the spec: a RelaySession, with the bytes relayed so far
    in each direction. *)
Record RelaySession := {
  adapter : HandshakeAdapter;
  state : SessionState;
  toBackend : list N;
  toClient : list N;
}.

(** Modelled from the spec: what the task that drives a session meets
    next ("blocks on read from either peer during Handshaking and during
    Relaying"): the outcome of the fixed short read of the handshake (the
    bytes read, or a timeout), bytes arriving from either peer, or the end
    of a stream. *)
Inductive Input :=
| ClientRead (data : list N)
| ReadTimeout
| FromClient (data : list N)
| FromBackend (data : list N)
| EndOfStream.

(** Modelled from the spec: the comparison is "byte-for-byte
    (constant-time)".  Unequal lengths are rejected at once; otherwise
    every pair of bytes is combined, with no early exit, and the result
    is read off the accumulator.  The second component counts the pairs
    of bytes examined. *)
Fixpoint accumulate (x y : list N) (v : N) (steps : nat) : N * nat :=
  match x, y with
  | a :: x', b :: y' => accumulate x' y' (N.lor v (N.lxor a b)) (S steps)
  | _, _ => (v, steps)
  end.

(** Modelled from the spec: the constant-time comparison, with its
    count of byte pairs. *)
Definition ConstantTimeCompare (x y : list N) : bool * nat :=
  if (length x =? length y)%nat
  then let '(v, steps) := accumulate x y 0%N 0 in ((v =? 0)%N, steps)
  else (false, 0).

(** Modelled from the spec: the client "must send that secret back
    twice within a fixed short read". *)
Definition expected (secret : list N) : list N := secret ++ secret.

(** Modelled from the spec: the adapter's verdict on the outcome of the
    handshake read; "on mismatch or timeout" it refuses. *)
Definition negotiated (secret : list N) (inp : Input) : bool :=
  match inp with
  | ClientRead data => (ConstantTimeCompare data (expected secret)).1
  | _ => false
  end.

(** Modelled from the spec: closing a session; Closed is terminal. *)
Definition close (s : RelaySession) : RelaySession :=
  {| adapter := adapter s; state := Closed;
     toBackend := toBackend s; toClient := toClient s |}.

(** Modelled from the spec: Relaying, where "bytes pass unmodified and
    strictly in arrival order per direction" until either side ends, and
    then "both sides are closed together". *)
Definition relay (s : RelaySession) (inp : Input) : RelaySession :=
  match inp with
  | FromClient data =>
      {| adapter := adapter s; state := Relaying;
         toBackend := toBackend s ++ data; toClient := toClient s |}
  | FromBackend data =>
      {| adapter := adapter s; state := Relaying;
         toBackend := toBackend s; toClient := toClient s ++ data |}
  | _ => close s
  end.

(** Modelled from the spec: one step of the task that drives the
    session; a passthrough adapter moves "straight to Relaying", the
    emulated-socket adapter relays only after the secret matched and
    otherwise "closes the connection immediately with no relay ever
    starting". *)
Definition step (s : RelaySession) (inp : Input) : RelaySession :=
  match state s with
  | Handshaking =>
      match adapter s with
      | EmulatedSocket secret =>
          if negotiated secret inp
          then {| adapter := adapter s; state := Relaying;
                  toBackend := toBackend s; toClient := toClient s |}
          else close s
      | _ => relay s inp
      end
  | Relaying => relay s inp
  | Closed => s
  end.

(** Modelled from the spec: the sessions of a connector by identity,
    each driven by its own task; an event is an input for one of them, and
    the tasks interleave in any order. *)
Definition deliver (pool : gmap nat RelaySession) (ev : nat * Input) :
    gmap nat RelaySession :=
  alter (λ s, step s ev.2) ev.1 pool.

(** Modelled from the spec: a run of the connector over an interleaving
    of inputs. *)
Definition run (pool : gmap nat RelaySession) (evs : list (nat * Input)) :
    gmap nat RelaySession :=
  foldl deliver pool evs.

(** Modelled from the spec: a session as accepted, in Handshaking with
    nothing relayed. *)
Definition fresh (a : HandshakeAdapter) : RelaySession :=
  {| adapter := a; state := Handshaking; toBackend := []; toClient := [] |}.

(** Two sessions of one connector whose secret is 1, 2. *)
Definition twoSessions : gmap nat RelaySession :=
  <[1 := fresh (EmulatedSocket [1; 2]%N)]>
    (<[2 := fresh (EmulatedSocket [1; 2]%N)]> ∅).

End Relay.

(** ** Concrete collaborators and inputs *)

Definition noStore : Store := {| process := ∅; user := ∅ |}.

Definition w0 : World :=
  {| trace := []; store := noStore; lock := Unlocked; vars := [];
     clipHelp := ""; clipCtx := None |}.

Definition entry (n v : string) (persist : bool) : EnvVar :=
  {| initialized := false; name := n; value := v; register := persist;
     translate := false |}.

(** Scenario B of the specification: A and B persistent, C forced to
    fail. *)
Definition scenarioB : list EnvVar :=
  [entry "A" "valA" true; entry "B" "valB" true; entry "C" "valC" true].

(** An oracle that looks at the last call only. *)
Definition failing (bad : Event → option string) (hist : list Event) : option string :=
  last hist ≫= bad.

Definition externals (bad : Event → option string) (ses : list SessionEvent) : Externals :=
  {| failure := failing bad;
     PrepareWindowsPath := λ s, s;
     PathGUI := λ _, "/home/user/.ssh/agent.sock";
     translatePath := λ s, "/mnt/" +:+ s;
     Sum256 := λ bs, bs;
     delivered := ses |}.

(** Nothing fails. *)
Definition X_ok : Externals := externals (λ _, None) [SesLock; SesOther 5; SesUnlock].

(** Writing C fails. *)
Definition forcedC (e : Event) : option string :=
  match e with
  | EvPrepareEnv n _ _ _ => if decide (n = "C") then Some "forced" else None
  | _ => None
  end.
Definition X_forcedC : Externals := externals forcedC [].

(** Writing C fails and so does removing A. *)
Definition forcedC_stuckA (e : Event) : option string :=
  match e with
  | EvPrepareEnv n _ _ _ => if decide (n = "C") then Some "forced" else None
  | EvCleanEnv n _ => if decide (n = "A") then Some "denied" else None
  | _ => None
  end.
Definition X_stuckA : Externals := externals forcedC_stuckA [].

Definition cfg_env : Config :=
  {| GUI_PipeName := "\\.\pipe\openssh-ssh-agent"; GUI_Home := "C:\agent";
     GUI_ExtraPort := 0; GUI_SetEnv := true; GUI_SSH := "CygWin";
     GUI_Clp_Keys := []; GUI_Clp_Port := 2850; GUI_Clp_LE := "";
     GPG_Home := "C:\gnupg" |}.

(** ** Further readings of the program *)

(** The Serve calls of [run] as a loop over the connectors to serve. *)
Fixpoint serveAll (X : Externals) (ks : list ConnectorKind) (ds : list Deferred)
    (rest : list Deferred → M (option string)) : M (option string) :=
  match ks with
  | [] => rest ds
  | k :: ks' => serveStep X k ds (λ ds', serveAll X ks' ds' rest)
  end.

(** The effect on the store of one successful removal of an entry. *)
Definition removeEntry (s : Store) (v : EnvVar) : Store :=
  store_remove (name v) (register v) s.

(** An event that is neither a Serve nor a Close. *)
Definition isInner (e : Event) : Prop :=
  match e with
  | EvServe _ | EvClose _ => False
  | _ => True
  end.

(** An event of the environment transaction: a write, a removal or a log
    line. *)
Definition isEnv (e : Event) : Prop :=
  match e with
  | EvPrepareEnv _ _ _ _ | EvCleanEnv _ _ | EvLog _ => True
  | _ => False
  end.

(** The entries [run] publishes: the table when publication is enabled. *)
Definition published (X : Externals) (cfg : Config) : list EnvVar :=
  if GUI_SetEnv cfg then varsTable X cfg (nativeSSH cfg) else [].

(** Stop and every removal fail, nothing else does. *)
Definition stopAndRemovalsFail (e : Event) : option string :=
  match e with
  | EvStop => Some "busy"
  | EvCleanEnv _ _ => Some "denied"
  | _ => None
  end.
Definition X_teardownFails : Externals := externals stopAndRemovalsFail [SesLock].

(** The calls of one stay in the tray, entered after the history [hist]:
    the entry log line, the agent calls of the delivered session events,
    clipCancel and Stop, the log line of a failed Stop, the exit log
    line. *)
Definition trayEvents (X : Externals) (hist : list Event) : list Event :=
  let upToStop :=
    [EvLog "Entering systray"] ++ omap sessionCall (delivered X)
      ++ [EvClipCancel; EvStop] in
  upToStop ++
  match failure X (hist ++ upToStop) with
  | Some e => [EvLog ("Problem stopping gpg agent: " +:+ e)]
  | None => []
  end ++
  [EvLog "Exiting systray"].

(** The deferred calls pending at the end of [run]: the revocation when
    the environment was published, then the Close calls of [done]. *)
Definition pendingCalls (revoke : bool) (done : list ConnectorKind) : list Deferred :=
  (if revoke then [DeferCleaner] else []) ++ (DeferClose <$> done).

(** The names of the five published variables. *)
Definition publishedNames : list string :=
  ["SSH_AUTH_SOCK"; "WSL_GNUPG_HOME"; "WIN_GNUPG_HOME"; "WSL_AGENT_HOME";
   "WIN_AGENT_HOME"].

(** An oracle under which the write of WIN_GNUPG_HOME fails. *)
Definition homeWriteFails (e : Event) : option string :=
  match e with
  | EvPrepareEnv n _ _ _ => if decide (n = "WIN_GNUPG_HOME") then Some "denied" else None
  | _ => None
  end.
Definition X_homeWriteFails : Externals := externals homeWriteFails [].

(** *** Reading [clipServe] *)

(** The log line of an accepted key. *)
Definition foundKeyLog (X : Externals) (k : string) : Event :=
  EvLog ("gclpr found public key: " +:+ k +:+ " [" +:+
         Hex.EncodeToString (Sum256 X (Hex.DecodeString k).1) +:+ "]").

(** The log line of the key at index [i], and the lines of a list of keys
    that starts at index [i]. *)
Definition keyLog (X : Externals) (i : nat) (k : string) : Event :=
  if validKey k then foundKeyLog X k else badKeyLog i.

Fixpoint keyLogs (X : Externals) (i : nat) (keys : list string) : list Event :=
  match keys with
  | [] => []
  | k :: keys' => keyLog X i k :: keyLogs X (S i) keys'
  end.

(** The hexadecimal digits, in both cases. *)
Definition isHexDigit (c : ascii) : bool :=
  existsb (Ascii.eqb c) (list_ascii_of_string "0123456789abcdefABCDEF").

Fixpoint allHexDigits (s : string) : bool :=
  match s with
  | EmptyString => true
  | String c s' => isHexDigit c && allHexDigits s'
  end.

(** A key written as 64 hexadecimal digits; the log line of the key loop
    for the key at index [i], and the map after the key, said with it. *)
Definition hex64 (k : string) : bool :=
  (String.length k =? 64)%nat && allHexDigits k.

Definition keyLine (X : Externals) (i : nat) (k : string) : Event :=
  if hex64 k then foundKeyLog X k else badKeyLog i.

Definition keepKey (X : Externals) (m : gmap (list N) (list N)) (k : string) :
    gmap (list N) (list N) :=
  if hex64 k
  then <[Sum256 X (Hex.DecodeString k).1 := (Hex.DecodeString k).1]> m
  else m.

Definition sameDigit (a b : option N) : bool :=
  match a, b with
  | Some x, Some y => (x =? y)%N
  | None, None => true
  | _, _ => false
  end.

Definition hexDigitTable_ok : bool :=
  everyByte (λ c,
    Bool.eqb (isHexDigit c)
      (match Hex.fromHexChar c with Some _ => true | None => false end)).

Definition lowerDigitTable_ok : bool :=
  everyByte (λ c,
    sameDigit (Hex.fromHexChar (GoStrings.lowerByte c)) (Hex.fromHexChar c)).

(** ** The program entry *)

(** The kinds of message box of package [util] that [main.go] names. *)
Inductive MsgKind := MsgInformation | MsgError.

(** A value or an error, as the two results of a Go call. *)
Inductive Result (A : Type) :=
| Ok (a : A)
| Err (e : string).
Arguments Ok {A} a.
Arguments Err {A} e.

(** The flags after a successful [cli.Getopt]: the value of -c when it
    was given, and the two switches. *)
Record Flags := {
  optConfig : option string;
  optHelp : bool;
  optDebug : bool;
}.

(** What the calls that [main] makes itself answer.  [Load] gives the
    configuration and its field [GUI.Debug]. *)
Record Startup := {
  GetVersion : string;
  runtimeVersion : string;
  GetGitHash : string;
  PrintUsage : string;
  Executable : Result string;
  Dir : string → string;
  Join : string → string → string;
  Getopt : Result Flags;
  Load : string → Result (Config * bool);
  MkdirAll : string → option string;
  IsProperWindowsVer : bool * option string;
  TempDir : string;
  CreateLockFile : string → option string;
  KillRunningAgent : option string;
  NewAgent : Config → bool → option string;
}.

(** The calls of [main], in the order they are made; the calls of
    [clipServe] and [run] appear as [MInner]. *)
Inductive MainEvent :=
| MNewLogWriter (debug : bool)
| MShowOKMessage (kind : MsgKind) (text : string)
| MLoad (path : string)
| MMkdirAll (path : string)
| MIsProperWindowsVer
| MCreateLockFile (name : string)
| MKillRunningAgent
| MNewAgent (cfg : Config) (debug : bool)
| MInstClose
| MRemove (name : string)
| MInner (e : Event).

(** How the process ends: [os.Exit] with a code, or [main] returns. *)
Inductive Outcome :=
| Exited (code : Z)
| Returned.

Definition title : string := "agent-gui".
Definition tooltip : string := "GUI wrapper for gpg-agent".
Definition tab : string := String (ascii_of_nat 9) EmptyString.

Definition buildUsageString (S0 : Startup) : string :=
  nl +:+ tooltip +:+ nl +:+ nl +:+ "Version:" +:+ nl +:+ tab +:+
  GetVersion S0 +:+ " (" +:+ runtimeVersion S0 +:+ ")" +:+ nl +:+ tab +:+
  GetGitHash S0 +:+ nl +:+ nl +:+ PrintUsage S0.

(** The events a call on the program state has added to its trace. *)
Definition newEvents (w w' : World) : list MainEvent :=
  MInner <$> drop (length (trace w)) (trace w').

Definition exitWithError (t : list MainEvent) (e : string) (w : World) :
    Outcome * list MainEvent * World :=
  (Exited 1, t ++ [MShowOKMessage MsgError e], w).

Definition lockName (S0 : Startup) : string :=
  Join S0 (TempDir S0) (title +:+ ".lock").

(** The name of the configuration file: next to the executable when its
    path is known, and whatever -c gives when it is given. *)
Definition configName (S0 : Startup) (flags : Flags) : string :=
  let aConfigName := title +:+ ".conf" in
  let aConfigName :=
    match Executable S0 with
    | Ok expath => Join S0 (Dir S0 expath) aConfigName
    | Err _ => aConfigName
    end in
  match optConfig flags with
  | Some path => path
  | None => aConfigName
  end.

(** [main], from the lock on.  [run] reads the configuration through
    [gpgAgent.Cfg], the one [NewAgent] was given. *)
Definition mainLocked (S0 : Startup) (X : Externals) (cfg : Config) (debug : bool)
    (t : list MainEvent) (w : World) : Outcome * list MainEvent * World :=
  let w1 := (clipServe X cfg w).2 in
  let t := t ++ newEvents w w1 ++ [MKillRunningAgent] in
  match KillRunningAgent S0 with
  | Some e => exitWithError t e w1
  | None =>
      let t := t ++ [MNewAgent cfg debug] in
      match NewAgent S0 cfg debug with
      | Some e => exitWithError t e w1
      | None =>
          let r := run X cfg w1 in
          let t := t ++ newEvents w1 r.2 in
          let t :=
            match r.1 with
            | Some e => t ++ [MShowOKMessage MsgError e]
            | None => t
            end in
          (Returned, t ++ [MInstClose; MRemove (lockName S0)], r.2)
      end
  end.

(** [main], from the loaded configuration on. *)
Definition mainLoaded (S0 : Startup) (X : Externals) (cfg : Config) (debug : bool)
    (t : list MainEvent) (w : World) : Outcome * list MainEvent * World :=
  let t := t ++ [MNewLogWriter debug; MMkdirAll (GUI_Home cfg)] in
  match MkdirAll S0 (GUI_Home cfg) with
  | Some e => exitWithError t e w
  | None =>
      let t := t ++ [MIsProperWindowsVer] in
      match IsProperWindowsVer S0 with
      | (_, Some e) => exitWithError t e w
      | (false, None) =>
          exitWithError t "This Windows version does not support AF_UNIX sockets" w
      | (true, None) =>
          let t := t ++ [MCreateLockFile (lockName S0)] in
          match CreateLockFile S0 (lockName S0) with
          | Some _ =>
              let w1 := (log_Print "Application already running" w).2 in
              (Exited 0, t ++ newEvents w w1, w1)
          | None => mainLocked S0 X cfg debug t w
          end
      end
  end.

Definition main (S0 : Startup) (X : Externals) (w : World) :
    Outcome * list MainEvent * World :=
  let t := [MNewLogWriter false] in
  let usageString := buildUsageString S0 in
  match Getopt S0 with
  | Err e => exitWithError t e w
  | Ok flags =>
      if optHelp flags
      then (Exited 0, t ++ [MShowOKMessage MsgInformation usageString], w)
      else
        let aConfigName := configName S0 flags in
        let t := t ++ [MLoad aConfigName] in
        match Load S0 aConfigName with
        | Err e => exitWithError t e w
        | Ok (cfg, debug) =>
            let debug := if optDebug flags then optDebug flags else debug in
            mainLoaded S0 X cfg debug t w
        end
  end.

(** *** Reading the trace of [main] *)

(** The message boxes of a trace, in order. *)
Definition boxOf (e : MainEvent) : option (MsgKind * string) :=
  match e with MShowOKMessage kind text => Some (kind, text) | _ => None end.
Definition boxesOf (t : list MainEvent) : list (MsgKind * string) := omap boxOf t.

(** The two calls that give the lock back. *)
Definition isRelease (e : MainEvent) : bool :=
  match e with MInstClose | MRemove _ => true | _ => false end.

(** The calls of [main] before it takes the lock. *)
Definition isCheck (e : MainEvent) : Prop :=
  match e with
  | MNewLogWriter _ | MLoad _ | MMkdirAll _ | MIsProperWindowsVer => True
  | _ => False
  end.

(** The events of [clipServe]. *)
Definition isClipEvent (e : Event) : Prop :=
  match e with EvLog _ | EvClipServe _ _ _ _ => True | _ => False end.

Definition outcomeOf (r : Outcome * list MainEvent * World) : Outcome := r.1.1.
Definition callsOf (r : Outcome * list MainEvent * World) : list MainEvent := r.1.2.
Definition worldOf (r : Outcome * list MainEvent * World) : World := r.2.

(** A start-up under which every check passes: the configuration
    [cfg_env] is found next to the executable. *)
Definition startup_ok : Startup :=
  {| GetVersion := "1.6.3"; runtimeVersion := "go1.17"; GetGitHash := "abcdef0";
     PrintUsage := "Usage: agent-gui.exe [-dh] [-c path]";
     Executable := Ok "C:\tools\agent-gui.exe";
     Dir := λ _, "C:\tools";
     Join := λ d f, d +:+ "\" +:+ f;
     Getopt := Ok {| optConfig := None; optHelp := false; optDebug := true |};
     Load := λ _, Ok (cfg_env, false);
     MkdirAll := λ _, None;
     IsProperWindowsVer := (true, None);
     TempDir := "C:\temp";
     CreateLockFile := λ _, None;
     KillRunningAgent := None;
     NewAgent := λ _ _, None |}.

(** The same start-up when another instance holds the lock. *)
Definition startup_second : Startup :=
  {| GetVersion := GetVersion startup_ok; runtimeVersion := runtimeVersion startup_ok;
     GetGitHash := GetGitHash startup_ok; PrintUsage := PrintUsage startup_ok;
     Executable := Executable startup_ok; Dir := Dir startup_ok; Join := Join startup_ok;
     Getopt := Getopt startup_ok; Load := Load startup_ok; MkdirAll := MkdirAll startup_ok;
     IsProperWindowsVer := IsProperWindowsVer startup_ok; TempDir := TempDir startup_ok;
     CreateLockFile := λ _, Some "locked";
     KillRunningAgent := KillRunningAgent startup_ok; NewAgent := NewAgent startup_ok |}.

(** An oracle under which [Start] fails. *)
Definition startFails (e : Event) : option string :=
  match e with EvStart => Some "no gpg-agent" | _ => None end.
Definition X_startFails : Externals := externals startFails [].

(** ** Basic facts about the monad and the trace readers *)

Lemma bind_run {A B} (c : M A) (k : A → M B) (w : World) :
  bind c k w = k (c w).1 (c w).2.
Proof. unfold bind. destruct (c w); reflexivity. Qed.

Lemma cons_split {A} (x y : A) (l pre post : list A) :
  x :: l = pre ++ y :: post →
  (pre = [] ∧ x = y ∧ l = post) ∨ (∃ pre', pre = x :: pre' ∧ l = pre' ++ y :: post).
Proof.
  destruct pre as [|p pre]; simpl; intros H; inversion H; subst; eauto.
Qed.

Lemma failuresLogged_nil X hist : failuresLogged X hist [].
Proof. intros pre n r post e H. destruct pre; discriminate. Qed.

Lemma removalsHold_nil X hist s : removalsHold X hist [] s.
Proof. intros pre n r post H. destruct pre; discriminate. Qed.

Lemma failuresLogged_ok X hist n r evs :
  failure X (hist ++ [EvCleanEnv n r]) = None →
  failuresLogged X (hist ++ [EvCleanEnv n r]) evs →
  failuresLogged X hist (EvCleanEnv n r :: evs).
Proof.
  intros Hok IH pre n' r' post e Heq Hf.
  apply cons_split in Heq as [(-> & Hc & ->)|(pre' & -> & ->)].
  - inversion Hc; subst. simpl in Hf. congruence.
  - apply (IH pre' n' r' post e eq_refl).
    rewrite <- Hf. f_equal. rewrite <- !app_assoc. reflexivity.
Qed.

Lemma failuresLogged_failed X hist n r e evs :
  failure X (hist ++ [EvCleanEnv n r]) = Some e →
  failuresLogged X (hist ++ [EvCleanEnv n r; deleteLog n e]) evs →
  failuresLogged X hist (EvCleanEnv n r :: deleteLog n e :: evs).
Proof.
  intros Hfail IH pre n' r' post e' Heq Hf.
  apply cons_split in Heq as [(-> & Hc & <-)|(pre' & -> & Heq)].
  - inversion Hc; subst. simpl in Hf. rewrite Hfail in Hf. inversion Hf; subst. eauto.
  - apply cons_split in Heq as [(-> & Hc & _)|(pre'' & -> & ->)]; [discriminate|].
    apply (IH pre'' n' r' post e' eq_refl).
    rewrite <- Hf. f_equal. rewrite <- !app_assoc. reflexivity.
Qed.

Lemma removalsHold_ok X hist n r evs s :
  process s !! n = None → (r = true → user s !! n = None) →
  removalsHold X (hist ++ [EvCleanEnv n r]) evs s →
  removalsHold X hist (EvCleanEnv n r :: evs) s.
Proof.
  intros Hp Hu IH pre n' r' post Heq Hf.
  apply cons_split in Heq as [(-> & Hc & ->)|(pre' & -> & ->)].
  - inversion Hc; subst. auto.
  - apply (IH pre' n' r' post eq_refl).
    rewrite <- Hf. f_equal. rewrite <- !app_assoc. reflexivity.
Qed.

Lemma removalsHold_failed X hist n r e evs s :
  failure X (hist ++ [EvCleanEnv n r]) = Some e →
  removalsHold X (hist ++ [EvCleanEnv n r; deleteLog n e]) evs s →
  removalsHold X hist (EvCleanEnv n r :: deleteLog n e :: evs) s.
Proof.
  intros Hfail IH pre n' r' post Heq Hf.
  apply cons_split in Heq as [(-> & Hc & <-)|(pre' & -> & Heq)].
  - inversion Hc; subst. simpl in Hf. congruence.
  - apply cons_split in Heq as [(-> & Hc & _)|(pre'' & -> & ->)]; [discriminate|].
    apply (IH pre'' n' r' post eq_refl).
    rewrite <- Hf. f_equal. rewrite <- !app_assoc. reflexivity.
Qed.

(** *** One iteration of [cleaner] *)

Lemma cleanAt_skip X i w v :
  vars w !! i = Some v → initialized v = false → cleanAt X i w = (tt, w).
Proof.
  intros Hv Hi. unfold cleanAt, bind, gets. rewrite Hv, Hi. reflexivity.
Qed.

Lemma cleanAt_failed X i w v e :
  vars w !! i = Some v → initialized v = true →
  failure X (trace w ++ [cleanEv v]) = Some e →
  let w' := (cleanAt X i w).2 in
  trace w' = trace w ++ [cleanEv v; deleteLog (name v) e] ∧
  store w' = store w ∧
  vars w' = alter (set_initialized false) i (vars w) ∧
  sameGlobals w w'.
Proof.
  intros Hv Hi Hf. unfold cleanAt, bind, gets. rewrite Hv, Hi.
  unfold CleanUserEnvironmentVariable, bind, call. fold (cleanEv v). rewrite Hf.
  simpl. rewrite <- app_assoc. repeat split.
Qed.

Lemma cleanAt_ok X i w v :
  vars w !! i = Some v → initialized v = true →
  failure X (trace w ++ [cleanEv v]) = None →
  let w' := (cleanAt X i w).2 in
  trace w' = trace w ++ [cleanEv v] ∧
  store w' = store_remove (name v) (register v) (store w) ∧
  vars w' = alter (set_initialized false) i (vars w) ∧
  sameGlobals w w'.
Proof.
  intros Hv Hi Hf. unfold cleanAt, bind, gets. rewrite Hv, Hi.
  unfold CleanUserEnvironmentVariable, bind, call. fold (cleanEv v). rewrite Hf.
  simpl. repeat split.
Qed.

Lemma set_initialized_false_id v :
  initialized v = false → set_initialized false v = v.
Proof. destruct v; simpl; intros ->; reflexivity. Qed.

Lemma applied_snoc vs v :
  applied (vs ++ [v]) = applied vs ++ (if initialized v then [v] else []).
Proof.
  unfold applied. rewrite filter_app. f_equal.
  destruct (initialized v) eqn:Hi.
  - rewrite filter_cons_True by exact Hi. reflexivity.
  - rewrite filter_cons_False by congruence. reflexivity.
Qed.

Lemma store_remove_process_None n r s nm :
  process s !! nm = None → process (store_remove n r s) !! nm = None.
Proof.
  intros H. simpl. destruct (decide (n = nm)) as [->|Hne].
  - apply lookup_delete_eq.
  - rewrite lookup_delete_ne by exact Hne. exact H.
Qed.

Lemma store_remove_user_None n r s nm :
  user s !! nm = None → user (store_remove n r s) !! nm = None.
Proof.
  intros H. simpl. destruct r; [|exact H].
  destruct (decide (n = nm)) as [->|Hne].
  - apply lookup_delete_eq.
  - rewrite lookup_delete_ne by exact Hne. exact H.
Qed.

(** *** The loop of [cleaner] *)

Lemma cleanerFrom_spec X n : ∀ w, n ≤ length (vars w) →
  let w1 := (cleanerFrom X n w).2 in
  ∃ evs,
    trace w1 = trace w ++ evs ∧
    cleanCalls evs = key <$> reverse (applied (take n (vars w))) ∧
    Forall (λ e, isRevocation e = true) evs ∧
    failuresLogged X (trace w) evs ∧
    removalsHold X (trace w) evs (store w1) ∧
    vars w1 = (set_initialized false <$> take n (vars w)) ++ drop n (vars w) ∧
    sameGlobals w w1 ∧
    (∀ nm, process (store w) !! nm = None → process (store w1) !! nm = None) ∧
    (∀ nm, user (store w) !! nm = None → user (store w1) !! nm = None) ∧
    (∀ nm, (∀ v, v ∈ take n (vars w) → name v = nm → register v = false) →
           user (store w1) !! nm = user (store w) !! nm).
Proof.
  induction n as [|i IH]; intros w Hn.
  - exists []. simpl. rewrite app_nil_r, drop_0.
    repeat apply conj; auto using failuresLogged_nil, removalsHold_nil.
  - destruct (lookup_lt_is_Some_2 (vars w) i ltac:(lia)) as [v Hv].
    cbn [cleanerFrom]. rewrite bind_run.
    rewrite (take_S_r _ _ _ Hv), applied_snoc, reverse_app, fmap_app.
    destruct (initialized v) eqn:Hi.
    + destruct (failure X (trace w ++ [cleanEv v])) as [e|] eqn:Hf.
      * destruct (cleanAt_failed X i w v e Hv Hi Hf) as (Ht & Hs & Hvs & Hl & Hh & Hc).
        set (w' := (cleanAt X i w).2) in *.
        destruct (IH w') as (evs & E1 & E2 & E3 & E4 & E5 & E6 & (G1 & G2 & G3) & E8 & E9 & E10).
        { rewrite Hvs, length_alter. lia. }
        rewrite Hvs, take_alter_ge in E2, E6, E10 by lia.
        exists (cleanEv v :: deleteLog (name v) e :: evs).
        rewrite E1, Ht, <- app_assoc. split; [reflexivity|].
        split; [change (cleanCalls (cleanEv v :: deleteLog (name v) e :: evs))
                  with (key v :: cleanCalls evs); rewrite E2; reflexivity|].
        split; [repeat constructor; exact E3|].
        split; [apply failuresLogged_failed; [exact Hf|rewrite Ht in E4; exact E4]|].
        split; [apply (removalsHold_failed _ _ _ _ e); [exact Hf|rewrite Ht in E5; exact E5]|].
        split.
        { rewrite E6, fmap_app, <- app_assoc. f_equal.
          rewrite drop_alter_ge by lia. rewrite (drop_S _ _ _ Hv).
          replace (i - i) with 0 by lia. reflexivity. }
        split; [repeat split; congruence|].
        rewrite Hs in E8, E9, E10. split; [exact E8|]. split; [exact E9|].
        intros nm Hnm. apply E10. intros v' Hv'. apply Hnm.
        apply elem_of_app. left. exact Hv'.
      * destruct (cleanAt_ok X i w v Hv Hi Hf) as (Ht & Hs & Hvs & Hl & Hh & Hc).
        set (w' := (cleanAt X i w).2) in *.
        destruct (IH w') as (evs & E1 & E2 & E3 & E4 & E5 & E6 & (G1 & G2 & G3) & E8 & E9 & E10).
        { rewrite Hvs, length_alter. lia. }
        rewrite Hvs, take_alter_ge in E2, E6, E10 by lia.
        exists (cleanEv v :: evs).
        rewrite E1, Ht, <- app_assoc. split; [reflexivity|].
        split; [change (cleanCalls (cleanEv v :: evs)) with (key v :: cleanCalls evs);
                rewrite E2; reflexivity|].
        split; [repeat constructor; exact E3|].
        split; [apply failuresLogged_ok; [exact Hf|rewrite Ht in E4; exact E4]|].
        split.
        { apply removalsHold_ok; [| |rewrite Ht in E5; exact E5].
          - apply E8. rewrite Hs. simpl. apply lookup_delete_eq.
          - intros Hr. apply E9. rewrite Hs. simpl. rewrite Hr. apply lookup_delete_eq. }
        split.
        { rewrite E6, fmap_app, <- app_assoc. f_equal.
          rewrite drop_alter_ge by lia. rewrite (drop_S _ _ _ Hv).
          replace (i - i) with 0 by lia. reflexivity. }
        split; [repeat split; congruence|].
        rewrite Hs in E8, E9, E10.
        split; [intros nm H; apply E8, store_remove_process_None, H|].
        split; [intros nm H; apply E9, store_remove_user_None, H|].
        intros nm Hnm. rewrite E10.
        { simpl. destruct (register v) eqn:Hr; [|reflexivity].
          apply lookup_delete_ne. intros Heq.
          rewrite (Hnm v) in Hr; [discriminate| |exact Heq].
          apply elem_of_app. right. apply list_elem_of_singleton. reflexivity. }
        intros v' Hv'. apply Hnm. apply elem_of_app. left. exact Hv'.
    + rewrite (cleanAt_skip X i w v Hv Hi). simpl.
      destruct (IH w) as (evs & E1 & E2 & E3 & E4 & E5 & E6 & E7 & E8 & E9 & E10); [lia|].
      exists evs.
      repeat (split; [assumption|]).
      split.
      { rewrite E6, fmap_app, <- app_assoc. f_equal.
        rewrite (drop_S _ _ _ Hv). simpl. rewrite set_initialized_false_id by exact Hi.
        reflexivity. }
      repeat (split; [assumption|]).
      intros nm Hnm. apply E10. intros v' Hv'. apply Hnm.
      apply elem_of_app. left. exact Hv'.
Qed.

Lemma cleaner_spec X w :
  let w1 := (cleaner X w).2 in
  ∃ evs,
    trace w1 = trace w ++ evs ∧
    cleanCalls evs = key <$> reverse (applied (vars w)) ∧
    Forall (λ e, isRevocation e = true) evs ∧
    failuresLogged X (trace w) evs ∧
    removalsHold X (trace w) evs (store w1) ∧
    vars w1 = set_initialized false <$> vars w ∧
    sameGlobals w w1 ∧
    (∀ nm, process (store w) !! nm = None → process (store w1) !! nm = None) ∧
    (∀ nm, user (store w) !! nm = None → user (store w1) !! nm = None) ∧
    (∀ nm, (∀ v, v ∈ vars w → name v = nm → register v = false) →
           user (store w1) !! nm = user (store w) !! nm).
Proof.
  unfold cleaner. rewrite bind_run. simpl.
  destruct (cleanerFrom_spec X (length (vars w)) w (le_n _)) as (evs & H).
  rewrite take_ge, drop_ge, app_nil_r in H by lia.
  exists evs. exact H.
Qed.

Lemma cleanerFrom_noop X n : ∀ w,
  n ≤ length (vars w) →
  Forall (λ v, initialized v = false) (vars w) →
  cleanerFrom X n w = (tt, w).
Proof.
  induction n as [|i IH]; intros w Hn Hall; [reflexivity|].
  destruct (lookup_lt_is_Some_2 (vars w) i ltac:(lia)) as [v Hv].
  cbn [cleanerFrom]. rewrite bind_run.
  rewrite (cleanAt_skip X i w v Hv).
  - simpl. apply IH; [lia|exact Hall].
  - rewrite Forall_forall in Hall. apply Hall. eapply list_elem_of_lookup_2, Hv.
Qed.

Lemma cleaner_noop X w :
  Forall (λ v, initialized v = false) (vars w) → cleaner X w = (tt, w).
Proof.
  intros Hall. unfold cleaner. rewrite bind_run. simpl.
  apply cleanerFrom_noop; [lia|exact Hall].
Qed.

Lemma Forall_set_initialized_false (vs : list EnvVar) :
  Forall (λ v, initialized v = false) (set_initialized false <$> vs).
Proof. apply Forall_fmap, Forall_true. intros v. reflexivity. Qed.

(** *** The registration loop of [setVars] *)

Lemma set_false_true_id v :
  initialized v = false → set_initialized false (set_initialized true v) = v.
Proof. destruct v; simpl; intros ->; reflexivity. Qed.

Lemma applied_registered (vs : list EnvVar) :
  applied (set_initialized true <$> vs) = set_initialized true <$> vs.
Proof.
  unfold applied. induction vs as [|v vs IH]; [reflexivity|].
  rewrite fmap_cons, filter_cons_True by reflexivity. rewrite IH. reflexivity.
Qed.

Lemma applied_fresh (vs : list EnvVar) :
  Forall (λ v, initialized v = false) vs → applied vs = [].
Proof.
  unfold applied. induction 1 as [|v vs Hv _ IH]; [reflexivity|].
  rewrite filter_cons_False by congruence. exact IH.
Qed.

Lemma unregister_all (vs : list EnvVar) :
  Forall (λ v, initialized v = false) vs →
  set_initialized false <$> (set_initialized true <$> vs) = vs.
Proof.
  induction 1 as [|v vs Hv _ IH]; [reflexivity|].
  rewrite !fmap_cons, IH, set_false_true_id by exact Hv. reflexivity.
Qed.

Lemma unregister_fresh (vs : list EnvVar) :
  Forall (λ v, initialized v = false) vs → set_initialized false <$> vs = vs.
Proof.
  induction 1 as [|v vs Hv _ IH]; [reflexivity|].
  rewrite fmap_cons, IH, set_initialized_false_id by exact Hv. reflexivity.
Qed.

Lemma key_registered (vs : list EnvVar) :
  key <$> (set_initialized true <$> vs) = key <$> vs.
Proof. rewrite <- list_fmap_compose. reflexivity. Qed.

Lemma midway_lookup vs0 i v :
  vs0 !! i = Some v → midway vs0 i !! i = Some v.
Proof.
  intros Hv. unfold midway.
  assert (i < length vs0) by (eapply lookup_lt_Some, Hv).
  rewrite lookup_app_r; rewrite length_fmap, length_take; [|lia].
  replace (i - i `min` length vs0) with 0 by lia.
  rewrite lookup_drop, Nat.add_0_r. exact Hv.
Qed.

Lemma midway_step vs0 i v :
  vs0 !! i = Some v →
  alter (set_initialized true) i (midway vs0 i) = midway vs0 (S i).
Proof.
  intros Hv. unfold midway.
  assert (i < length vs0) by (eapply lookup_lt_Some, Hv).
  rewrite alter_app_r_alt; rewrite length_fmap, length_take; [|lia].
  replace (i - i `min` length vs0) with 0 by lia.
  rewrite (drop_S _ _ _ Hv), (take_S_r _ _ _ Hv), fmap_app, <- app_assoc.
  reflexivity.
Qed.

Lemma midway_elem vs0 i v' :
  v' ∈ midway vs0 i → ∃ v0, v0 ∈ vs0 ∧ name v' = name v0 ∧ register v' = register v0.
Proof.
  unfold midway. intros Hv'. apply elem_of_app in Hv' as [Hv'|Hv'].
  - apply list_elem_of_fmap in Hv' as (v0 & -> & Hv0).
    apply elem_of_take in Hv0 as (j & Hj & _).
    exists v0. split; [eapply list_elem_of_lookup_2, Hj|]. split; reflexivity.
  - exists v'. split; [eapply subseteq_drop, Hv'|]. split; reflexivity.
Qed.

Lemma store_write_user_other n x r s nm :
  (n = nm → r = false) →
  user (store_write n x r s) !! nm = user s !! nm.
Proof.
  intros H. simpl. destruct r; [|reflexivity].
  apply lookup_insert_ne. intros Heq. specialize (H Heq). discriminate.
Qed.

Lemma hist_shift (hist : list Event) (v : EnvVar) (vs : list EnvVar) j :
  hist ++ (prepareEv <$> take (S j) (v :: vs))
  = (hist ++ [prepareEv v]) ++ (prepareEv <$> take j vs).
Proof. rewrite <- app_assoc. reflexivity. Qed.

Lemma registerFrom_step_failed X n i w v e :
  vars w !! i = Some v →
  failure X (trace w ++ [prepareEv v]) = Some e →
  registerFrom X (S n) i w
  = (Some (addError (name v) e),
     (cleaner X (set_trace (trace w ++ [prepareEv v]) w)).2).
Proof.
  intros Hv Hf. cbn [registerFrom].
  unfold bind at 1. unfold gets at 1. rewrite Hv.
  unfold bind at 1. unfold PrepareUserEnvironmentVariable, bind at 1, call.
  fold (prepareEv v). rewrite Hf. unfold ret at 1. unfold bind.
  destruct (cleaner X _). reflexivity.
Qed.

Lemma registerFrom_step_ok X n i w v :
  vars w !! i = Some v →
  failure X (trace w ++ [prepareEv v]) = None →
  registerFrom X (S n) i w
  = registerFrom X n (S i)
      (set_vars (alter (set_initialized true) i (vars w))
         (set_store
            (store_write (name v)
               (if translate v then translatePath X (value v) else value v)
               (register v) (store w))
            (set_trace (trace w ++ [prepareEv v]) w))).
Proof.
  intros Hv Hf. cbn [registerFrom].
  unfold bind at 1. unfold gets at 1. rewrite Hv.
  unfold bind at 1. unfold PrepareUserEnvironmentVariable, bind at 1, call.
  fold (prepareEv v). rewrite Hf. reflexivity.
Qed.

Lemma registerFrom_failed X vs0 :
  Forall (λ v, initialized v = false) vs0 →
  ∀ k n i w v e,
    i + n = length vs0 →
    vars w = midway vs0 i →
    vs0 !! (i + k) = Some v →
    failure X (trace w ++ (prepareEv <$> take (S k) (drop i vs0))) = Some e →
    (∀ j, j < k →
       failure X (trace w ++ (prepareEv <$> take (S j) (drop i vs0))) = None) →
    let r := registerFrom X n i w in
    let hist := trace w ++ (prepareEv <$> take (S k) (drop i vs0)) in
    r.1 = Some (addError (name v) e) ∧
    ∃ back,
      trace r.2 = hist ++ back ∧
      cleanCalls back = key <$> reverse (take (i + k) vs0) ∧
      Forall (λ e, isRevocation e = true) back ∧
      failuresLogged X hist back ∧
      removalsHold X hist back (store r.2) ∧
      vars r.2 = vs0 ∧
      sameGlobals w r.2 ∧
      (∀ nm, (∀ v, v ∈ vs0 → name v = nm → register v = false) →
             user (store r.2) !! nm = user (store w) !! nm) ∧
      (∀ nm, process (foldl (writeEntry X) (store w) (take k (drop i vs0))) !! nm = None →
             process (store r.2) !! nm = None) ∧
      (∀ nm, user (foldl (writeEntry X) (store w) (take k (drop i vs0))) !! nm = None →
             user (store r.2) !! nm = None).
Proof.
  intros Hfresh. induction k as [|k IH]; intros n i w v e Hlen Hvars Hv Hfail Hfirst r hist.
  - rewrite Nat.add_0_r in *.
    assert (i < length vs0) by (eapply lookup_lt_Some, Hv).
    destruct n as [|n]; [lia|].
    subst hist. rewrite (drop_S _ _ _ Hv) in *. cbn [take fmap list_fmap] in *.
    assert (Hr : r = registerFrom X (S n) i w) by reflexivity.
    rewrite (registerFrom_step_failed X n i w v e) in Hr;
      [|rewrite Hvars; apply (midway_lookup _ _ _ Hv)|exact Hfail].
    clearbody r. subst r. cbn [fst snd].
    split; [reflexivity|].
    set (w' := set_trace (trace w ++ [prepareEv v]) w).
    destruct (cleaner_spec X w') as
      (back & E1 & E2 & E3 & E4 & E5 & E6 & (F1 & F2 & F3) & E8 & E9 & E10).
    simpl in E1, E2, E4, E5, E6, E8, E9, E10, F1, F2, F3. rewrite Hvars in E2, E6, E10.
    exists back. split; [exact E1|].
    split.
    { rewrite E2. unfold midway, applied. rewrite filter_app.
      fold (applied (set_initialized true <$> take i vs0)).
      fold (applied (drop i vs0)).
      rewrite applied_registered, applied_fresh, app_nil_r.
      - rewrite <- fmap_reverse, key_registered, fmap_reverse. reflexivity.
      - apply Forall_drop, Hfresh. }
    split; [exact E3|]. split; [exact E4|]. split; [exact E5|].
    split.
    { rewrite E6. unfold midway. rewrite fmap_app, unregister_all, unregister_fresh.
      - apply take_drop.
      - apply Forall_drop, Hfresh.
      - apply Forall_take, Hfresh. }
    split; [repeat split; assumption|].
    split; [|split; [exact E8|exact E9]].
    intros nm Hnm. rewrite E10; [reflexivity|].
    intros v' Hv' Hn'.
    apply midway_elem in Hv' as (v0 & Hv0 & Hname & ->).
    apply (Hnm v0 Hv0). congruence.
  - assert (i + S k < length vs0) by (eapply lookup_lt_Some, Hv).
    destruct (lookup_lt_is_Some_2 vs0 i ltac:(lia)) as [vi Hvi].
    destruct n as [|n]; [lia|].
    subst hist.
    rewrite (drop_S _ _ _ Hvi) in Hfail, Hfirst. rewrite (drop_S _ _ _ Hvi).
    assert (Hok : failure X (trace w ++ [prepareEv vi]) = None).
    { apply (Hfirst 0). lia. }
    assert (Hr : r = registerFrom X (S n) i w) by reflexivity.
    rewrite (registerFrom_step_ok X n i w vi) in Hr;
      [|rewrite Hvars; apply (midway_lookup _ _ _ Hvi)|exact Hok].
    clearbody r. subst r.
    set (w2 := set_vars _ _).
    rewrite hist_shift in Hfail. rewrite hist_shift.
    destruct (IH n (S i) w2 v e) as
      (Q1 & back & B1 & B2 & B3 & B4 & B5 & B6 & (H1 & H2 & H3) & B8 & B9 & B10).
    + lia.
    + unfold w2. simpl. rewrite Hvars. apply (midway_step _ _ _ Hvi).
    + rewrite <- Hv. f_equal. lia.
    + exact Hfail.
    + intros j Hj. unfold w2. simpl.
      rewrite <- hist_shift. apply Hfirst. lia.
    + simpl in B1, B4, B5, H1, H2, H3.
      split; [exact Q1|]. exists back.
      split; [exact B1|].
      split; [rewrite B2; do 3 f_equal; lia|].
      split; [exact B3|]. split; [exact B4|]. split; [exact B5|]. split; [exact B6|].
      split; [repeat split; assumption|].
      split; [|split; [exact B9|exact B10]].
      intros nm Hnm. rewrite (B8 nm Hnm). unfold w2.
      cbn [store set_vars set_store].
      apply store_write_user_other. intros Heq. apply (Hnm vi); [|exact Heq].
      eapply list_elem_of_lookup_2, Hvi.
Qed.

Lemma registerFrom_ok X vs0 : ∀ n i w,
  i + n = length vs0 →
  vars w = midway vs0 i →
  (∀ j, j < n →
     failure X (trace w ++ (prepareEv <$> take (S j) (drop i vs0))) = None) →
  let r := registerFrom X n i w in
  r.1 = None ∧
  trace r.2 = trace w ++ (prepareEv <$> drop i vs0) ∧
  vars r.2 = set_initialized true <$> vs0 ∧
  sameGlobals w r.2 ∧
  (∀ nm, (∀ v, v ∈ vs0 → name v = nm → register v = false) →
         user (store r.2) !! nm = user (store w) !! nm).
Proof.
  induction n as [|n IH]; intros i w Hlen Hvars Hall r.
  - subst r. cbn [registerFrom ret fst snd].
    rewrite drop_ge, app_nil_r by lia.
    split; [reflexivity|]. split; [reflexivity|].
    split; [rewrite Hvars; unfold midway; rewrite take_ge, drop_ge, app_nil_r by lia;
            reflexivity|].
    split; [repeat split|]. reflexivity.
  - destruct (lookup_lt_is_Some_2 vs0 i ltac:(lia)) as [vi Hvi].
    rewrite (drop_S _ _ _ Hvi) in Hall. rewrite (drop_S _ _ _ Hvi).
    assert (Hok : failure X (trace w ++ [prepareEv vi]) = None).
    { apply (Hall 0). lia. }
    assert (Hr : r = registerFrom X (S n) i w) by reflexivity.
    rewrite (registerFrom_step_ok X n i w vi) in Hr;
      [|rewrite Hvars; apply (midway_lookup _ _ _ Hvi)|exact Hok].
    clearbody r. subst r.
    set (w2 := set_vars _ _).
    destruct (IH (S i) w2) as (Q1 & Q2 & Q3 & (H1 & H2 & H3) & Q5).
    + lia.
    + unfold w2. simpl. rewrite Hvars. apply (midway_step _ _ _ Hvi).
    + intros j Hj. unfold w2. simpl. rewrite <- hist_shift. apply Hall. lia.
    + simpl in Q2, H1, H2, H3.
      split; [exact Q1|].
      split; [rewrite Q2, <- app_assoc; reflexivity|].
      split; [exact Q3|].
      split; [repeat split; assumption|].
      intros nm Hnm. rewrite (Q5 nm Hnm). unfold w2.
      cbn [store set_vars set_store].
      apply store_write_user_other. intros Heq. apply (Hnm vi); [|exact Heq].
      eapply list_elem_of_lookup_2, Hvi.
Qed.

(** Among the first [n] calls either none fails or there is a first one
    that does. *)
Lemma first_failure (f : nat → option string) (n : nat) :
  (∀ j, j < n → f j = None) ∨
  (∃ k e, k < n ∧ f k = Some e ∧ ∀ j, j < k → f j = None).
Proof.
  induction n as [|n [IH|(k & e & Hk & Hf & Hfirst)]].
  - left. intros j Hj. lia.
  - destruct (f n) as [e|] eqn:Hn.
    + right. exists n, e. split; [lia|]. split; [exact Hn|].
      intros j Hj. apply IH, Hj.
    + left. intros j Hj. destruct (decide (j = n)) as [->|]; [exact Hn|].
      apply IH. lia.
  - right. exists k, e. split; [lia|]. split; assumption.
Qed.

Lemma setVarsOn_unfold X vs w :
  setVarsOn X vs w = registerFrom X (length vs) 0 (set_vars vs w).
Proof. reflexivity. Qed.

(** [setVars] returns nil exactly when no call fails, and then it has made
    the calls of the whole table, in order. *)
Lemma setVarsOn_None X vs w :
  Forall (λ v, initialized v = false) vs →
  (setVarsOn X vs w).1 = None →
  (∀ j, j < length vs →
     failure X (trace w ++ (prepareEv <$> take (S j) vs)) = None) ∧
  trace (setVarsOn X vs w).2 = trace w ++ (prepareEv <$> vs) ∧
  vars (setVarsOn X vs w).2 = set_initialized true <$> vs ∧
  sameGlobals w (setVarsOn X vs w).2.
Proof.
  intros Hfresh Hnone. rewrite setVarsOn_unfold in *.
  destruct (first_failure
    (λ j, failure X (trace w ++ (prepareEv <$> take (S j) vs))) (length vs))
    as [Hall|(k & e & Hk & Hf & Hfirst)].
  - split; [exact Hall|].
    destruct (registerFrom_ok X vs (length vs) 0 (set_vars vs w)) as (_ & Q2 & Q3 & Q4 & _);
      [lia|reflexivity|exact Hall|].
    split; [exact Q2|]. split; [exact Q3|exact Q4].
  - destruct (lookup_lt_is_Some_2 vs k Hk) as [v Hv].
    destruct (registerFrom_failed X vs Hfresh k (length vs) 0 (set_vars vs w) v e)
      as (Q1 & _); [lia|reflexivity|exact Hv|exact Hf|exact Hfirst|].
    rewrite Q1 in Hnone. discriminate.
Qed.

(** ** Which events a computation can emit *)

Section Emits.

Context (X : Externals) (P : Event → Prop).

Lemma Emits_ret {A} (a : A) : Emits P (ret a).
Proof. intros w. exists []. rewrite app_nil_r. split; [reflexivity|constructor]. Qed.

Lemma Emits_gets {A} (f : World → A) : Emits P (gets f).
Proof. intros w. exists []. rewrite app_nil_r. split; [reflexivity|constructor]. Qed.

Lemma Emits_modify (f : World → World) :
  (∀ w, trace (f w) = trace w) → Emits P (modify f).
Proof.
  intros Hf w. exists []. rewrite app_nil_r. split; [apply Hf|constructor].
Qed.

Lemma Emits_emit e : P e → Emits P (emit e).
Proof. intros He w. exists [e]. split; [reflexivity|repeat constructor; exact He]. Qed.

Lemma Emits_call e : P e → Emits P (call X e).
Proof. intros He w. exists [e]. split; [reflexivity|repeat constructor; exact He]. Qed.

Lemma Emits_bind {A B} (c : M A) (k : A → M B) :
  Emits P c → (∀ a, Emits P (k a)) → Emits P (bind c k).
Proof.
  intros Hc Hk w. rewrite bind_run.
  destruct (Hc w) as (evs1 & E1 & F1).
  destruct (Hk (c w).1 (c w).2) as (evs2 & E2 & F2).
  exists (evs1 ++ evs2). rewrite E2, E1, app_assoc.
  split; [reflexivity|apply Forall_app; split; assumption].
Qed.

Lemma Quiet_Emits {A} (c : M A) : Quiet P c → Emits P c.
Proof. intros H w. destruct (H w) as (evs & E & F & _). exists evs. split; assumption. Qed.

Lemma Quiet_ret {A} (a : A) : Quiet P (ret a).
Proof. intros w. exists []. rewrite app_nil_r. repeat split. constructor. Qed.

Lemma Quiet_modify (f : World → World) :
  (∀ w, trace (f w) = trace w ∧ vars (f w) = vars w ∧ store (f w) = store w) →
  Quiet P (modify f).
Proof.
  intros Hf w. exists []. rewrite app_nil_r. destruct (Hf w) as (? & ? & ?).
  split; [assumption|]. split; [constructor|]. split; assumption.
Qed.

Lemma Quiet_emit e : P e → Quiet P (emit e).
Proof. intros He w. exists [e]. repeat split. repeat constructor; exact He. Qed.

Lemma Quiet_call e : P e → Quiet P (call X e).
Proof. intros He w. exists [e]. repeat split. repeat constructor; exact He. Qed.

Lemma Quiet_bind {A B} (c : M A) (k : A → M B) :
  Quiet P c → (∀ a, Quiet P (k a)) → Quiet P (bind c k).
Proof.
  intros Hc Hk w. rewrite bind_run.
  destruct (Hc w) as (evs1 & E1 & F1 & V1 & S1).
  destruct (Hk (c w).1 (c w).2) as (evs2 & E2 & F2 & V2 & S2).
  exists (evs1 ++ evs2). rewrite E2, E1, app_assoc, V2, S2.
  split; [reflexivity|]. split; [apply Forall_app; split; assumption|].
  split; assumption.
Qed.

End Emits.

Lemma Emits_weaken {A} (P Q : Event → Prop) (c : M A) :
  (∀ e, P e → Q e) → Emits P c → Emits Q c.
Proof.
  intros HPQ Hc w. destruct (Hc w) as (evs & E & F).
  exists evs. split; [exact E|]. eapply Forall_impl; eassumption.
Qed.

Ltac quiet_step :=
  lazymatch goal with
  | |- Quiet _ (bind _ _) => apply Quiet_bind; [|intros ?]
  | |- Quiet _ (ret _) => apply Quiet_ret
  | |- Quiet _ (emit _) => apply Quiet_emit; exact I
  | |- Quiet _ (call ?X _) => apply (Quiet_call X); exact I
  | |- Quiet _ (modify _) => apply Quiet_modify; intros ?; repeat split
  | |- Quiet _ (match ?x with _ => _ end) => destruct x
  end.

Lemma onSession_Quiet e : Quiet isTray (onSession e).
Proof.
  destruct e; cbn [onSession];
    unfold gpgAgent_SessionLock, gpgAgent_SessionUnlock; repeat quiet_step.
Qed.

Lemma deliver_Quiet es : Quiet isTray (deliver es).
Proof.
  induction es as [|e es IH]; cbn [deliver].
  - apply Quiet_ret.
  - apply Quiet_bind; [apply onSession_Quiet|intros _; exact IH].
Qed.

Lemma systray_Run_Quiet X : Quiet isTray (systray_Run X).
Proof.
  unfold systray_Run, onReady, onExit, log_Print, gpgAgent_Stop.
  repeat first [apply deliver_Quiet | quiet_step].
Qed.

(** ** Start-up: the Serve calls of [run] *)

Ltac emits_step :=
  lazymatch goal with
  | |- Emits _ (bind _ _) => apply Emits_bind; [|intros ?]
  | |- Emits _ (ret _) => apply Emits_ret
  | |- Emits _ (gets _) => apply Emits_gets
  | |- Emits _ (emit _) => apply Emits_emit; first [reflexivity | exact I]
  | |- Emits _ (call ?X _) => apply (Emits_call X); first [reflexivity | exact I]
  | |- Emits _ (modify _) => apply Emits_modify; intros ?; reflexivity
  | |- Emits _ (match ?x with _ => _ end) => destruct x
  | |- Emits _ (if ?x then _ else _) => destruct x
  end.

Lemma cleanerFrom_noServe X n : Emits noServe (cleanerFrom X n).
Proof.
  induction n as [|i IH]; cbn [cleanerFrom]; [apply Emits_ret|].
  apply Emits_bind; [|intros _; exact IH].
  unfold cleanAt, CleanUserEnvironmentVariable, log_Print. repeat emits_step.
Qed.

Lemma cleaner_noServe X : Emits noServe (cleaner X).
Proof.
  unfold cleaner. apply Emits_bind; [apply Emits_gets|intros vs].
  apply cleanerFrom_noServe.
Qed.

Lemma registerFrom_noServe X n : ∀ i, Emits noServe (registerFrom X n i).
Proof.
  induction n as [|n IH]; intros i; cbn [registerFrom]; [apply Emits_ret|].
  unfold PrepareUserEnvironmentVariable.
  repeat first [apply cleaner_noServe | apply IH | emits_step].
Qed.

Lemma runDeferred_noServe X ds : Emits noServe (runDeferred X ds).
Proof.
  induction ds as [|d ds IH]; cbn [runDeferred]; [apply Emits_ret|].
  apply Emits_bind; [|intros _; exact IH].
  destruct d; cbn [runDeferred1]; [apply Emits_emit; reflexivity|apply cleaner_noServe].
Qed.

Lemma return_noServe {A} X ds (r : A) : Emits noServe (return_ X ds r).
Proof.
  unfold return_. apply Emits_bind; [apply runDeferred_noServe|intros _; apply Emits_ret].
Qed.

Lemma systray_Run_noServe X : Emits noServe (systray_Run X).
Proof.
  eapply Emits_weaken; [|apply Quiet_Emits, systray_Run_Quiet].
  intros [] H; try destruct H; reflexivity.
Qed.


Lemma afterServing_noServe X cfg ds : Emits noServe (afterServing X cfg ds).
Proof.
  unfold afterServing, startAndRun, setEnvStep, setVars, setVarsOn, gpgAgent_Start.
  repeat first
    [ apply return_noServe | apply systray_Run_noServe | apply registerFrom_noServe
    | emits_step ].
Qed.

Lemma serveCalls_noServe evs : Forall noServe evs → serveCalls evs = [].
Proof.
  induction 1 as [|e evs He _ IH]; [reflexivity|].
  unfold serveCalls in *. cbn [omap list_omap]. rewrite He. exact IH.
Qed.

Lemma serveCalls_split_nil pre k post :
  serveCalls (pre ++ EvServe k :: post) ≠ [].
Proof.
  unfold serveCalls. rewrite omap_app. cbn [omap list_omap serveCall].
  destruct (omap serveCall pre); discriminate.
Qed.

Lemma ServesIn_done X (c : M (option string)) :
  Emits noServe c → ServesIn X [] c.
Proof.
  intros Hc w. destruct (Hc w) as (evs & E & F).
  pose proof (serveCalls_noServe evs F) as Hs.
  exists evs. split; [exact E|]. rewrite Hs.
  split; [reflexivity|]. split; [|reflexivity].
  intros pre k post e -> _. destruct (serveCalls_split_nil _ _ _ Hs).
Qed.

Lemma serveStep_failed X k ds rest w e :
  failure X (trace w ++ [EvServe k]) = Some e →
  serveStep X k ds rest w = return_ X ds (Some e) (set_trace (trace w ++ [EvServe k]) w).
Proof.
  intros Hf. unfold serveStep, gpgAgent_Serve, bind at 1, call. rewrite Hf. reflexivity.
Qed.

Lemma serveStep_ok X k ds rest w :
  failure X (trace w ++ [EvServe k]) = None →
  serveStep X k ds rest w = rest (DeferClose k :: ds) (set_trace (trace w ++ [EvServe k]) w).
Proof.
  intros Hf. unfold serveStep, gpgAgent_Serve, bind at 1, call. rewrite Hf. reflexivity.
Qed.

Lemma return_fst {A} X ds (r : A) w : (return_ X ds r w).1 = r.
Proof. unfold return_. rewrite bind_run. reflexivity. Qed.

Lemma return_snd {A} X ds (r : A) w : (return_ X ds r w).2 = (runDeferred X ds w).2.
Proof. unfold return_. rewrite bind_run. reflexivity. Qed.

Lemma ServesIn_step X k ks ds rest :
  (∀ ds', ServesIn X ks (rest ds')) →
  ServesIn X (k :: ks) (serveStep X k ds rest).
Proof.
  intros Hrest w.
  destruct (failure X (trace w ++ [EvServe k])) as [e|] eqn:Hf.
  - rewrite (serveStep_failed X k ds rest w e Hf).
    destruct (return_noServe X ds (Some e) (set_trace (trace w ++ [EvServe k]) w))
      as (evs & E & F).
    pose proof (serveCalls_noServe evs F) as Hs.
    exists (EvServe k :: evs). cbn [trace set_trace] in E.
    split; [rewrite E, <- app_assoc; reflexivity|].
    change (serveCalls (EvServe k :: evs)) with (k :: serveCalls evs). rewrite Hs.
    split; [exists ks; reflexivity|]. split.
    + intros pre k' post e' Heq Hf'.
      apply cons_split in Heq as [(-> & Hk & <-)|(pre' & -> & ->)].
      * inversion Hk; subst k'. cbn [app] in Hf'. rewrite Hf in Hf'.
        inversion Hf'; subst e'. rewrite return_fst. split; [reflexivity|exact Hs].
      * destruct (serveCalls_split_nil _ _ _ Hs).
    + intros Hnone. specialize (Hnone [] k evs eq_refl). cbn [app] in Hnone. congruence.
  - rewrite (serveStep_ok X k ds rest w Hf).
    destruct (Hrest (DeferClose k :: ds) (set_trace (trace w ++ [EvServe k]) w))
      as (evs & E & Hpre & Hfail & Hall).
    exists (EvServe k :: evs). cbn [trace set_trace] in E, Hfail, Hall.
    split; [rewrite E, <- app_assoc; reflexivity|].
    change (serveCalls (EvServe k :: evs)) with (k :: serveCalls evs).
    split; [apply prefix_cons, Hpre|]. split.
    + intros pre k' post e' Heq Hf'.
      apply cons_split in Heq as [(-> & Hk & <-)|(pre' & -> & ->)].
      * inversion Hk; subst k'. cbn [app] in Hf'. congruence.
      * apply (Hfail pre' k' post e' eq_refl).
        rewrite <- Hf'. f_equal. rewrite <- !app_assoc. reflexivity.
    + intros Hnone. f_equal. apply Hall. intros pre k' post ->.
      specialize (Hnone (EvServe k :: pre) k' post eq_refl).
      rewrite <- Hnone. f_equal. rewrite <- !app_assoc. reflexivity.
Qed.

Lemma run_unfold X cfg :
  run X cfg =
    serveStep X ConnectorSockAgentCygwinSSH [] (λ ds,
    serveStep X ConnectorPipeSSH ds (λ ds,
    serveStep X ConnectorSockAgentSSH ds (λ ds,
    extraPortStep X cfg ds (λ ds,
    serveStep X ConnectorSockAgent ds (λ ds,
    serveStep X ConnectorSockAgentExtra ds (afterServing X cfg)))))).
Proof. reflexivity. Qed.

Lemma run_ServesIn X cfg : ServesIn X (configured cfg) (run X cfg).
Proof.
  rewrite run_unfold. unfold configured, extraPortStep.
  do 3 (apply ServesIn_step; intros ?). cbn [app].
  destruct (decide (GUI_ExtraPort cfg ≠ 0%Z)); cbn [app];
    repeat (apply ServesIn_step; intros ?);
    apply ServesIn_done, afterServing_noServe.
Qed.

(** ** Tear-down: the deferred calls of [run] *)

Lemma runDeferred_closes X ks : ∀ w,
  let w1 := (runDeferred X (DeferClose <$> ks) w).2 in
  trace w1 = trace w ++ (EvClose <$> ks) ∧ vars w1 = vars w ∧ store w1 = store w.
Proof.
  induction ks as [|k ks IH]; intros w w1; subst w1.
  - cbn. rewrite app_nil_r. repeat split.
  - rewrite fmap_cons. cbn [runDeferred runDeferred1]. rewrite bind_run.
    destruct (IH (gpgAgent_Close k w).2) as (E & V & St).
    rewrite E, V, St. cbn. rewrite <- app_assoc. repeat split.
Qed.

Lemma varsTable_fresh X cfg native :
  Forall (λ v, initialized v = false) (varsTable X cfg native).
Proof. destruct native; repeat constructor. Qed.

Lemma startAndRun_success X ds w :
  (startAndRun X ds w).1 = None →
  ∃ w3 tray,
    (startAndRun X ds w).2 = (runDeferred X ds w3).2 ∧
    trace w3 = trace w ++ EvStart :: tray ∧ Forall isTray tray ∧
    vars w3 = vars w ∧ store w3 = store w.
Proof.
  unfold startAndRun, gpgAgent_Start. rewrite !bind_run.
  unfold call. cbn [fst snd].
  destruct (failure X (trace w ++ [EvStart])) as [e|]; [rewrite return_fst; discriminate|].
  intros _. rewrite bind_run. cbv beta. rewrite return_snd.
  destruct (systray_Run_Quiet X (set_trace (trace w ++ [EvStart]) w))
    as (tray & E & F & V & St).
  eexists _, tray. split; [reflexivity|].
  rewrite E, V, St. cbn. rewrite <- app_assoc. repeat split. exact F.
Qed.

Lemma isTray_isUp e : isTray e → isUp e.
Proof. destruct e; intros []; repeat split. Qed.

Lemma prepareCalls_tray tray : Forall isTray tray → prepareCalls tray = [].
Proof.
  induction 1 as [|e evs He _ IH]; [reflexivity|].
  destruct e; try destruct He; exact IH.
Qed.

Lemma prepareCalls_table (vs : list EnvVar) :
  prepareCalls (prepareEv <$> vs) = written <$> vs.
Proof.
  induction vs as [|v vs IH]; [reflexivity|].
  rewrite !fmap_cons, <- IH. reflexivity.
Qed.

Lemma Unwinds_afterServing X cfg : Unwinds X cfg [] (afterServing X cfg).
Proof.
  intros done w Hnone. unfold afterServing, setEnvStep, revocationOf, publicationOf in *.
  cbn [fmap list_fmap reverse app]. change (reverse [] ++ done) with done.
  destruct (GUI_SetEnv cfg).
  - fold (nativeSSH cfg) in *. rewrite bind_run in *.
    set (table := varsTable X cfg (nativeSSH cfg)) in *.
    unfold setVars in *. fold table in Hnone |- *.
    destruct (setVarsOn X table w).1 as [e|] eqn:Hset;
      [rewrite return_fst in Hnone; discriminate|].
    destruct (setVarsOn_None X table w (varsTable_fresh _ _ _) Hset)
      as (_ & T1 & V1 & _).
    set (w1 := (setVarsOn X table w).2) in *.
    destruct (startAndRun_success X _ w1 Hnone) as (w3 & tray & -> & T3 & F3 & V3 & _).
    cbn [runDeferred runDeferred1]. rewrite bind_run.
    destruct (cleaner_spec X w3) as (rev & C1 & C2 & C3 & _).
    destruct (runDeferred_closes X done (cleaner X w3).2) as (T5 & _).
    exists ((prepareEv <$> table) ++ EvStart :: tray), rev.
    split; [rewrite T5, C1, T3, T1, <- !app_assoc; reflexivity|].
    split.
    { apply Forall_app. split.
      - apply Forall_fmap, Forall_true. intros v. repeat split.
      - constructor; [repeat split|]. eapply Forall_impl; [exact F3|apply isTray_isUp]. }
    split.
    { unfold prepareCalls. rewrite omap_app. fold (prepareCalls (prepareEv <$> table)).
      rewrite prepareCalls_table. cbn [omap list_omap prepareCall].
      fold (prepareCalls tray). rewrite (prepareCalls_tray _ F3), app_nil_r. reflexivity. }
    split; [exact C3|].
    rewrite C2, V3, V1, applied_registered, <- fmap_reverse, key_registered, fmap_reverse.
    reflexivity.
  - destruct (startAndRun_success X _ w Hnone) as (w3 & tray & -> & T3 & F3 & _).
    destruct (runDeferred_closes X done w3) as (T5 & _).
    exists (EvStart :: tray), [].
    split; [rewrite T5, T3, <- !app_assoc; reflexivity|].
    split; [constructor; [repeat split|]; eapply Forall_impl; [exact F3|apply isTray_isUp]|].
    split; [exact (prepareCalls_tray _ F3)|].
    split; [constructor|reflexivity].
Qed.

Lemma Unwinds_step X cfg k todo rest :
  Unwinds X cfg todo rest →
  Unwinds X cfg (k :: todo) (λ ds, serveStep X k ds rest).
Proof.
  intros Hrest done w Hnone. cbv beta in *.
  destruct (failure X (trace w ++ [EvServe k])) as [e|] eqn:Hf.
  - rewrite (serveStep_failed X k _ rest w e Hf), return_fst in Hnone. discriminate.
  - rewrite (serveStep_ok X k _ rest w Hf) in *.
    change (DeferClose k :: (DeferClose <$> done)) with (DeferClose <$> k :: done) in *.
    destruct (Hrest (k :: done) _ Hnone) as (mid & rev & T & F1 & P1 & F2 & C).
    exists mid, rev. split; [|repeat split; assumption].
    rewrite T. cbn [trace set_trace]. rewrite reverse_cons, <- !app_assoc. reflexivity.
Qed.

Lemma Unwinds_body X cfg :
  Unwinds X cfg (configured cfg) (λ ds,
    serveStep X ConnectorSockAgentCygwinSSH ds (λ ds,
    serveStep X ConnectorPipeSSH ds (λ ds,
    serveStep X ConnectorSockAgentSSH ds (λ ds,
    extraPortStep X cfg ds (λ ds,
    serveStep X ConnectorSockAgent ds (λ ds,
    serveStep X ConnectorSockAgentExtra ds (afterServing X cfg))))))).
Proof.
  unfold configured, extraPortStep. cbn [app].
  do 3 apply (Unwinds_step X cfg _ _ (λ ds, _)).
  destruct (decide (GUI_ExtraPort cfg ≠ 0%Z)); cbn [app].
  - do 2 apply (Unwinds_step X cfg _ _ (λ ds, _)).
    apply Unwinds_step, Unwinds_afterServing.
  - apply (Unwinds_step X cfg _ _ (λ ds, _)).
    apply Unwinds_step, Unwinds_afterServing.
Qed.

(** ** The environment transaction *)

Lemma not_observable v s :
  process s !! name v = None → (register v = true → user s !! name v = None) →
  ¬ observable v s.
Proof.
  intros Hp Hu [Hs|[Hr Hs]].
  - rewrite Hp in Hs. destruct Hs; discriminate.
  - rewrite (Hu Hr) in Hs. destruct Hs; discriminate.
Qed.

Lemma revocation_no_prepare evs :
  Forall (λ e, isRevocation e = true) evs → prepareCalls evs = [].
Proof.
  induction 1 as [|e evs He _ IH]; [reflexivity|].
  destruct e; try discriminate; exact IH.
Qed.

Lemma observable_None v s :
  ¬ observable v s →
  process s !! name v = None ∧ (register v = true → user s !! name v = None).
Proof.
  unfold observable. intros H. split.
  - apply eq_None_not_Some. intros Hs. apply H. left. exact Hs.
  - intros Hr. apply eq_None_not_Some. intros Hs. apply H. right. split; assumption.
Qed.

Lemma written_process X (l : list EnvVar) : ∀ s nm,
  process s !! nm = None → nm ∉ name <$> l →
  process (foldl (writeEntry X) s l) !! nm = None.
Proof.
  induction l as [|v l IH]; intros s nm Hs Hnm; [exact Hs|].
  rewrite fmap_cons, not_elem_of_cons in Hnm. destruct Hnm as [Hne Hnm].
  cbn [foldl]. apply IH; [|exact Hnm].
  unfold writeEntry, store_write. cbn [process].
  rewrite lookup_insert_ne by congruence. exact Hs.
Qed.

Lemma written_user X (l : list EnvVar) : ∀ s nm,
  user s !! nm = None → (nm, true) ∉ key <$> l →
  user (foldl (writeEntry X) s l) !! nm = None.
Proof.
  induction l as [|v l IH]; intros s nm Hs Hnm; [exact Hs|].
  rewrite fmap_cons, not_elem_of_cons in Hnm. destruct Hnm as [Hne Hnm].
  cbn [foldl]. apply IH; [|exact Hnm].
  rewrite <- Hs. apply store_write_user_other.
  intros Heq. destruct (register v) eqn:Hr; [|reflexivity].
  destruct Hne. unfold key. rewrite Heq, Hr. reflexivity.
Qed.

(** A removal among the removal calls of a run of events is one of its
    events. *)
Lemma cleanCalls_split evs n r :
  (n, r) ∈ cleanCalls evs → ∃ pre post, evs = pre ++ EvCleanEnv n r :: post.
Proof.
  intros Hin. apply list_elem_of_omap in Hin as (e & He & Hc).
  destruct e; try discriminate. cbn in Hc. inversion Hc; subst.
  apply list_elem_of_split in He. exact He.
Qed.

(** C1 (amended).  When the write of entry [k] is the first to fail,
    [setVars] returns the single error that names this entry, the calls it
    made are the writes of entries 0..k followed by the removals of entries
    k-1..0 in that order, every failed removal is logged, and every flag is
    false afterwards.  An entry whose removal call succeeded is not
    observable in the store; and when no entry of the list was observable
    before and every removal of the rollback succeeds, no entry of the
    list is observable afterwards. *)
Theorem setVars_failure_rolls_back X (vs : list EnvVar) (w : World) k v e :
  Forall (λ v, initialized v = false) vs →
  vs !! k = Some v →
  failure X (trace w ++ (prepareEv <$> take (S k) vs)) = Some e →
  (∀ j, j < k → failure X (trace w ++ (prepareEv <$> take (S j) vs)) = None) →
  let r := setVarsOn X vs w in
  let hist := trace w ++ (prepareEv <$> take (S k) vs) in
  r.1 = Some ("unable to add " +:+ name v +:+ " to user environment: " +:+ e) ∧
  ∃ back,
    trace r.2 = hist ++ back ∧
    cleanCalls back = key <$> reverse (take k vs) ∧
    prepareCalls back = [] ∧
    failuresLogged X hist back ∧
    Forall (λ v, initialized v = false) (vars r.2) ∧
    (∀ u pre post,
       back = pre ++ cleanEv u :: post →
       failure X (hist ++ pre ++ [cleanEv u]) = None →
       ¬ observable u (store r.2)) ∧
    ((∀ u, u ∈ vs → ¬ observable u (store w)) →
     (∀ u pre post,
        back = pre ++ cleanEv u :: post →
        failure X (hist ++ pre ++ [cleanEv u]) = None) →
     ∀ u, u ∈ vs → ¬ observable u (store r.2)).
Proof.
  intros Hfresh Hv Hfail Hfirst r hist.
  destruct (registerFrom_failed X vs Hfresh k (length vs) 0 (set_vars vs w) v e)
    as (Q1 & back & B1 & B2 & B3 & B4 & B5 & B6 & _ & _ & B9 & B10);
    [eapply lookup_lt_Some in Hv; lia|reflexivity|exact Hv|exact Hfail|exact Hfirst|].
  cbn [Nat.add drop store set_vars] in B2, B9, B10.
  split; [exact Q1|]. exists back.
  split; [exact B1|]. split; [exact B2|].
  split; [apply revocation_no_prepare, B3|]. split; [exact B4|].
  split; [unfold r; rewrite setVarsOn_unfold, B6; exact Hfresh|].
  split.
  { intros u pre post Hback Hok.
    destruct (B5 pre (name u) (register u) post Hback Hok) as [Hp Hu].
    apply not_observable; assumption. }
  intros Hbefore Hall u Hu.
  destruct (observable_None _ _ (Hbefore u Hu)) as [Hp0 Hu0].
  assert (Hremoved : ∀ u', u' ∈ take k vs →
            process (store r.2) !! name u' = None ∧
            (register u' = true → user (store r.2) !! name u' = None)).
  { intros u' Hin.
    assert (Hc : key u' ∈ cleanCalls back).
    { rewrite B2. apply list_elem_of_fmap_2. rewrite elem_of_reverse. exact Hin. }
    apply cleanCalls_split in Hc as (pre & post & Hback).
    apply (B5 pre (name u') (register u') post Hback), (Hall u' pre post Hback). }
  apply not_observable.
  - destruct (decide (name u ∈ name <$> take k vs)) as [Hin|Hout].
    + apply list_elem_of_fmap in Hin as (u' & -> & Hin). apply (Hremoved u' Hin).
    + apply B9, written_process; assumption.
  - intros Hr.
    destruct (decide ((name u, true) ∈ key <$> take k vs)) as [Hin|Hout].
    + apply list_elem_of_fmap in Hin as (u' & Heq & Hin).
      inversion Heq as [[Hn Hr']]. rewrite Hn.
      apply (Hremoved u' Hin). congruence.
    + apply B10, written_user; [apply Hu0, Hr|exact Hout].
Qed.

Lemma setVars_failure_rolls_back_witness :
  (setVarsOn X_forcedC scenarioB w0).1
  = Some "unable to add C to user environment: forced".
Proof.
  refine (proj1 (setVars_failure_rolls_back X_forcedC scenarioB w0 2
                   (entry "C" "valC" true) "forced" _ _ _ _)).
  - repeat constructor.
  - reflexivity.
  - reflexivity.
  - intros j Hj. destruct j as [|[|j]]; [reflexivity|reflexivity|lia].
Defined.

(** C1 as stated fails: with the write of C forced to fail and the removal
    of A failing too, the error names C and A is still observable. *)
Lemma setVars_rollback_leaves_stuck_entry :
  let r := setVarsOn X_stuckA scenarioB w0 in
  r.1 = Some "unable to add C to user environment: forced" ∧
  ¬ (∀ v, v ∈ scenarioB → ¬ observable v (store r.2)).
Proof.
  split; [vm_compute; reflexivity|].
  intros H. apply (H (entry "A" "valA" true)).
  - apply list_elem_of_here.
  - left. exists "valA". vm_compute. reflexivity.
Qed.

(** A binding older than the Apply is not touched by a rollback that
    never reached it: with C bound beforehand and the write of C forced to
    fail, C is observable afterwards although every removal succeeded. *)
Example setVars_rollback_keeps_older_binding :
  let w := set_store (store_write "C" "old" false noStore) w0 in
  let r := setVarsOn X_forcedC scenarioB w in
  r.1 = Some "unable to add C to user environment: forced" ∧
  observable (entry "C" "valC" true) (store r.2).
Proof.
  split; [vm_compute; reflexivity|].
  left. exists "old". vm_compute. reflexivity.
Qed.

(** C2.  [cleaner] calls the removal of every applied entry, in reverse
    order of declaration, whatever removals fail, and makes no other call
    but log lines; each failed removal is followed by its log line; an
    entry whose removal succeeded is not observable in the store;
    afterwards every flag is false, and a second call returns at once: no
    event, the same world. *)
Theorem cleaner_revokes_in_reverse X (w : World) :
  let w1 := (cleaner X w).2 in
  ∃ evs,
    trace w1 = trace w ++ evs ∧
    cleanCalls evs = key <$> reverse (applied (vars w)) ∧
    Forall (λ e, isRevocation e = true) evs ∧
    failuresLogged X (trace w) evs ∧
    (∀ u pre post,
       evs = pre ++ cleanEv u :: post →
       failure X (trace w ++ pre ++ [cleanEv u]) = None →
       ¬ observable u (store w1)) ∧
    Forall (λ v, initialized v = false) (vars w1) ∧
    cleaner X w1 = (tt, w1).
Proof.
  intros w1.
  destruct (cleaner_spec X w) as (evs & E1 & E2 & E3 & E4 & E5 & E6 & _).
  assert (Hoff : Forall (λ v, initialized v = false) (vars w1)).
  { unfold w1. rewrite E6. apply Forall_set_initialized_false. }
  exists evs. do 4 (split; [assumption|]).
  split; [|split; [exact Hoff|apply cleaner_noop, Hoff]].
  intros u pre post Hevs Hok.
  destruct (E5 pre (name u) (register u) post Hevs Hok) as [Hp Hu].
  apply not_observable; assumption.
Qed.

(** ** Start-up and tear-down of [run] *)

Lemma serveCalls_app evs1 evs2 :
  serveCalls (evs1 ++ evs2) = serveCalls evs1 ++ serveCalls evs2.
Proof. apply omap_app. Qed.

Lemma closeCalls_app evs1 evs2 :
  closeCalls (evs1 ++ evs2) = closeCalls evs1 ++ closeCalls evs2.
Proof. apply omap_app. Qed.

Lemma serveCalls_serves ks : serveCalls (EvServe <$> ks) = ks.
Proof. induction ks as [|k ks IH]; [reflexivity|]. cbn. f_equal. exact IH. Qed.

Lemma closeCalls_closes ks : closeCalls (EvClose <$> ks) = ks.
Proof. induction ks as [|k ks IH]; [reflexivity|]. cbn. f_equal. exact IH. Qed.

Lemma serveCalls_closes ks : serveCalls (EvClose <$> ks) = [].
Proof. induction ks as [|k ks IH]; [reflexivity|exact IH]. Qed.

Lemma closeCalls_serves ks : closeCalls (EvServe <$> ks) = [].
Proof. induction ks as [|k ks IH]; [reflexivity|exact IH]. Qed.

Lemma isUp_calls mid : Forall isUp mid → serveCalls mid = [] ∧ closeCalls mid = [].
Proof.
  induction 1 as [|e mid (Hs & Hc & _) _ [IHs IHc]]; [split; reflexivity|].
  unfold serveCalls, closeCalls in *. cbn [omap list_omap].
  rewrite Hs, Hc. split; assumption.
Qed.

Lemma revocation_calls rev :
  Forall (λ e, isRevocation e = true) rev → serveCalls rev = [] ∧ closeCalls rev = [].
Proof.
  induction 1 as [|e rev He _ IH]; [split; reflexivity|].
  destruct e; try discriminate; exact IH.
Qed.

(** C3 (amended).  A run that was entered with [clipCancel] set, started
    up and ended without error has served the configured connectors in
    order, then stayed up, then revoked the published environment (the
    whole table in reverse, when publication is enabled), and only then
    closed every connector: the Close calls are the Serve calls in exact
    reverse order. *)
Theorem run_revokes_then_closes_in_reverse X cfg (w : World) :
  clipCancelSet w →
  (run X cfg w).1 = None →
  ∃ evs mid rev,
    trace (run X cfg w).2 = trace w ++ evs ∧
    evs = (EvServe <$> configured cfg) ++ mid ++ rev
            ++ (EvClose <$> reverse (configured cfg)) ∧
    Forall isUp mid ∧
    Forall (λ e, isRevocation e = true) rev ∧
    cleanCalls rev = revocationOf X cfg ∧
    serveCalls evs = configured cfg ∧
    closeCalls evs = reverse (serveCalls evs).
Proof.
  intros _ Hnone.
  destruct (Unwinds_body X cfg [] w Hnone) as (mid & rev & T & F1 & _ & F2 & C).
  rewrite app_nil_r in T.
  destruct (isUp_calls mid F1) as [Sm Cm].
  destruct (revocation_calls rev F2) as [Sr Cr].
  eexists _, mid, rev. split; [exact T|]. split; [reflexivity|].
  split; [exact F1|]. split; [exact F2|]. split; [exact C|].
  assert (Hs : serveCalls ((EvServe <$> configured cfg) ++ mid ++ rev
                 ++ (EvClose <$> reverse (configured cfg))) = configured cfg).
  { rewrite !serveCalls_app, serveCalls_serves, Sm, Sr, serveCalls_closes, !app_nil_r.
    reflexivity. }
  split; [exact Hs|]. rewrite Hs.
  rewrite !closeCalls_app, closeCalls_serves, Cm, Cr, closeCalls_closes. reflexivity.
Qed.

Lemma run_revokes_then_closes_in_reverse_witness :
  ∃ evs mid rev,
    trace (run X_ok cfg_env (clipServe X_ok cfg_env w0).2).2
    = trace (clipServe X_ok cfg_env w0).2 ++ evs ∧
    evs = (EvServe <$> configured cfg_env) ++ mid ++ rev
            ++ (EvClose <$> reverse (configured cfg_env)) ∧
    Forall isUp mid ∧
    Forall (λ e, isRevocation e = true) rev ∧
    cleanCalls rev = revocationOf X_ok cfg_env ∧
    serveCalls evs = configured cfg_env ∧
    closeCalls evs = reverse (serveCalls evs).
Proof.
  apply (run_revokes_then_closes_in_reverse X_ok cfg_env (clipServe X_ok cfg_env w0).2).
  - discriminate.
  - vm_compute. reflexivity.
Defined.

(** C3 as stated fails: in a run that [clipServe] has prepared and that
    meets no error the revocation is not after the closing of the
    connectors; the removal of WIN_AGENT_HOME, the first one, precedes
    the Close of ConnectorSockAgentExtra, the first one. *)
Lemma run_revokes_before_closing :
  clipCancelSet (clipServe X_ok cfg_env w0).2 ∧
  (run X_ok cfg_env (clipServe X_ok cfg_env w0).2).1 = None ∧
  ¬ (∀ i j n r k,
       trace (run X_ok cfg_env (clipServe X_ok cfg_env w0).2).2 !! i = Some (EvCleanEnv n r) →
       trace (run X_ok cfg_env (clipServe X_ok cfg_env w0).2).2 !! j = Some (EvClose k) →
       j < i).
Proof.
  split; [discriminate|].
  split; [vm_compute; reflexivity|].
  intros H.
  assert (Hlt : 22 < 17); [|lia].
  apply (H 17 22 "WIN_AGENT_HOME" true ConnectorSockAgentExtra);
    vm_compute; reflexivity.
Qed.

(** C4.  [run] serves the connectors in the configured order, the extra
    TCP port only when it is nonzero; a Serve that fails ends [run] with
    that error and no connector is served after it; when no Serve fails
    every configured connector is served. *)
Theorem run_serves_in_configured_order X cfg (w : World) :
  (ConnectorExtraPort ∈ configured cfg ↔ GUI_ExtraPort cfg ≠ 0%Z) ∧
  ∃ evs,
    trace (run X cfg w).2 = trace w ++ evs ∧
    serveCalls evs `prefix_of` configured cfg ∧
    (∀ pre k post e,
       evs = pre ++ EvServe k :: post →
       failure X (trace w ++ pre ++ [EvServe k]) = Some e →
       (run X cfg w).1 = Some e ∧ serveCalls post = []) ∧
    ((∀ pre k post,
       evs = pre ++ EvServe k :: post →
       failure X (trace w ++ pre ++ [EvServe k]) = None) →
     serveCalls evs = configured cfg).
Proof.
  split; [|exact (run_ServesIn X cfg w)].
  unfold configured. destruct (decide (GUI_ExtraPort cfg ≠ 0%Z)) as [Hp|Hp]; cbn.
  - split; [intros _; exact Hp|]. intros _. rewrite !elem_of_cons. auto.
  - split; [|intros Hq; destruct (Hp Hq)].
    rewrite !elem_of_cons, elem_of_nil. intros H.
    repeat destruct H as [H|H]; try discriminate; destruct H.
Qed.

(** ** The published table *)

Lemma bothBool_spec p : bothBool p = true → ∀ b, p b = true.
Proof.
  unfold bothBool. intros H b. apply andb_prop in H as [Ht Hf].
  destruct b; assumption.
Qed.

Lemma everyByte_spec p : everyByte p = true → ∀ c, p c = true.
Proof.
  unfold everyByte. intros H [b0 b1 b2 b3 b4 b5 b6 b7].
  do 8 (eapply bothBool_spec in H). exact H.
Qed.

Lemma foldTable_ok : foldTable = true.
Proof. vm_compute. reflexivity. Qed.

Lemma foldMatches_lower a b :
  GoStrings.isLowerLetter b = true →
  foldMatches a b = Ascii.eqb (GoStrings.lowerByte a) b.
Proof.
  intros Hb. pose proof (everyByte_spec _ foldTable_ok b) as H.
  cbv beta in H. rewrite Hb in H.
  apply Bool.eqb_prop, (everyByte_spec _ H a).
Qed.

Lemma EqualFold_cons a s b t :
  GoStrings.EqualFold (String a s) (String b t)
  = foldMatches a b && GoStrings.EqualFold s t.
Proof.
  cbn [GoStrings.EqualFold]. unfold foldMatches.
  destruct (_ <=? _)%N; [reflexivity|].
  destruct (GoStrings.equalFoldByte _ _); reflexivity.
Qed.

(** Against a word of lower-case ASCII letters, EqualFold holds exactly of
    the strings whose lower-casing is that word. *)
Lemma EqualFold_lower t : ∀ s,
  GoStrings.allLowerLetters t = true →
  (GoStrings.EqualFold s t = true ↔ GoStrings.ToLowerASCII s = t).
Proof.
  induction t as [|b t IH]; intros [|a s] Ht.
  - split; reflexivity.
  - split; discriminate.
  - split; discriminate.
  - cbn [GoStrings.allLowerLetters] in Ht. apply andb_prop in Ht as [Hb Ht].
    rewrite EqualFold_cons, (foldMatches_lower a b Hb), andb_true_iff.
    cbn [GoStrings.ToLowerASCII]. rewrite (IH s Ht), Ascii.eqb_eq.
    split; [intros [-> ->]; reflexivity|intros H; inversion H; auto].
Qed.

Lemma varsTable_written X cfg :
  written <$> varsTable X cfg (nativeSSH cfg) = fiveWrites X cfg (sshSocket X cfg).
Proof.
  unfold nativeSSH, sshSocket.
  destruct (GoStrings.EqualFold (GUI_SSH cfg) "cygwin") eqn:Hfold.
  - apply (EqualFold_lower "cygwin" _ eq_refl) in Hfold.
    destruct (decide _) as [_|Hne]; [reflexivity|destruct (Hne Hfold)].
  - destruct (decide _) as [Heq|_]; [|reflexivity].
    apply (EqualFold_lower "cygwin" _ eq_refl) in Heq. congruence.
Qed.

Lemma prepareCalls_serves ks : prepareCalls (EvServe <$> ks) = [].
Proof. induction ks as [|k ks IH]; [reflexivity|exact IH]. Qed.

Lemma prepareCalls_closes ks : prepareCalls (EvClose <$> ks) = [].
Proof. induction ks as [|k ks IH]; [reflexivity|exact IH]. Qed.

Lemma prepareCalls_app evs1 evs2 :
  prepareCalls (evs1 ++ evs2) = prepareCalls evs1 ++ prepareCalls evs2.
Proof. apply omap_app. Qed.


Lemma registerFrom_ok_store X vs0 : ∀ n i w,
  i + n = length vs0 →
  vars w = midway vs0 i →
  (∀ j, j < n →
     failure X (trace w ++ (prepareEv <$> take (S j) (drop i vs0))) = None) →
  store (registerFrom X n i w).2 = foldl (writeEntry X) (store w) (drop i vs0).
Proof.
  induction n as [|n IH]; intros i w Hlen Hvars Hall.
  - rewrite drop_ge by lia. reflexivity.
  - destruct (lookup_lt_is_Some_2 vs0 i ltac:(lia)) as [vi Hvi].
    rewrite (drop_S _ _ _ Hvi) in Hall. rewrite (drop_S _ _ _ Hvi).
    assert (Hok : failure X (trace w ++ [prepareEv vi]) = None).
    { apply (Hall 0). lia. }
    rewrite (registerFrom_step_ok X n i w vi);
      [|rewrite Hvars; apply (midway_lookup _ _ _ Hvi)|exact Hok].
    rewrite IH.
    + reflexivity.
    + lia.
    + simpl. rewrite Hvars. apply (midway_step _ _ _ Hvi).
    + intros j Hj. simpl. rewrite <- hist_shift. apply Hall. lia.
Qed.

(** C6.  A publication that succeeds makes exactly five writes: the SSH
    socket variable, and for the GnuPG home and for the agent home a WSL_
    variable with the raw path and the translation flag set and a WIN_
    variable with the Windows form of the path and the flag unset; the
    process-scoped store then holds the translated raw paths and the
    Windows forms. *)
Theorem setVars_publishes_five X cfg native (w : World) :
  (setVars X cfg native w).1 = None →
  let w1 := (setVars X cfg native w).2 in
  ∃ sock evs,
    trace w1 = trace w ++ evs ∧
    prepareCalls evs = fiveWrites X cfg sock ∧
    length evs = 5 ∧
    process (store w1) !! "SSH_AUTH_SOCK" = Some sock ∧
    process (store w1) !! "WSL_GNUPG_HOME" = Some (translatePath X (GPG_Home cfg)) ∧
    process (store w1) !! "WIN_GNUPG_HOME" = Some (PrepareWindowsPath X (GPG_Home cfg)) ∧
    process (store w1) !! "WSL_AGENT_HOME" = Some (translatePath X (GUI_Home cfg)) ∧
    process (store w1) !! "WIN_AGENT_HOME" = Some (PrepareWindowsPath X (GUI_Home cfg)).
Proof.
  intros Hnone w1. unfold setVars in *.
  set (table := varsTable X cfg native) in *.
  destruct (setVarsOn_None X table w (varsTable_fresh _ _ _) Hnone) as (Hall & T & _).
  pose proof (registerFrom_ok_store X table (length table) 0 (set_vars table w)
                eq_refl eq_refl Hall) as St.
  change (store w1 = foldl (writeEntry X) (store w) table) in St.
  exists (if native then GUI_PipeName cfg else PathGUI X ConnectorSockAgentCygwinSSH),
         (prepareEv <$> table).
  split; [exact T|].
  split; [rewrite prepareCalls_table; destruct native; reflexivity|].
  split; [destruct native; reflexivity|].
  rewrite St. destruct native; cbn; repeat split;
    repeat first [apply lookup_insert_eq | rewrite lookup_insert_ne by discriminate].
Qed.

Lemma setVars_publishes_five_witness :
  ∃ sock evs,
    trace (setVars X_ok cfg_env true w0).2 = trace w0 ++ evs ∧
    prepareCalls evs = fiveWrites X_ok cfg_env sock.
Proof.
  destruct (setVars_publishes_five X_ok cfg_env true w0)
    as (sock & evs & T & P & _); [vm_compute; reflexivity|].
  exists sock, evs. split; assumption.
Defined.

(** ** The persistence flags *)

Lemma cleanCalls_app evs1 evs2 :
  cleanCalls (evs1 ++ evs2) = cleanCalls evs1 ++ cleanCalls evs2.
Proof. apply omap_app. Qed.

Lemma cleanCalls_table (vs : list EnvVar) : cleanCalls (prepareEv <$> vs) = [].
Proof. induction vs as [|v vs IH]; [reflexivity|exact IH]. Qed.

(** Whatever fails, the calls of [setVars] write and remove entries of the
    table only, and leave untouched every user-scoped name that no entry
    persists. *)
Lemma setVarsOn_calls X (vs : list EnvVar) (w : World) :
  Forall (λ v, initialized v = false) vs →
  let w1 := (setVarsOn X vs w).2 in
  ∃ evs,
    trace w1 = trace w ++ evs ∧
    (∀ x, x ∈ prepareCalls evs → x ∈ written <$> vs) ∧
    (∀ x, x ∈ cleanCalls evs → x ∈ key <$> vs) ∧
    (∀ v, v ∈ vars w1 → key v ∈ key <$> vs) ∧
    (∀ nm, (∀ v, v ∈ vs → name v = nm → register v = false) →
           user (store w1) !! nm = user (store w) !! nm).
Proof.
  intros Hfresh w1. unfold w1. rewrite setVarsOn_unfold.
  destruct (first_failure
    (λ j, failure X (trace w ++ (prepareEv <$> take (S j) vs))) (length vs))
    as [Hall|(k & e & Hk & Hf & Hfirst)].
  - destruct (registerFrom_ok X vs (length vs) 0 (set_vars vs w))
      as (_ & Q2 & Q3 & _ & Q5); [lia|reflexivity|exact Hall|].
    exists (prepareEv <$> vs). split; [exact Q2|].
    split; [rewrite prepareCalls_table; auto|].
    split; [rewrite cleanCalls_table; intros x Hx; inversion Hx|].
    split; [|exact Q5].
    intros v Hv. rewrite Q3 in Hv.
    apply list_elem_of_fmap in Hv as (v0 & -> & Hv0).
    apply (list_elem_of_fmap_2 key vs v0 Hv0).
  - destruct (lookup_lt_is_Some_2 vs k Hk) as [v Hv].
    destruct (registerFrom_failed X vs Hfresh k (length vs) 0 (set_vars vs w) v e)
      as (_ & back & B1 & B2 & B3 & _ & _ & B6 & _ & B8 & _);
      [lia|reflexivity|exact Hv|exact Hf|exact Hfirst|].
    cbn [trace set_trace set_vars] in B1. cbn [Nat.add] in B2.
    exists ((prepareEv <$> take (S k) vs) ++ back).
    split; [rewrite B1, <- app_assoc; reflexivity|].
    split.
    { rewrite prepareCalls_app, prepareCalls_table, (revocation_no_prepare _ B3), app_nil_r.
      intros x Hx. apply list_elem_of_fmap in Hx as (v0 & -> & Hv0).
      apply list_elem_of_fmap_2. apply elem_of_take in Hv0 as (j & Hj & _).
      eapply list_elem_of_lookup_2, Hj. }
    split.
    { rewrite cleanCalls_app, cleanCalls_table, B2. cbn [app].
      intros x Hx. apply list_elem_of_fmap in Hx as (v0 & -> & Hv0).
      apply list_elem_of_fmap_2. rewrite elem_of_reverse in Hv0.
      apply elem_of_take in Hv0 as (j & Hj & _).
      eapply list_elem_of_lookup_2, Hj. }
    split; [|exact B8].
    intros v' Hv'. rewrite B6 in Hv'. apply list_elem_of_fmap_2, Hv'.
Qed.

Lemma varsTable_key X cfg native :
  key <$> varsTable X cfg native
  = [("SSH_AUTH_SOCK", false); ("WSL_GNUPG_HOME", true); ("WIN_GNUPG_HOME", true);
     ("WSL_AGENT_HOME", true); ("WIN_AGENT_HOME", true)].
Proof. destruct native; reflexivity. Qed.

Lemma varsTable_ssh_flag X cfg native x :
  x ∈ key <$> varsTable X cfg native → x.1 = "SSH_AUTH_SOCK" → x.2 = false.
Proof.
  rewrite varsTable_key, !elem_of_cons, elem_of_nil.
  intros H Hn.
  repeat (destruct H as [->|H]; [cbn in *; first [reflexivity|discriminate]|]).
  destruct H.
Qed.

(** C9.  In either mode the table registers SSH_AUTH_SOCK with the flag
    false and the four home paths with the flag true; every call that
    writes or removes SSH_AUTH_SOCK, during publication and during a later
    revocation, carries the flag false; and the user-scoped store is never
    changed at SSH_AUTH_SOCK. *)
Theorem ssh_socket_never_persisted X cfg native (w : World) :
  let w1 := (setVars X cfg native w).2 in
  let w2 := (cleaner X w1).2 in
  key <$> varsTable X cfg native
  = [("SSH_AUTH_SOCK", false); ("WSL_GNUPG_HOME", true); ("WIN_GNUPG_HOME", true);
     ("WSL_AGENT_HOME", true); ("WIN_AGENT_HOME", true)] ∧
  (∃ evs,
     trace w2 = trace w ++ evs ∧
     (∀ v r t, EvPrepareEnv "SSH_AUTH_SOCK" v r t ∈ evs → r = false) ∧
     (∀ r, EvCleanEnv "SSH_AUTH_SOCK" r ∈ evs → r = false)) ∧
  user (store w1) !! "SSH_AUTH_SOCK" = user (store w) !! "SSH_AUTH_SOCK" ∧
  user (store w2) !! "SSH_AUTH_SOCK" = user (store w) !! "SSH_AUTH_SOCK".
Proof.
  intros w1 w2. split; [apply varsTable_key|].
  set (table := varsTable X cfg native).
  destruct (setVarsOn_calls X table w (varsTable_fresh _ _ _))
    as (evs1 & T1 & P1 & C1 & V1 & U1).
  change (setVarsOn X table w).2 with w1 in T1, V1, U1.
  destruct (cleaner_spec X w1) as (evs2 & T2 & C2 & F2 & _ & _ & _ & _ & _ & _ & U2).
  change (cleaner X w1).2 with w2 in T2, U2.
  assert (Hsafe : ∀ v, v ∈ table → name v = "SSH_AUTH_SOCK" → register v = false).
  { intros v Hv Hn.
    apply (varsTable_ssh_flag X cfg native (key v)); [|exact Hn].
    apply list_elem_of_fmap_2, Hv. }
  assert (Hsafe1 : ∀ v, v ∈ vars w1 → name v = "SSH_AUTH_SOCK" → register v = false).
  { intros v Hv Hn.
    apply (varsTable_ssh_flag X cfg native (key v)); [|exact Hn]. apply V1, Hv. }
  split; [|split].
  - exists (evs1 ++ evs2). split; [rewrite T2, T1, app_assoc; reflexivity|]. split.
    + intros v r t Hin.
      assert (Hc : (("SSH_AUTH_SOCK", v, r, t) : string * string * bool * bool)
                   ∈ prepareCalls (evs1 ++ evs2)).
      { apply list_elem_of_omap. eexists. split; [exact Hin|reflexivity]. }
      rewrite prepareCalls_app, (revocation_no_prepare _ F2), app_nil_r in Hc.
      apply P1, list_elem_of_fmap in Hc as (v0 & Heq & Hv0).
      inversion Heq; subst. apply Hsafe; [exact Hv0|congruence].
    + intros r Hin.
      assert (Hc : (("SSH_AUTH_SOCK", r) : string * bool) ∈ cleanCalls (evs1 ++ evs2)).
      { apply list_elem_of_omap. eexists. split; [exact Hin|reflexivity]. }
      rewrite cleanCalls_app in Hc. apply elem_of_app in Hc as [Hc|Hc].
      * apply (varsTable_ssh_flag X cfg native _ (C1 _ Hc) eq_refl).
      * rewrite C2 in Hc. apply list_elem_of_fmap in Hc as (v0 & Heq & Hv0).
        rewrite elem_of_reverse in Hv0. apply list_elem_of_filter in Hv0 as [_ Hv0].
        inversion Heq; subst. apply Hsafe1; [exact Hv0|congruence].
  - apply U1, Hsafe.
  - rewrite U2; [apply U1, Hsafe|exact Hsafe1].
Qed.

Lemma writesFrom_calls table evs :
  (∀ x, x ∈ prepareCalls evs → x ∈ written <$> table) → Forall (writesFrom table) evs.
Proof.
  induction evs as [|e evs IH]; intros H; constructor.
  - destruct e; try exact I. apply H. apply list_elem_of_here.
  - apply IH. intros x Hx. apply H.
    destruct e; try exact Hx. apply list_elem_of_further, Hx.
Qed.

Lemma setVars_writesFrom X cfg native :
  Emits (writesFrom (varsTable X cfg native)) (setVars X cfg native).
Proof.
  intros w.
  destruct (setVarsOn_calls X (varsTable X cfg native) w (varsTable_fresh _ _ _))
    as (evs & T & P & _).
  exists evs. split; [exact T|apply writesFrom_calls, P].
Qed.

Lemma cleaner_writesFrom X table : Emits (writesFrom table) (cleaner X).
Proof.
  intros w. destruct (cleaner_spec X w) as (evs & T & _ & F & _).
  exists evs. split; [exact T|].
  eapply Forall_impl; [exact F|]. intros []; try discriminate; intros _; exact I.
Qed.

Lemma return_writesFrom {A} X table ds (r : A) :
  Emits (writesFrom table) (return_ X ds r).
Proof.
  unfold return_. apply Emits_bind; [|intros _; apply Emits_ret].
  induction ds as [|d ds IH]; cbn [runDeferred]; [apply Emits_ret|].
  apply Emits_bind; [|intros _; exact IH].
  destruct d; cbn [runDeferred1]; [apply Emits_emit; exact I|apply cleaner_writesFrom].
Qed.

Lemma systray_Run_writesFrom X table : Emits (writesFrom table) (systray_Run X).
Proof.
  eapply Emits_weaken; [|apply Quiet_Emits, systray_Run_Quiet].
  intros [] H; try destruct H; exact I.
Qed.

Lemma run_writesFrom X cfg :
  Emits (writesFrom (varsTable X cfg (nativeSSH cfg))) (run X cfg).
Proof.
  unfold run, extraPortStep, setEnvStep, serveStep, gpgAgent_Serve, gpgAgent_Start.
  fold (nativeSSH cfg).
  repeat first
    [ apply return_writesFrom | apply systray_Run_writesFrom
    | apply setVars_writesFrom | emits_step ].
Qed.

(** C5.  In every run, a write of SSH_AUTH_SOCK carries the Cygwin
    connector's socket path when the configured mode is "cygwin" in any
    letter case, and the configured pipe name for every other mode; and a
    run that publishes the environment and ends without error has made
    that write, as the first of the five. *)
Theorem ssh_socket_selected_by_mode X cfg (w : World) :
  ∃ evs,
    trace (run X cfg w).2 = trace w ++ evs ∧
    (∀ v r t, EvPrepareEnv "SSH_AUTH_SOCK" v r t ∈ evs → v = sshSocket X cfg) ∧
    (GUI_SetEnv cfg = true → (run X cfg w).1 = None →
     prepareCalls evs = fiveWrites X cfg (sshSocket X cfg)).
Proof.
  destruct (run_writesFrom X cfg w) as (evs & T & F).
  exists evs. split; [exact T|]. split.
  - intros v r t Hin. rewrite Forall_forall in F. specialize (F _ Hin).
    cbn [writesFrom] in F. rewrite varsTable_written in F.
    unfold fiveWrites in F. rewrite !elem_of_cons, elem_of_nil in F.
    repeat (destruct F as [F|F]; [inversion F; reflexivity|]). destruct F.
  - intros Henv Hnone.
    destruct (Unwinds_body X cfg [] w Hnone) as (mid & rev & T' & _ & P & F' & _).
    rewrite app_nil_r in T'.
    assert (Heq : trace w ++ evs = trace w ++ (EvServe <$> configured cfg) ++ mid
                    ++ rev ++ (EvClose <$> reverse (configured cfg)))
      by (rewrite <- T; exact T').
    apply app_inv_head in Heq. rewrite Heq.
    rewrite !prepareCalls_app, prepareCalls_serves, prepareCalls_closes, P.
    rewrite (revocation_no_prepare _ F'), !app_nil_r. cbn [app].
    unfold publicationOf. rewrite Henv. apply varsTable_written.
Qed.

Lemma ssh_socket_selected_by_mode_witness :
  ∃ evs,
    trace (run X_ok cfg_env w0).2 = trace w0 ++ evs ∧
    prepareCalls evs = fiveWrites X_ok cfg_env "/home/user/.ssh/agent.sock".
Proof.
  destruct (ssh_socket_selected_by_mode X_ok cfg_env w0) as (evs & T & _ & P).
  exists evs. split; [exact T|]. apply P; vm_compute; reflexivity.
Defined.

(** ** Session events *)

(** C8.  A lock event makes exactly the call SessionLock, an unlock event
    exactly the call SessionUnlock, and any other event makes no call and
    changes nothing, the lock state included; over a sequence of delivered
    events the calls are those of its lock and unlock events, in order. *)
Theorem onSession_dispatches (e : SessionEvent) (es : list SessionEvent) (w : World) :
  match e with
  | SesLock =>
      trace (onSession e w).2 = trace w ++ [EvSessionLock] ∧
      lock (onSession e w).2 = Locked
  | SesUnlock =>
      trace (onSession e w).2 = trace w ++ [EvSessionUnlock] ∧
      lock (onSession e w).2 = Unlocked
  | SesOther _ => (onSession e w).2 = w
  end ∧
  trace (deliver es w).2 = trace w ++ omap sessionCall es ∧
  lock (deliver es w).2 = foldl lockAfter (lock w) es.
Proof.
  split; [destruct e; cbn; auto|].
  revert w. induction es as [|e' es IH]; intros w.
  - cbn. rewrite app_nil_r. split; reflexivity.
  - cbn [deliver]. rewrite bind_run.
    destruct (IH (onSession e' w).2) as [T L]. rewrite T, L.
    destruct e'; cbn; rewrite <- ?app_assoc; split; reflexivity.
Qed.

(** ** The clipboard service *)

Lemma clipKeys_step X i k keys pkeys w :
  clipKeys X i (k :: keys) pkeys w
  = clipKeys X (S i) keys (addKey X pkeys k)
      (set_trace (trace w ++
         [if validKey k
          then EvLog ("gclpr found public key: " +:+ k +:+ " [" +:+
                      Hex.EncodeToString (Sum256 X (Hex.DecodeString k).1) +:+ "]")
          else badKeyLog i]) w).
Proof.
  cbn [clipKeys]. unfold addKey, validKey.
  destruct (Hex.DecodeString k) as [pk err]. cbn [fst snd].
  destruct err as [e|]; cbn [orb andb negb bool_decide]; [reflexivity|].
  rewrite (bool_decide_eq_false_2 (None ≠ None)) by (intros H; apply H; reflexivity).
  rewrite (bool_decide_eq_true_2 (None = None)) by reflexivity. cbn [orb andb].
  destruct (length pk =? 32)%nat; reflexivity.
Qed.

Lemma clipKeys_spec X : ∀ keys i pkeys w,
  let r := clipKeys X i keys pkeys w in
  r.1 = foldl (addKey X) pkeys keys ∧
  ∃ logs,
    trace r.2 = trace w ++ logs ∧
    Forall isLog logs ∧
    (∀ j k, keys !! j = Some k → validKey k = false →
            logs !! j = Some (badKeyLog (i + j))) ∧
    store r.2 = store w ∧ vars r.2 = vars w ∧ sameGlobals w r.2.
Proof.
  induction keys as [|k keys IH]; intros i pkeys w r; subst r.
  - cbn. split; [reflexivity|]. exists []. rewrite app_nil_r.
    split; [reflexivity|]. split; [constructor|].
    split; [intros j k Hk; inversion Hk|]. repeat split.
  - rewrite clipKeys_step.
    destruct (IH (S i) (addKey X pkeys k) (set_trace (trace w ++ [if validKey k
          then EvLog ("gclpr found public key: " +:+ k +:+ " [" +:+
                      Hex.EncodeToString (Sum256 X (Hex.DecodeString k).1) +:+ "]")
          else badKeyLog i]) w))
      as (R & logs & T & F & B & St & V & G1 & G2 & G3).
    split; [exact R|].
    eexists (_ :: logs). cbn [trace set_trace store vars lock clipHelp clipCtx] in *.
    split; [rewrite T, <- app_assoc; reflexivity|].
    split; [constructor; [destruct (validKey k); exact I|exact F]|].
    split; [|repeat split; assumption].
    intros [|j] k' Hk' Hbad; cbn in Hk'.
    + inversion Hk'; subst k'. rewrite Hbad, Nat.add_0_r. reflexivity.
    + change (logs !! j = Some (badKeyLog (i + S j))).
      rewrite (B j k' Hk' Hbad). do 2 f_equal. lia.
Qed.

Lemma addKey_all_bad X keys : ∀ m,
  Forall (λ k, validKey k = false) keys → foldl (addKey X) m keys = m.
Proof.
  induction keys as [|k keys IH]; intros m Hbad; [reflexivity|].
  inversion Hbad as [|? ? Hk Hrest]; subst. cbn [foldl].
  unfold addKey at 2. rewrite Hk. apply IH, Hrest.
Qed.

Lemma addKey_empty X keys : ∀ m,
  foldl (addKey X) m keys = ∅ → m = ∅ ∧ Forall (λ k, validKey k = false) keys.
Proof.
  induction keys as [|k keys IH]; intros m Hm; [split; [exact Hm|constructor]|].
  cbn [foldl] in Hm. apply IH in Hm as [Hm Hrest]. unfold addKey in Hm.
  destruct (validKey k) eqn:Hk.
  - destruct (insert_non_empty _ _ _ Hm).
  - split; [exact Hm|constructor; assumption].
Qed.

Lemma addKey_lookup X keys : ∀ m h pk,
  foldl (addKey X) m keys !! h = Some pk →
  m !! h = Some pk ∨
  ∃ k, k ∈ keys ∧ validKey k = true ∧
       pk = (Hex.DecodeString k).1 ∧ h = Sum256 X pk.
Proof.
  induction keys as [|k keys IH]; intros m h pk Hl; [left; exact Hl|].
  cbn [foldl] in Hl. apply IH in Hl as [Hl|(k' & Hin & Hv & Hpk & Hh)].
  - unfold addKey in Hl. destruct (validKey k) eqn:Hk; [|left; exact Hl].
    destruct (decide (Sum256 X (Hex.DecodeString k).1 = h)) as [<-|Hne].
    + rewrite lookup_insert_eq in Hl. inversion Hl; subst pk.
      right. exists k. split; [apply list_elem_of_here|]. repeat split. exact Hk.
    + rewrite lookup_insert_ne in Hl by exact Hne. left. exact Hl.
  - right. exists k'. split; [apply list_elem_of_further, Hin|]. repeat split; assumption.
Qed.

Lemma addKey_kept X keys : ∀ m k,
  k ∈ keys → validKey k = true →
  is_Some (foldl (addKey X) m keys !! Sum256 X (Hex.DecodeString k).1).
Proof.
  assert (Hmono : ∀ ks m h, is_Some (m !! h) → is_Some (foldl (addKey X) m ks !! h)).
  { intros ks. induction ks as [|k ks IH]; intros m h Hs; [exact Hs|].
    cbn [foldl]. apply IH. unfold addKey. destruct (validKey k); [|exact Hs].
    rewrite lookup_insert_is_Some. destruct (decide (Sum256 X (Hex.DecodeString k).1 = h));
      auto. }
  induction keys as [|k0 keys IH]; intros m k Hin Hv; [inversion Hin|].
  cbn [foldl]. apply elem_of_cons in Hin as [->|Hin].
  - apply Hmono. unfold addKey. rewrite Hv, lookup_insert_eq. eauto.
  - apply IH; assumption.
Qed.

Lemma validKey_false_iff k :
  validKey k = false ↔
  (Hex.DecodeString k).2 ≠ None ∨ length (Hex.DecodeString k).1 ≠ 32.
Proof.
  unfold validKey. rewrite andb_false_iff, bool_decide_eq_false, Nat.eqb_neq.
  reflexivity.
Qed.

(** C10.  [clipServe] skips, with one log line each, the configured keys
    whose hex decoding fails or whose decoded length is not 32; the map it
    builds holds exactly the keys that remain, under their hashes; the
    clipboard server is started when at least one key remains and only
    then; with no valid key nothing but the log lines is emitted and the
    help text is unchanged; and in every case the function returns with the
    store, the slice and the lock state untouched. *)
Theorem clipServe_skips_bad_keys X cfg (w : World) :
  let keys := GUI_Clp_Keys cfg in
  let pkeys := foldl (addKey X) ∅ keys in
  let w1 := (clipServe X cfg w).2 in
  (∀ k, validKey k = false ↔
        (Hex.DecodeString k).2 ≠ None ∨ length (Hex.DecodeString k).1 ≠ 32) ∧
  (∀ h pk, pkeys !! h = Some pk →
     ∃ k, k ∈ keys ∧ validKey k = true ∧
          pk = (Hex.DecodeString k).1 ∧ h = Sum256 X pk) ∧
  (∀ k, k ∈ keys → validKey k = true →
     is_Some (pkeys !! Sum256 X (Hex.DecodeString k).1)) ∧
  ∃ logs,
    Forall isLog logs ∧
    (∀ i k, keys !! i = Some k → validKey k = false →
            logs !! i = Some (badKeyLog i)) ∧
    ((∃ k, k ∈ keys ∧ validKey k = true) →
       trace w1 = trace w ++ logs ++
         [EvClipServe (GUI_Clp_Port cfg) (GUI_Clp_LE cfg) pkeys compatibleMagic] ∧
       clipHelp w1 = servingHelp cfg pkeys) ∧
    ((∀ k, k ∈ keys → validKey k = false) →
       trace w1 = trace w ++ logs ∧ clipHelp w1 = clipHelp w) ∧
    store w1 = store w ∧ vars w1 = vars w ∧ lock w1 = lock w ∧
    clipCtx w1 = Some true.
Proof.
  intros keys pkeys w1.
  split; [exact validKey_false_iff|].
  split.
  { intros h pk Hl. apply addKey_lookup in Hl as [Hl|Hl]; [|exact Hl].
    rewrite lookup_empty in Hl. discriminate. }
  split; [intros k; apply addKey_kept|].
  subst w1. unfold clipServe. rewrite bind_run. cbv beta.
  change (modify (set_clipCtx (Some true)) w).2 with (set_clipCtx (Some true) w).
  fold keys. set (wc := set_clipCtx (Some true) w).
  destruct (clipKeys_spec X keys 0 ∅ wc)
    as (R & logs & T & F & B & St & V & G1 & G2 & G3).
  fold pkeys in R.
  cbn [trace store vars lock clipHelp clipCtx set_clipCtx wc] in T, St, V, G1, G2, G3.
  destruct (0 <? length keys)%nat eqn:Hlen.
  - rewrite bind_run. cbv beta. rewrite R. exists logs.
    split; [exact F|]. split; [exact B|].
    destruct (0 <? size pkeys)%nat eqn:Hsize.
    + rewrite bind_run. cbn.
      split; [intros _; rewrite T, <- app_assoc; split; reflexivity|].
      split; [|repeat split; assumption].
      intros Hbad. unfold pkeys in Hsize.
      rewrite (addKey_all_bad X keys ∅) in Hsize.
      * rewrite map_size_empty in Hsize. discriminate.
      * apply Forall_forall. exact Hbad.
    + cbn [ret snd].
      assert (Hempty : pkeys = ∅).
      { apply map_size_empty_inv. apply Nat.ltb_ge in Hsize. lia. }
      apply addKey_empty in Hempty as [_ Hbad]. rewrite Forall_forall in Hbad.
      split; [intros (k & Hin & Hv); rewrite (Hbad k Hin) in Hv; discriminate|].
      split; [intros _; split; assumption|].
      repeat split; assumption.
  - cbn [ret snd]. exists [].
    assert (Hnil : keys = []).
    { destruct keys; [reflexivity|discriminate]. }
    split; [constructor|].
    split; [intros i k Hk; rewrite Hnil in Hk; inversion Hk|].
    split; [intros (k & Hin & _); rewrite Hnil in Hin; inversion Hin|].
    split; [intros _; rewrite app_nil_r; split; reflexivity|].
    repeat split.
Qed.

(** ** The emulated-socket handshake *)

Lemma accumulate_steps x : ∀ y v n,
  length x = length y → (Relay.accumulate x y v n).2 = n + length x.
Proof.
  induction x as [|a x IH]; intros [|b y] v n Hlen; try discriminate.
  - cbn. lia.
  - cbn [Relay.accumulate]. rewrite IH by (cbn in Hlen; lia). cbn. lia.
Qed.

Lemma accumulate_zero x : ∀ y v n,
  length x = length y →
  ((Relay.accumulate x y v n).1 = 0%N ↔ v = 0%N ∧ x = y).
Proof.
  induction x as [|a x IH]; intros [|b y] v n Hlen; try discriminate.
  - cbn. split; [auto|intros [? _]; assumption].
  - cbn [Relay.accumulate]. rewrite IH by (cbn in Hlen; lia).
    rewrite N.lor_eq_0_iff, N.lxor_eq_0_iff. split.
    + intros [[Hv ->] ->]. auto.
    + intros [Hv Heq]. inversion Heq. auto.
Qed.

(** The comparison accepts equal byte strings only. *)
Lemma ConstantTimeCompare_true x y :
  (Relay.ConstantTimeCompare x y).1 = true ↔ x = y.
Proof.
  unfold Relay.ConstantTimeCompare.
  destruct (length x =? length y)%nat eqn:Hlen.
  - apply Nat.eqb_eq in Hlen.
    pose proof (accumulate_zero x y 0%N 0 Hlen) as Hz.
    destruct (Relay.accumulate x y 0 0) as [v steps]. cbn [fst] in *.
    rewrite N.eqb_eq, Hz. split; [intros [_ H]; exact H|auto].
  - cbn. apply Nat.eqb_neq in Hlen. split; [discriminate|].
    intros ->. destruct (Hlen eq_refl).
Qed.

(** Its cost depends on the lengths of its operands only. *)
Lemma ConstantTimeCompare_cost x x' y :
  length x = length x' →
  (Relay.ConstantTimeCompare x y).2 = (Relay.ConstantTimeCompare x' y).2.
Proof.
  intros Hlen. unfold Relay.ConstantTimeCompare. rewrite <- Hlen.
  destruct (length x =? length y)%nat eqn:Hxy; [|reflexivity].
  apply Nat.eqb_eq in Hxy.
  pose proof (accumulate_steps x y 0%N 0 Hxy) as H1.
  pose proof (accumulate_steps x' y 0%N 0 ltac:(lia)) as H2.
  destruct (Relay.accumulate x y 0 0), (Relay.accumulate x' y 0 0).
  cbn [snd] in *. lia.
Qed.

Lemma step_closed s inp : Relay.state s = Relay.Closed → Relay.step s inp = s.
Proof. intros H. unfold Relay.step. rewrite H. reflexivity. Qed.

(** A closed session stays as it is under every interleaving. *)
Lemma run_closed evs : ∀ pool id s,
  pool !! id = Some s → Relay.state s = Relay.Closed →
  Relay.run pool evs !! id = Some s.
Proof.
  induction evs as [|ev evs IH]; intros pool id s Hs Hc; [exact Hs|].
  cbn [Relay.run foldl]. fold (Relay.run (Relay.deliver pool ev) evs).
  apply IH; [|exact Hc]. unfold Relay.deliver.
  destruct (decide (ev.1 = id)) as [->|Hne].
  - rewrite lookup_alter_eq, Hs. cbn. rewrite step_closed by exact Hc. reflexivity.
  - rewrite lookup_alter_ne by exact Hne. exact Hs.
Qed.

(** The other sessions do not see whether a session is there at all. *)
Lemma run_frame evs : ∀ pool pool' id,
  (∀ id', id' ≠ id → pool !! id' = pool' !! id') →
  ∀ id', id' ≠ id → Relay.run pool evs !! id' = Relay.run pool' evs !! id'.
Proof.
  induction evs as [|ev evs IH]; intros pool pool' id Hsame id' Hne;
    [apply Hsame, Hne|].
  cbn [Relay.run foldl].
  fold (Relay.run (Relay.deliver pool ev) evs) (Relay.run (Relay.deliver pool' ev) evs).
  apply (IH _ _ id); [|exact Hne].
  intros j Hj. unfold Relay.deliver.
  destruct (decide (ev.1 = j)) as [->|Hnj].
  - rewrite !lookup_alter_eq, (Hsame j Hj). reflexivity.
  - rewrite !lookup_alter_ne by exact Hnj. apply Hsame, Hj.
Qed.

(** C7.  A session of the emulated-socket adapter whose handshake read
    does not return the expected secret (other bytes, or a timeout) is
    closed by that step with nothing relayed; under every later
    interleaving of inputs it stays closed and never relays; every other
    session evolves exactly as if this one had not been there; and the
    comparison examines the same number of bytes whatever the client
    sent. *)
Theorem wrong_secret_never_relays
    (pool : gmap nat Relay.RelaySession) (id : nat) (s : Relay.RelaySession)
    (secret : list N) (inp : Relay.Input) :
  pool !! id = Some s →
  Relay.adapter s = Relay.EmulatedSocket secret →
  Relay.state s = Relay.Handshaking →
  inp ≠ Relay.ClientRead (Relay.expected secret) →
  let pool1 := Relay.deliver pool (id, inp) in
  pool1 !! id = Some (Relay.close s) ∧
  (∀ later, Relay.run pool1 later !! id = Some (Relay.close s)) ∧
  (∀ later id', id' ≠ id →
     Relay.run pool1 later !! id' = Relay.run (delete id pool) later !! id') ∧
  (∀ data data',
     length data = length data' →
     (Relay.ConstantTimeCompare data (Relay.expected secret)).2
     = (Relay.ConstantTimeCompare data' (Relay.expected secret)).2).
Proof.
  intros Hs Ha Hh Hbad pool1.
  assert (Hstep : Relay.step s inp = Relay.close s).
  { unfold Relay.step. rewrite Hh, Ha.
    destruct (Relay.negotiated secret inp) eqn:Hn; [|reflexivity].
    destruct inp; try discriminate. cbn in Hn.
    apply ConstantTimeCompare_true in Hn. subst data. destruct (Hbad eq_refl). }
  assert (H1 : pool1 !! id = Some (Relay.close s)).
  { unfold pool1, Relay.deliver. cbn [fst snd].
    rewrite lookup_alter_eq, Hs. cbn. rewrite Hstep. reflexivity. }
  split; [exact H1|]. split; [|split].
  - intros later. apply run_closed; [exact H1|reflexivity].
  - intros later id' Hne. apply (run_frame later _ _ id); [|exact Hne].
    intros j Hj. unfold pool1, Relay.deliver. cbn [fst snd].
    rewrite lookup_alter_ne, lookup_delete_ne by congruence. reflexivity.
  - intros data data'. apply ConstantTimeCompare_cost.
Qed.

Lemma wrong_secret_never_relays_witness :
  Relay.deliver Relay.twoSessions (1, Relay.ClientRead [1; 2; 1; 3]%N) !! 1
  = Some (Relay.close (Relay.fresh (Relay.EmulatedSocket [1; 2]%N))).
Proof.
  refine (proj1 (wrong_secret_never_relays Relay.twoSessions 1
                   (Relay.fresh (Relay.EmulatedSocket [1; 2]%N)) [1; 2]%N
                   (Relay.ClientRead [1; 2; 1; 3]%N) _ _ _ _)).
  - reflexivity.
  - reflexivity.
  - reflexivity.
  - discriminate.
Defined.

(** ** [run] as a loop, and its outcomes *)

Lemma run_serveAll X cfg :
  run X cfg = serveAll X (configured cfg) [] (afterServing X cfg).
Proof.
  rewrite run_unfold. unfold configured, extraPortStep.
  destruct (decide (GUI_ExtraPort cfg ≠ 0%Z)); reflexivity.
Qed.

Lemma set_trace_id w : set_trace (trace w) w = w.
Proof. destruct w; reflexivity. Qed.

(** Either a Serve fails, after the connectors before it were served, and
    the function returns its error through the deferred calls; or every
    connector is served and the rest runs with all of them deferred. *)
Lemma serveAll_outcome X rest ks : ∀ done w,
  (∃ served k tail e,
     ks = served ++ k :: tail ∧
     (∀ j, j < length served →
        failure X (trace w ++ (EvServe <$> take (S j) served)) = None) ∧
     failure X (trace w ++ (EvServe <$> served) ++ [EvServe k]) = Some e ∧
     serveAll X ks (DeferClose <$> done) rest w
     = (Some e,
        (runDeferred X (DeferClose <$> (reverse served ++ done))
           (set_trace (trace w ++ (EvServe <$> served) ++ [EvServe k]) w)).2))
  ∨
  ((∀ j, j < length ks →
      failure X (trace w ++ (EvServe <$> take (S j) ks)) = None) ∧
   serveAll X ks (DeferClose <$> done) rest w
   = rest (DeferClose <$> (reverse ks ++ done))
       (set_trace (trace w ++ (EvServe <$> ks)) w)).
Proof.
  induction ks as [|k ks IH]; intros done w.
  - right. split; [intros j Hj; inversion Hj|].
    cbn. rewrite app_nil_r, set_trace_id. reflexivity.
  - cbn [serveAll].
    destruct (failure X (trace w ++ [EvServe k])) as [e|] eqn:Hf.
    + left. exists [], k, ks, e. split; [reflexivity|].
      split; [intros j Hj; inversion Hj|]. split; [exact Hf|].
      rewrite (serveStep_failed X k _ _ w e Hf). unfold return_.
      rewrite bind_run. reflexivity.
    + rewrite (serveStep_ok X k _ _ w Hf).
      change (DeferClose k :: (DeferClose <$> done)) with (DeferClose <$> k :: done).
      set (w' := set_trace (trace w ++ [EvServe k]) w).
      assert (Hshift : ∀ l : list ConnectorKind,
                trace w' ++ (EvServe <$> l) = trace w ++ (EvServe <$> k :: l)).
      { intros l. cbn. rewrite <- app_assoc. reflexivity. }
      destruct (IH (k :: done) w')
        as [(served & k' & tail & e & -> & Hok & Hfail & Heq)|[Hok Heq]].
      * left. exists (k :: served), k', tail, e. split; [reflexivity|].
        split.
        { intros [|j] Hj; [exact Hf|].
          change (take (S (S j)) (k :: served)) with (k :: take (S j) served).
          rewrite <- Hshift. apply Hok. cbn in Hj. lia. }
        split.
        { rewrite <- Hfail. cbn. rewrite <- !app_assoc. reflexivity. }
        rewrite Heq. rewrite reverse_cons, <- !app_assoc. cbn.
        rewrite <- !app_assoc. reflexivity.
      * right. split.
        { intros [|j] Hj; [exact Hf|].
          change (take (S (S j)) (k :: ks)) with (k :: take (S j) ks).
          rewrite <- Hshift. apply Hok. cbn in Hj. lia. }
        rewrite Heq. rewrite reverse_cons, <- !app_assoc. cbn.
        rewrite <- !app_assoc. reflexivity.
Qed.

Lemma return_eq {A} X ds (r : A) w :
  return_ X ds r w = (r, (runDeferred X ds w).2).
Proof. unfold return_. rewrite bind_run. reflexivity. Qed.

Lemma runDeferred_cleaner X ds w :
  (runDeferred X (DeferCleaner :: ds) w).2 = (runDeferred X ds (cleaner X w).2).2.
Proof. cbn [runDeferred runDeferred1]. rewrite bind_run. reflexivity. Qed.

Lemma afterServing_off X cfg ds w :
  GUI_SetEnv cfg = false → afterServing X cfg ds w = startAndRun X ds w.
Proof. intros H. unfold afterServing, setEnvStep. rewrite H. reflexivity. Qed.

Lemma afterServing_failed X cfg ds w msg :
  GUI_SetEnv cfg = true →
  (setVars X cfg (nativeSSH cfg) w).1 = Some msg →
  afterServing X cfg ds w
  = (Some msg, (runDeferred X ds (setVars X cfg (nativeSSH cfg) w).2).2).
Proof.
  intros H Hm. unfold afterServing, setEnvStep. rewrite H.
  fold (nativeSSH cfg). rewrite bind_run, Hm. apply return_eq.
Qed.

Lemma afterServing_ok X cfg ds w :
  GUI_SetEnv cfg = true →
  (setVars X cfg (nativeSSH cfg) w).1 = None →
  afterServing X cfg ds w
  = startAndRun X (DeferCleaner :: ds) (setVars X cfg (nativeSSH cfg) w).2.
Proof.
  intros H Hm. unfold afterServing, setEnvStep. rewrite H.
  fold (nativeSSH cfg). rewrite bind_run, Hm. reflexivity.
Qed.

Lemma startAndRun_failed X ds w e :
  failure X (trace w ++ [EvStart]) = Some e →
  startAndRun X ds w
  = (Some e, (runDeferred X ds (set_trace (trace w ++ [EvStart]) w)).2).
Proof.
  intros Hf. unfold startAndRun, gpgAgent_Start. rewrite bind_run.
  unfold call. cbn [fst snd]. rewrite Hf. apply return_eq.
Qed.

Lemma startAndRun_ok X ds w :
  failure X (trace w ++ [EvStart]) = None →
  startAndRun X ds w
  = (None,
     (runDeferred X ds (systray_Run X (set_trace (trace w ++ [EvStart]) w)).2).2).
Proof.
  intros Hf. unfold startAndRun, gpgAgent_Start. rewrite bind_run.
  unfold call. cbn [fst snd]. rewrite Hf. rewrite bind_run. apply return_eq.
Qed.

Lemma cleanerFrom_isEnv X n : Emits isEnv (cleanerFrom X n).
Proof.
  induction n as [|i IH]; cbn [cleanerFrom]; [apply Emits_ret|].
  apply Emits_bind; [|intros _; exact IH].
  unfold cleanAt, CleanUserEnvironmentVariable, log_Print. repeat emits_step.
Qed.

Lemma cleaner_isEnv X : Emits isEnv (cleaner X).
Proof.
  unfold cleaner. apply Emits_bind; [apply Emits_gets|intros vs].
  apply cleanerFrom_isEnv.
Qed.

Lemma setVarsOn_isEnv X vs : Emits isEnv (setVarsOn X vs).
Proof.
  unfold setVarsOn. apply Emits_bind; [apply Emits_modify; reflexivity|intros _].
  generalize 0. induction (length vs) as [|n IH]; intros i;
    cbn [registerFrom]; [apply Emits_ret|].
  unfold PrepareUserEnvironmentVariable.
  repeat first [apply cleaner_isEnv | apply IH | emits_step].
Qed.

Lemma isEnv_isInner e : isEnv e → isInner e.
Proof. destruct e; intros []; exact I. Qed.

Lemma isTray_isInner e : isTray e → isInner e.
Proof. destruct e; intros []; exact I. Qed.

(** The deferred calls of [run]: the revocation, when it is pending, and
    then the Close calls. *)
Lemma runDeferred_shape X (pending : bool) done w :
  ∃ rev,
    trace (runDeferred X (pendingCalls pending done) w).2
    = trace w ++ rev ++ (EvClose <$> done) ∧
    Forall isEnv rev ∧ (pending = false → rev = []).
Proof.
  unfold pendingCalls. destruct pending; cbn [app].
  - rewrite runDeferred_cleaner.
    destruct (cleaner_isEnv X w) as (rev & T & F).
    destruct (runDeferred_closes X done (cleaner X w).2) as (T' & _).
    exists rev. rewrite T', T, <- app_assoc. repeat split; [exact F|discriminate].
  - destruct (runDeferred_closes X done w) as (T' & _).
    exists []. rewrite T'. repeat split. constructor.
Qed.

Lemma startAndRun_brackets X (pending : bool) done w :
  ∃ body,
    trace (startAndRun X (pendingCalls pending done) w).2
    = trace w ++ body ++ (EvClose <$> done) ∧
    Forall isInner body.
Proof.
  destruct (failure X (trace w ++ [EvStart])) as [e|] eqn:Hf.
  - rewrite (startAndRun_failed X _ w e Hf). cbn [snd].
    destruct (runDeferred_shape X pending done (set_trace (trace w ++ [EvStart]) w))
      as (rev & T & F & _).
    exists (EvStart :: rev). rewrite T. cbn. rewrite <- app_assoc.
    split; [reflexivity|]. constructor; [exact I|].
    eapply Forall_impl; [exact F|apply isEnv_isInner].
  - rewrite (startAndRun_ok X _ w Hf). cbn [snd].
    destruct (systray_Run_Quiet X (set_trace (trace w ++ [EvStart]) w))
      as (tray & T3 & F3 & _).
    destruct (runDeferred_shape X pending done
                (systray_Run X (set_trace (trace w ++ [EvStart]) w)).2)
      as (rev & T & F & _).
    exists (EvStart :: tray ++ rev). rewrite T, T3. cbn. rewrite <- !app_assoc.
    split; [reflexivity|]. constructor; [exact I|]. apply Forall_app. split.
    + eapply Forall_impl; [exact F3|apply isTray_isInner].
    + eapply Forall_impl; [exact F|apply isEnv_isInner].
Qed.

Lemma afterServing_brackets X cfg done w :
  ∃ body,
    trace (afterServing X cfg (DeferClose <$> done) w).2
    = trace w ++ body ++ (EvClose <$> done) ∧
    Forall isInner body.
Proof.
  destruct (GUI_SetEnv cfg) eqn:Henv.
  - destruct (setVarsOn_isEnv X (varsTable X cfg (nativeSSH cfg)) w) as (sv & T & F).
    fold (setVars X cfg (nativeSSH cfg)) in T.
    destruct (setVars X cfg (nativeSSH cfg) w).1 as [msg|] eqn:Hm.
    + rewrite (afterServing_failed X cfg _ w msg Henv Hm). cbn [snd].
      destruct (runDeferred_closes X done (setVars X cfg (nativeSSH cfg) w).2) as (T' & _).
      exists sv. rewrite T', T, <- app_assoc. split; [reflexivity|].
      eapply Forall_impl; [exact F|apply isEnv_isInner].
    + rewrite (afterServing_ok X cfg _ w Henv Hm).
      destruct (startAndRun_brackets X true done (setVars X cfg (nativeSSH cfg) w).2)
        as (body & T' & F').
      exists (sv ++ body). unfold pendingCalls in T'. cbn [app] in T'.
      rewrite T', T, <- !app_assoc.
      split; [reflexivity|]. apply Forall_app. split; [|exact F'].
      eapply Forall_impl; [exact F|apply isEnv_isInner].
  - rewrite (afterServing_off X cfg _ w Henv).
    apply (startAndRun_brackets X false done w).
Qed.

(** The ways [run] can end, as equations: a Serve fails; the publication
    fails; Start fails; or the tray runs and exits. *)
Lemma run_outcome X cfg w :
  let ws := set_trace (trace w ++ (EvServe <$> configured cfg)) w in
  let done := reverse (configured cfg) in
  (∃ served k tail e,
     configured cfg = served ++ k :: tail ∧
     failure X (trace w ++ (EvServe <$> served) ++ [EvServe k]) = Some e ∧
     run X cfg w
     = (Some e,
        (runDeferred X (pendingCalls false (reverse served))
           (set_trace (trace w ++ (EvServe <$> served) ++ [EvServe k]) w)).2))
  ∨
  ((∀ j, j < length (configured cfg) →
      failure X (trace w ++ (EvServe <$> take (S j) (configured cfg))) = None) ∧
   ((GUI_SetEnv cfg = true ∧
     ∃ msg,
       (setVars X cfg (nativeSSH cfg) ws).1 = Some msg ∧
       run X cfg w
       = (Some msg,
          (runDeferred X (pendingCalls false done)
             (setVars X cfg (nativeSSH cfg) ws).2).2))
    ∨
    (∃ w1 revoke,
       ((GUI_SetEnv cfg = true ∧ (setVars X cfg (nativeSSH cfg) ws).1 = None ∧
         w1 = (setVars X cfg (nativeSSH cfg) ws).2 ∧ revoke = true)
        ∨ (GUI_SetEnv cfg = false ∧ w1 = ws ∧ revoke = false)) ∧
       ((∃ e,
           failure X (trace w1 ++ [EvStart]) = Some e ∧
           run X cfg w
           = (Some e,
              (runDeferred X (pendingCalls revoke done)
                 (set_trace (trace w1 ++ [EvStart]) w1)).2))
        ∨
        (failure X (trace w1 ++ [EvStart]) = None ∧
         run X cfg w
         = (None,
            (runDeferred X (pendingCalls revoke done)
               (systray_Run X (set_trace (trace w1 ++ [EvStart]) w1)).2).2)))))).
Proof.
  intros ws done. rewrite run_serveAll.
  destruct (serveAll_outcome X (afterServing X cfg) (configured cfg) [] w)
    as [(served & k & tail & e & Hks & Hok & Hfail & Heq)|[Hok Heq]];
    change (@nil Deferred) with (DeferClose <$> []) in Heq |- *; rewrite Heq;
    rewrite app_nil_r.
  - left. exists served, k, tail, e. repeat split; assumption.
  - right. split; [exact Hok|]. fold ws done.
    change (DeferClose <$> done) with (pendingCalls false done).
    destruct (GUI_SetEnv cfg) eqn:Henv.
    + destruct (setVars X cfg (nativeSSH cfg) ws).1 as [msg|] eqn:Hm.
      * left. split; [reflexivity|]. exists msg. split; [reflexivity|].
        apply (afterServing_failed X cfg _ ws msg Henv Hm).
      * right. exists (setVars X cfg (nativeSSH cfg) ws).2, true.
        split; [left; repeat split; exact Hm|].
        rewrite (afterServing_ok X cfg _ ws Henv Hm).
        change (DeferCleaner :: pendingCalls false done) with (pendingCalls true done).
        destruct (failure X (trace (setVars X cfg (nativeSSH cfg) ws).2 ++ [EvStart]))
          as [e|] eqn:Hs.
        -- left. exists e. split; [reflexivity|]. apply startAndRun_failed, Hs.
        -- right. split; [reflexivity|]. apply startAndRun_ok, Hs.
    + right. exists ws, false. split; [right; repeat split|].
      rewrite (afterServing_off X cfg _ ws Henv).
      destruct (failure X (trace ws ++ [EvStart])) as [e|] eqn:Hs.
      * left. exists e. split; [reflexivity|]. apply startAndRun_failed, Hs.
      * right. split; [reflexivity|]. apply startAndRun_ok, Hs.
Qed.

(** X7.  Whatever fails, [run] closes exactly the connectors whose Serve
    succeeded, in reverse order of serving and after everything else; a
    connector whose Serve failed is not closed, and after a failed Serve
    nothing but the Close calls follows. *)
Theorem run_closes_what_it_served X cfg (w : World) :
  ∃ served failed body,
    trace (run X cfg w).2
    = trace w ++ (EvServe <$> served) ++ failed ++ body
        ++ (EvClose <$> reverse served) ∧
    Forall isInner body ∧
    (∀ j, j < length served →
       failure X (trace w ++ (EvServe <$> take (S j) served)) = None) ∧
    ((failed = [] ∧ served = configured cfg) ∨
     (∃ k e,
        failed = [EvServe k] ∧ body = [] ∧
        (served ++ [k]) `prefix_of` configured cfg ∧
        failure X (trace w ++ (EvServe <$> served) ++ [EvServe k]) = Some e ∧
        (run X cfg w).1 = Some e)).
Proof.
  rewrite run_serveAll.
  destruct (serveAll_outcome X (afterServing X cfg) (configured cfg) [] w)
    as [(served & k & tail & e & Hks & Hok & Hfail & Heq)|[Hok Heq]].
  - change (@nil Deferred) with (DeferClose <$> []) in Heq |- *.
    rewrite Heq. cbn [fst snd].
    destruct (runDeferred_closes X (reverse served ++ [])
                (set_trace (trace w ++ (EvServe <$> served) ++ [EvServe k]) w))
      as (T & _).
    exists served, [EvServe k], []. rewrite T, app_nil_r. cbn [trace set_trace].
    split; [rewrite <- !app_assoc; reflexivity|].
    split; [constructor|]. split; [exact Hok|].
    right. exists k, e. repeat split; [|exact Hfail].
    exists tail. rewrite Hks, <- app_assoc. reflexivity.
  - change (@nil Deferred) with (DeferClose <$> []) in Heq |- *.
    rewrite Heq.
    destruct (afterServing_brackets X cfg (reverse (configured cfg) ++ [])
                (set_trace (trace w ++ (EvServe <$> configured cfg)) w))
      as (body & T & F).
    exists (configured cfg), [], body. rewrite T, app_nil_r. cbn [trace set_trace].
    split; [rewrite <- !app_assoc; reflexivity|].
    split; [exact F|]. split; [exact Hok|]. left. split; reflexivity.
Qed.

(** ** The tray callbacks together *)

Lemma deliver_effect es : ∀ w,
  trace (deliver es w).2 = trace w ++ omap sessionCall es ∧
  lock (deliver es w).2 = foldl lockAfter (lock w) es ∧
  store (deliver es w).2 = store w ∧ vars (deliver es w).2 = vars w ∧
  clipHelp (deliver es w).2 = clipHelp w ∧ clipCtx (deliver es w).2 = clipCtx w.
Proof.
  induction es as [|e es IH]; intros w.
  - cbn. rewrite app_nil_r. repeat split.
  - cbn [deliver]. rewrite bind_run.
    destruct (IH (onSession e w).2) as (T & L & S1 & V & H1 & C). rewrite T, L, S1, V, H1, C.
    destruct e; cbn; rewrite <- ?app_assoc; repeat split.
Qed.

Lemma onExit_effect X w :
  let w1 := (onExit X w).2 in
  trace w1
  = trace w ++ [EvClipCancel; EvStop]
      ++ match failure X (trace w ++ [EvClipCancel; EvStop]) with
         | Some e => [EvLog ("Problem stopping gpg agent: " +:+ e)]
         | None => []
         end
      ++ [EvLog "Exiting systray"] ∧
  clipCtx w1 = Some false ∧ lock w1 = lock w ∧
  store w1 = store w ∧ vars w1 = vars w ∧ clipHelp w1 = clipHelp w.
Proof.
  unfold onExit, gpgAgent_Stop, log_Print, bind, emit, modify, call.
  cbn [fst snd trace set_trace set_clipCtx].
  rewrite <- (app_assoc (trace w) [EvClipCancel] [EvStop]). cbn [app].
  destruct (failure X (trace w ++ [EvClipCancel; EvStop])) as [e|];
    cbn; rewrite <- ?app_assoc; repeat split.
Qed.

Lemma systray_Run_effect X w :
  let w1 := (systray_Run X w).2 in
  trace w1 = trace w ++ trayEvents X (trace w) ∧
  lock w1 = foldl lockAfter (lock w) (delivered X) ∧
  clipCtx w1 = Some false ∧
  store w1 = store w ∧ vars w1 = vars w ∧ clipHelp w1 = clipHelp w.
Proof.
  unfold systray_Run. rewrite !bind_run. cbv beta.
  set (wa := (onReady w).2).
  destruct (deliver_effect (delivered X) wa) as (T & L & S1 & V & H1 & _).
  set (wb := (deliver (delivered X) wa).2) in *.
  destruct (onExit_effect X wb) as (T2 & C2 & L2 & S2 & V2 & H2).
  rewrite T2, C2, L2, S2, V2, H2, T, L, S1, V, H1.
  unfold trayEvents. cbv zeta. unfold wa. cbn [onReady log_Print emit snd trace set_trace
    lock store vars clipHelp].
  rewrite <- !app_assoc. cbn [app]. repeat split.
Qed.


(** ** The store under writes and removals *)

Lemma Store_eq (s s' : Store) :
  process s = process s' → user s = user s' → s = s'.
Proof. destruct s, s'; cbn; intros -> ->; reflexivity. Qed.

Lemma process_written X (l : list EnvVar) : ∀ s nm,
  nm ∉ name <$> l → process (foldl (writeEntry X) s l) !! nm = process s !! nm.
Proof.
  induction l as [|v l IH]; intros s nm Hnm; [reflexivity|].
  rewrite fmap_cons, not_elem_of_cons in Hnm. destruct Hnm as [Hne Hnm].
  cbn [foldl]. rewrite IH by exact Hnm.
  unfold writeEntry, store_write. cbn [process].
  apply lookup_insert_ne. congruence.
Qed.

Lemma user_written X (l : list EnvVar) : ∀ s nm,
  (nm, true) ∉ key <$> l → user (foldl (writeEntry X) s l) !! nm = user s !! nm.
Proof.
  induction l as [|v l IH]; intros s nm Hnm; [reflexivity|].
  rewrite fmap_cons, not_elem_of_cons in Hnm. destruct Hnm as [Hne Hnm].
  cbn [foldl]. rewrite IH by exact Hnm.
  apply store_write_user_other.
  intros Heq. destruct (register v) eqn:Hr; [|reflexivity].
  destruct Hne. unfold key. rewrite Heq, Hr. reflexivity.
Qed.

Lemma process_removed (l : list EnvVar) : ∀ s nm,
  process (foldl removeEntry s l) !! nm
  = if decide (nm ∈ name <$> l) then None else process s !! nm.
Proof.
  induction l as [|v l IH]; intros s nm.
  - cbn. destruct (decide _) as [H|_]; [inversion H|reflexivity].
  - cbn [foldl]. rewrite IH, fmap_cons.
    unfold removeEntry, store_remove. cbn [process].
    destruct (decide (nm ∈ name <$> l)) as [Hin|Hout].
    + rewrite decide_True by (apply list_elem_of_further, Hin). reflexivity.
    + destruct (decide (name v = nm)) as [<-|Hne].
      * rewrite decide_True by apply list_elem_of_here. apply lookup_delete_eq.
      * rewrite decide_False by (rewrite not_elem_of_cons; split; congruence).
        apply lookup_delete_ne, Hne.
Qed.

Lemma user_removed (l : list EnvVar) : ∀ s nm,
  user (foldl removeEntry s l) !! nm
  = if decide ((nm, true) ∈ key <$> l) then None else user s !! nm.
Proof.
  induction l as [|v l IH]; intros s nm.
  - cbn. destruct (decide _) as [H|_]; [inversion H|reflexivity].
  - cbn [foldl]. rewrite IH, fmap_cons.
    unfold removeEntry, store_remove. cbn [user].
    destruct (decide ((nm, true) ∈ key <$> l)) as [Hin|Hout].
    + rewrite decide_True by (apply list_elem_of_further, Hin). reflexivity.
    + destruct (decide (key v = (nm, true))) as [Hk|Hne].
      * rewrite decide_True by (rewrite <- Hk; apply list_elem_of_here).
        inversion Hk as [[Hn Hr]]. rewrite Hr. apply lookup_delete_eq.
      * rewrite decide_False by (rewrite not_elem_of_cons; split; congruence).
        destruct (register v) eqn:Hr; [|reflexivity].
        apply lookup_delete_ne. intros Heq. apply Hne. unfold key.
        rewrite Heq, Hr. reflexivity.
Qed.

(** Writing entries that were not observable and removing them all gives
    the store back. *)
Lemma write_remove_roundtrip X (vs rs : list EnvVar) (s : Store) :
  key <$> rs ≡ₚ key <$> vs →
  (∀ v, v ∈ vs → ¬ observable v s) →
  foldl removeEntry (foldl (writeEntry X) s vs) rs = s.
Proof.
  intros Hperm Hfresh.
  assert (Hnames : ∀ nm, nm ∈ name <$> rs ↔ nm ∈ name <$> vs).
  { intros nm. rewrite !list_elem_of_fmap. split.
    - intros (v & -> & Hv).
      assert (Hk : key v ∈ key <$> vs) by (rewrite <- Hperm; apply list_elem_of_fmap_2, Hv).
      apply list_elem_of_fmap in Hk as (v' & Hk & Hv'). exists v'.
      inversion Hk. auto.
    - intros (v & -> & Hv).
      assert (Hk : key v ∈ key <$> rs) by (rewrite Hperm; apply list_elem_of_fmap_2, Hv).
      apply list_elem_of_fmap in Hk as (v' & Hk & Hv'). exists v'.
      inversion Hk. auto. }
  apply Store_eq; apply map_eq; intros nm.
  - rewrite process_removed. destruct (decide _) as [Hin|Hout].
    + apply Hnames, list_elem_of_fmap in Hin as (v & -> & Hv).
      symmetry. apply (observable_None _ _ (Hfresh v Hv)).
    + apply process_written. rewrite <- Hnames. exact Hout.
  - rewrite user_removed. destruct (decide _) as [Hin|Hout].
    + rewrite Hperm in Hin. apply list_elem_of_fmap in Hin as (v & Hk & Hv).
      inversion Hk as [[Hn Hr]]. symmetry.
      apply (observable_None _ _ (Hfresh v Hv)). congruence.
    + apply user_written. rewrite <- Hperm. exact Hout.
Qed.

(** ** The store under [cleaner] and the registration loop *)

Lemma cleanerFrom_store X n :
  (∀ h nm r, failure X (h ++ [EvCleanEnv nm r]) = None) →
  ∀ w, n ≤ length (vars w) →
  store (cleanerFrom X n w).2
  = foldl removeEntry (store w) (reverse (applied (take n (vars w)))).
Proof.
  intros Hclean. induction n as [|i IH]; intros w Hn; [reflexivity|].
  destruct (lookup_lt_is_Some_2 (vars w) i ltac:(lia)) as [v Hv].
  cbn [cleanerFrom]. rewrite bind_run.
  rewrite (take_S_r _ _ _ Hv), applied_snoc, reverse_app.
  destruct (initialized v) eqn:Hi.
  - destruct (cleanAt_ok X i w v Hv Hi (Hclean _ _ _)) as (_ & Hs & Hvs & _).
    rewrite IH by (rewrite Hvs, length_alter; lia).
    rewrite Hvs, take_alter_ge, Hs by lia. reflexivity.
  - rewrite (cleanAt_skip X i w v Hv Hi). cbn [snd].
    rewrite IH by lia. reflexivity.
Qed.

Lemma cleaner_store X w :
  (∀ h nm r, failure X (h ++ [EvCleanEnv nm r]) = None) →
  store (cleaner X w).2 = foldl removeEntry (store w) (reverse (applied (vars w))).
Proof.
  intros Hclean. unfold cleaner. rewrite bind_run. cbn [gets fst snd].
  rewrite (cleanerFrom_store X _ Hclean w (le_n _)), take_ge by lia. reflexivity.
Qed.

(** [cleaner] touches no name outside the slice, whatever fails. *)
Lemma cleanerFrom_frame X n : ∀ w nm,
  n ≤ length (vars w) →
  (∀ v, v ∈ take n (vars w) → name v ≠ nm) →
  process (store (cleanerFrom X n w).2) !! nm = process (store w) !! nm ∧
  user (store (cleanerFrom X n w).2) !! nm = user (store w) !! nm.
Proof.
  induction n as [|i IH]; intros w nm Hn Hnm; [split; reflexivity|].
  destruct (lookup_lt_is_Some_2 (vars w) i ltac:(lia)) as [v Hv].
  cbn [cleanerFrom]. rewrite bind_run.
  rewrite (take_S_r _ _ _ Hv) in Hnm.
  assert (Hrest : ∀ v', v' ∈ take i (vars w) → name v' ≠ nm).
  { intros v' Hv'. apply Hnm, elem_of_app. left. exact Hv'. }
  assert (Hthis : name v ≠ nm).
  { apply Hnm, elem_of_app. right. apply list_elem_of_here. }
  destruct (initialized v) eqn:Hi.
  - destruct (failure X (trace w ++ [cleanEv v])) as [e|] eqn:Hf.
    + destruct (cleanAt_failed X i w v e Hv Hi Hf) as (_ & Hs & Hvs & _).
      destruct (IH (cleanAt X i w).2 nm) as [P U];
        [rewrite Hvs, length_alter; lia|rewrite Hvs, take_alter_ge by lia; exact Hrest|].
      rewrite P, U, Hs. split; reflexivity.
    + destruct (cleanAt_ok X i w v Hv Hi Hf) as (_ & Hs & Hvs & _).
      destruct (IH (cleanAt X i w).2 nm) as [P U];
        [rewrite Hvs, length_alter; lia|rewrite Hvs, take_alter_ge by lia; exact Hrest|].
      rewrite P, U, Hs. unfold store_remove. cbn [process user]. split.
      * apply lookup_delete_ne, Hthis.
      * destruct (register v); [apply lookup_delete_ne, Hthis|reflexivity].
  - rewrite (cleanAt_skip X i w v Hv Hi). cbn [snd]. apply IH; [lia|exact Hrest].
Qed.

Lemma cleaner_frame X w nm :
  nm ∉ name <$> vars w →
  process (store (cleaner X w).2) !! nm = process (store w) !! nm ∧
  user (store (cleaner X w).2) !! nm = user (store w) !! nm.
Proof.
  intros Hnm. unfold cleaner. rewrite bind_run. cbn [gets fst snd].
  apply cleanerFrom_frame; [lia|].
  intros v Hv Heq. apply Hnm. rewrite <- Heq. apply list_elem_of_fmap_2.
  rewrite take_ge in Hv by lia. exact Hv.
Qed.

Lemma midway_names vs0 i nm : nm ∉ name <$> vs0 → nm ∉ name <$> midway vs0 i.
Proof.
  intros Hnm Hin. apply list_elem_of_fmap in Hin as (v & -> & Hv).
  apply midway_elem in Hv as (v0 & Hv0 & Hname & _).
  apply Hnm. rewrite Hname. apply list_elem_of_fmap_2, Hv0.
Qed.

(** The registration loop touches no name outside the table, whatever
    fails. *)
Lemma registerFrom_frame X vs0 nm :
  nm ∉ name <$> vs0 →
  ∀ n i w, i + n = length vs0 → vars w = midway vs0 i →
  process (store (registerFrom X n i w).2) !! nm = process (store w) !! nm ∧
  user (store (registerFrom X n i w).2) !! nm = user (store w) !! nm.
Proof.
  intros Hnm. induction n as [|n IH]; intros i w Hlen Hvars; [split; reflexivity|].
  destruct (lookup_lt_is_Some_2 vs0 i ltac:(lia)) as [vi Hvi].
  assert (Hw : vars w !! i = Some vi) by (rewrite Hvars; apply (midway_lookup _ _ _ Hvi)).
  destruct (failure X (trace w ++ [prepareEv vi])) as [e|] eqn:Hf.
  - rewrite (registerFrom_step_failed X n i w vi e Hw Hf). cbn [snd].
    apply (cleaner_frame X (set_trace (trace w ++ [prepareEv vi]) w) nm).
    cbn [vars set_trace]. rewrite Hvars. apply midway_names, Hnm.
  - rewrite (registerFrom_step_ok X n i w vi Hw Hf).
    destruct (IH (S i) (set_vars (alter (set_initialized true) i (vars w))
      (set_store (store_write (name vi)
         (if translate vi then translatePath X (value vi) else value vi)
         (register vi) (store w)) (set_trace (trace w ++ [prepareEv vi]) w))))
      as [P U]; [lia|cbn; rewrite Hvars; apply (midway_step _ _ _ Hvi)|].
    rewrite P, U. cbn [store set_vars set_store store_write process user].
    assert (Hne : name vi ≠ nm).
    { intros Heq. apply Hnm. rewrite <- Heq. apply list_elem_of_fmap_2.
      eapply list_elem_of_lookup_2, Hvi. }
    split; [apply lookup_insert_ne, Hne|].
    destruct (register vi); [apply lookup_insert_ne, Hne|reflexivity].
Qed.

(** With removals that never fail, the store after the registration loop
    is the writes of the whole table when it succeeded, and otherwise the
    writes made before the failing one followed by the removal of every
    flagged entry, the last written first. *)
Lemma registerFrom_store X vs0 :
  Forall (λ v, initialized v = false) vs0 →
  (∀ h nm r, failure X (h ++ [EvCleanEnv nm r]) = None) →
  ∀ n i w, i + n = length vs0 → vars w = midway vs0 i →
  let r := registerFrom X n i w in
  (r.1 = None ∧ store r.2 = foldl (writeEntry X) (store w) (drop i vs0) ∧
   vars r.2 = set_initialized true <$> vs0)
  ∨
  (r.1 ≠ None ∧ vars r.2 = vs0 ∧
   ∃ k, k < n ∧
     store r.2
     = foldl removeEntry (foldl (writeEntry X) (store w) (take k (drop i vs0)))
         (reverse (set_initialized true <$> take (i + k) vs0))).
Proof.
  intros Hfresh Hclean. induction n as [|n IH]; intros i w Hlen Hvars r; subst r.
  - left. cbn [registerFrom ret fst snd]. rewrite drop_ge by lia.
    split; [reflexivity|]. split; [reflexivity|].
    rewrite Hvars. unfold midway. rewrite take_ge, drop_ge, app_nil_r by lia.
    reflexivity.
  - destruct (lookup_lt_is_Some_2 vs0 i ltac:(lia)) as [vi Hvi].
    assert (Hw : vars w !! i = Some vi) by (rewrite Hvars; apply (midway_lookup _ _ _ Hvi)).
    destruct (failure X (trace w ++ [prepareEv vi])) as [e|] eqn:Hf.
    + right. rewrite (registerFrom_step_failed X n i w vi e Hw Hf). cbn [fst snd].
      split; [discriminate|].
      set (w' := set_trace (trace w ++ [prepareEv vi]) w).
      destruct (cleaner_spec X w') as (_ & _ & _ & _ & _ & _ & E6 & _).
      split.
      { rewrite E6. cbn [vars w' set_trace]. rewrite Hvars. unfold midway.
        rewrite fmap_app, unregister_all, unregister_fresh.
        - apply take_drop.
        - apply Forall_drop, Hfresh.
        - apply Forall_take, Hfresh. }
      exists 0. split; [lia|].
      rewrite (cleaner_store X w' Hclean). cbn [store vars w' set_trace take foldl].
      rewrite Hvars, Nat.add_0_r. unfold midway, applied. rewrite filter_app.
      fold (applied (set_initialized true <$> take i vs0)) (applied (drop i vs0)).
      rewrite applied_registered, applied_fresh, app_nil_r by (apply Forall_drop, Hfresh).
      reflexivity.
    + rewrite (registerFrom_step_ok X n i w vi Hw Hf).
      set (w2 := set_vars _ _).
      destruct (IH (S i) w2) as [(R & St & V)|(R & V & k & Hk & St)];
        [lia|unfold w2; cbn; rewrite Hvars; apply (midway_step _ _ _ Hvi)| |].
      * left. split; [exact R|]. split; [|exact V].
        rewrite St, (drop_S _ _ _ Hvi). reflexivity.
      * right. split; [exact R|]. split; [exact V|].
        exists (S k). split; [lia|].
        rewrite St, (drop_S _ _ _ Hvi). cbn [take foldl].
        replace (i + S k) with (S i + k) by lia. reflexivity.
Qed.

Lemma key_reverse_registered (vs : list EnvVar) :
  key <$> reverse (set_initialized true <$> vs) ≡ₚ key <$> vs.
Proof. rewrite fmap_reverse, reverse_Permutation, key_registered. reflexivity. Qed.

(** With removals that never fail and a table that was not observable,
    [setVars] either succeeds, and then the store holds the writes of the
    table, or fails, and then the store is as it was. *)
Lemma setVarsOn_store X vs w :
  Forall (λ v, initialized v = false) vs →
  (∀ h nm r, failure X (h ++ [EvCleanEnv nm r]) = None) →
  (∀ v, v ∈ vs → ¬ observable v (store w)) →
  let r := setVarsOn X vs w in
  (r.1 = None ∧ store r.2 = foldl (writeEntry X) (store w) vs ∧
   vars r.2 = set_initialized true <$> vs)
  ∨ (r.1 ≠ None ∧ store r.2 = store w ∧ vars r.2 = vs).
Proof.
  intros Hfresh Hclean Hout r. subst r. rewrite setVarsOn_unfold.
  destruct (registerFrom_store X vs Hfresh Hclean (length vs) 0 (set_vars vs w))
    as [(R & St & V)|(R & V & k & Hk & St)]; [lia|reflexivity| |].
  - left. split; [exact R|]. split; [exact St|exact V].
  - right. split; [exact R|]. split; [|exact V].
    rewrite St. cbn [Nat.add drop store set_vars].
    apply write_remove_roundtrip; [apply key_reverse_registered|].
    intros v Hv. apply Hout. apply elem_of_take in Hv as (j & Hj & _).
    eapply list_elem_of_lookup_2, Hj.
Qed.

(** ** Traces and stores of [run] *)

Lemma teardown_effect X (revoke : bool) done w :
  let wr := if revoke then (cleaner X w).2 else w in
  let f := (runDeferred X (pendingCalls revoke done) w).2 in
  trace f = trace wr ++ (EvClose <$> done) ∧ store f = store wr ∧ vars f = vars wr.
Proof.
  unfold pendingCalls. destruct revoke; cbn [app].
  - rewrite runDeferred_cleaner.
    destruct (runDeferred_closes X done (cleaner X w).2) as (T & V & St).
    repeat split; assumption.
  - destruct (runDeferred_closes X done w) as (T & V & St).
    repeat split; assumption.
Qed.

Lemma trayEvents_isTray X hist : Forall isTray (trayEvents X hist).
Proof.
  unfold trayEvents. cbv zeta. repeat rewrite Forall_app. repeat split.
  - repeat constructor.
  - induction (delivered X) as [|e es IH]; [constructor|].
    destruct e; cbn; [constructor; [exact I|exact IH]..|exact IH].
  - repeat constructor.
  - destruct (failure X _); repeat constructor.
  - repeat constructor.
Qed.

Lemma published_table X cfg :
  GUI_SetEnv cfg = true → published X cfg = varsTable X cfg (nativeSSH cfg).
Proof. unfold published. intros ->. reflexivity. Qed.

Lemma published_none X cfg : GUI_SetEnv cfg = false → published X cfg = [].
Proof. unfold published. intros ->. reflexivity. Qed.

(** The four shapes of the trace of [run]. *)
Lemma run_traces X cfg w :
  let serves := EvServe <$> configured cfg in
  let pubs := prepareEv <$> published X cfg in
  let closes := EvClose <$> reverse (configured cfg) in
  ∃ evs,
    trace (run X cfg w).2 = trace w ++ evs ∧
    ((∃ served k e,
        evs = (EvServe <$> served) ++ EvServe k :: (EvClose <$> reverse served) ∧
        (run X cfg w).1 = Some e ∧
        ∃ tail, configured cfg = served ++ k :: tail)
     ∨ (∃ sv msg,
          GUI_SetEnv cfg = true ∧ evs = serves ++ sv ++ closes ∧
          Forall isEnv sv ∧ (run X cfg w).1 = Some msg)
     ∨ (∃ rev e,
          evs = serves ++ pubs ++ EvStart :: rev ++ closes ∧
          Forall isEnv rev ∧ (GUI_SetEnv cfg = false → rev = []) ∧
          failure X (trace w ++ serves ++ pubs ++ [EvStart]) = Some e ∧
          (run X cfg w).1 = Some e)
     ∨ (∃ rev,
          evs = serves ++ pubs
                  ++ EvStart :: trayEvents X (trace w ++ serves ++ pubs ++ [EvStart])
                  ++ rev ++ closes ∧
          Forall isEnv rev ∧ (GUI_SetEnv cfg = false → rev = []) ∧
          (run X cfg w).1 = None)).
Proof.
  intros serves pubs closes. subst serves closes.
  destruct (run_outcome X cfg w)
    as [(served & k & tail & e & Hks & Hfail & Heq)
       |(Hok & [(Henv & msg & Hm & Heq)|(w1 & revoke & Hw1 & Hrun)])].
  - rewrite Heq. cbn [fst snd].
    destruct (teardown_effect X false (reverse served)
                (set_trace (trace w ++ (EvServe <$> served) ++ [EvServe k]) w))
      as (T & _).
    eexists. split; [rewrite T; cbn [trace set_trace]; rewrite <- !app_assoc; reflexivity|].
    left. exists served, k, e. split; [reflexivity|]. split; [reflexivity|].
    exists tail. exact Hks.
  - rewrite Heq. cbn [fst snd].
    set (ws := set_trace (trace w ++ (EvServe <$> configured cfg)) w) in *.
    destruct (teardown_effect X false (reverse (configured cfg))
                (setVars X cfg (nativeSSH cfg) ws).2) as (T & _).
    destruct (setVarsOn_isEnv X (varsTable X cfg (nativeSSH cfg)) ws) as (sv & Tv & F).
    fold (setVars X cfg (nativeSSH cfg)) in Tv.
    eexists. split; [rewrite T, Tv; cbn [trace set_trace ws]; rewrite <- !app_assoc;
                     reflexivity|].
    right. left. exists sv, msg. repeat split; assumption.
  - set (ws := set_trace (trace w ++ (EvServe <$> configured cfg)) w) in *.
    assert (Hpub : trace w1 = trace w ++ (EvServe <$> configured cfg) ++ pubs ∧
                   (GUI_SetEnv cfg = false → revoke = false)).
    { destruct Hw1 as [(Henv & Hm & -> & ->)|(Henv & -> & ->)].
      - destruct (setVarsOn_None X _ ws (varsTable_fresh _ _ _) Hm) as (_ & T1 & _).
        fold (setVars X cfg (nativeSSH cfg)) in T1.
        split; [|congruence]. rewrite T1. unfold pubs.
        rewrite (published_table X cfg Henv). cbn [trace set_trace ws].
        rewrite <- app_assoc. reflexivity.
      - split; [|reflexivity]. unfold pubs. rewrite (published_none X cfg Henv).
        cbn. rewrite app_nil_r. reflexivity. }
    destruct Hpub as [T1 Hrev].
    assert (Htear : ∀ w2, ∃ rev,
              trace (runDeferred X (pendingCalls revoke (reverse (configured cfg))) w2).2
              = trace w2 ++ rev ++ (EvClose <$> reverse (configured cfg)) ∧
              Forall isEnv rev ∧ (GUI_SetEnv cfg = false → rev = [])).
    { intros w2.
      destruct (runDeferred_shape X revoke (reverse (configured cfg)) w2)
        as (rev & T & F & Hnil).
      exists rev. repeat split; [exact T|exact F|]. intros H. apply Hnil, Hrev, H. }
    destruct Hrun as [(e & Hs & Heq)|(Hs & Heq)]; rewrite Heq; cbn [fst snd].
    + destruct (Htear (set_trace (trace w1 ++ [EvStart]) w1)) as (rev & T & F & Hnil).
      eexists. split; [rewrite T; cbn [trace set_trace]; rewrite T1, <- !app_assoc;
                       reflexivity|].
      right. right. left. exists rev, e. repeat split; try assumption.
      rewrite <- Hs, T1, <- !app_assoc. reflexivity.
    + destruct (systray_Run_effect X (set_trace (trace w1 ++ [EvStart]) w1)) as (T3 & _).
      destruct (Htear (systray_Run X (set_trace (trace w1 ++ [EvStart]) w1)).2)
        as (rev & T & F & Hnil).
      eexists. split; [rewrite T, T3; cbn [trace set_trace]; rewrite T1, <- !app_assoc;
                       reflexivity|].
      right. right. right. exists rev. repeat split; assumption.
Qed.

(** ** What [run] does and never does *)

Lemma not_in_serves e (ks : list ConnectorKind) : serveCall e = None → e ∉ EvServe <$> ks.
Proof.
  intros He Hin. apply list_elem_of_fmap in Hin as (k & -> & _). discriminate.
Qed.

Lemma not_in_closes e (ks : list ConnectorKind) : closeCall e = None → e ∉ EvClose <$> ks.
Proof.
  intros He Hin. apply list_elem_of_fmap in Hin as (k & -> & _). discriminate.
Qed.

Lemma not_in_writes e (vs : list EnvVar) : prepareCall e = None → e ∉ prepareEv <$> vs.
Proof.
  intros He Hin. apply list_elem_of_fmap in Hin as (v & -> & _). discriminate.
Qed.

Lemma not_in_env e (l : list Event) : Forall isEnv l → ¬ isEnv e → e ∉ l.
Proof. intros F He Hin. rewrite Forall_forall in F. apply He, F, Hin. Qed.

Lemma not_in_tray e X hist : ¬ isTray e → e ∉ trayEvents X hist.
Proof.
  intros He Hin. pose proof (trayEvents_isTray X hist) as F.
  rewrite Forall_forall in F. apply He, F, Hin.
Qed.

Ltac absent :=
  let H := fresh "Hin" in
  intros H;
  repeat first
    [ rewrite elem_of_app in H | rewrite elem_of_cons in H | rewrite elem_of_nil in H ];
  repeat match type of H with _ ∨ _ => destruct H as [H|H] end;
  first
    [ discriminate H
    | match type of H with False => destruct H end
    | revert H; apply not_in_serves; reflexivity
    | revert H; apply not_in_closes; reflexivity
    | revert H; apply not_in_writes; reflexivity
    | revert H; apply not_in_tray; exact id
    | revert H; eapply not_in_env; [eassumption|exact id] ].

(** X8.  [run] calls gpgAgent.Start at most once, and only when every
    configured connector has been served and, with publication enabled, the
    whole table has been written: the calls before Start are exactly those
    Serve calls and those writes. *)
Theorem run_starts_after_serving_and_publishing X cfg (w : World) :
  ∃ evs,
    trace (run X cfg w).2 = trace w ++ evs ∧
    (EvStart ∈ evs →
     ∃ post,
       evs = (EvServe <$> configured cfg) ++ (prepareEv <$> published X cfg)
               ++ EvStart :: post ∧
       EvStart ∉ post).
Proof.
  destruct (run_traces X cfg w) as (evs & T & H). exists evs. split; [exact T|].
  destruct H as [(served & k & e & -> & _)
                |[(sv & msg & _ & -> & F & _)
                 |[(rev & e & -> & F & _)|(rev & -> & F & _)]]].
  - intros Hin. exfalso. revert Hin. absent.
  - intros Hin. exfalso. revert Hin. absent.
  - intros _. eexists. split; [reflexivity|]. absent.
  - intros _. eexists. split; [reflexivity|]. absent.
Qed.


(** How the store at the end of [run] comes about: it is the store at the
    start, or the store after a failed publication, or the store after the
    revocation of a successful one. *)
Lemma run_store_cases X cfg w :
  let table := varsTable X cfg (nativeSSH cfg) in
  store (run X cfg w).2 = store w
  ∨ (GUI_SetEnv cfg = true ∧
     ∃ ws, store ws = store w ∧
       (((setVarsOn X table ws).1 ≠ None ∧
         store (run X cfg w).2 = store (setVarsOn X table ws).2)
        ∨ ((setVarsOn X table ws).1 = None ∧
           ∃ w2,
             store w2 = store (setVarsOn X table ws).2 ∧
             vars w2 = vars (setVarsOn X table ws).2 ∧
             store (run X cfg w).2 = store (cleaner X w2).2))).
Proof.
  intros table.
  destruct (run_outcome X cfg w)
    as [(served & k & tail & e & Hks & Hfail & Heq)
       |(Hok & [(Henv & msg & Hm & Heq)|(w1 & revoke & Hw1 & Hrun)])].
  - left. rewrite Heq. cbn [snd].
    destruct (teardown_effect X false (reverse served)
                (set_trace (trace w ++ (EvServe <$> served) ++ [EvServe k]) w))
      as (_ & St & _).
    rewrite St. reflexivity.
  - right. split; [exact Henv|].
    exists (set_trace (trace w ++ (EvServe <$> configured cfg)) w). split; [|left].
    + reflexivity.
    + unfold setVars in Hm. fold table in Hm. split; [rewrite Hm; discriminate|].
      rewrite Heq. cbn [snd].
      destruct (teardown_effect X false (reverse (configured cfg))
                  (setVars X cfg (nativeSSH cfg)
                     (set_trace (trace w ++ (EvServe <$> configured cfg)) w)).2)
        as (_ & St & _).
      rewrite St. reflexivity.
  - assert (Hfinal : ∀ w2,
              store (runDeferred X (pendingCalls revoke (reverse (configured cfg))) w2).2
              = store (if revoke then (cleaner X w2).2 else w2)).
    { intros w2. apply teardown_effect. }
    assert (Hcases : ∃ w2, store w2 = store w1 ∧ vars w2 = vars w1 ∧
              store (run X cfg w).2 = store (if revoke then (cleaner X w2).2 else w2)).
    { destruct Hrun as [(e & _ & Heq)|(_ & Heq)]; rewrite Heq; cbn [snd];
        rewrite Hfinal.
      - exists (set_trace (trace w1 ++ [EvStart]) w1).
        split; [reflexivity|]. split; reflexivity.
      - exists (systray_Run X (set_trace (trace w1 ++ [EvStart]) w1)).2.
        destruct (systray_Run_effect X (set_trace (trace w1 ++ [EvStart]) w1))
          as (_ & _ & _ & St & V & _).
        split; [exact St|]. split; [exact V|reflexivity]. }
    destruct Hcases as (w2 & St2 & V2 & Hrunstore).
    destruct Hw1 as [(Henv & Hm & -> & ->)|(Henv & -> & ->)].
    + right. split; [exact Henv|].
      exists (set_trace (trace w ++ (EvServe <$> configured cfg)) w). split; [|right].
      * reflexivity.
      * split; [exact Hm|]. exists w2. repeat split; assumption.
    + left. rewrite Hrunstore, St2. reflexivity.
Qed.

Lemma varsTable_names X cfg native :
  name <$> varsTable X cfg native = publishedNames.
Proof. destruct native; reflexivity. Qed.

(** X5.  Whatever fails, [run] leaves every variable other than the five
    it publishes as it found it, in the process-scoped and in the
    user-scoped store. *)
Theorem run_touches_only_its_variables X cfg (w : World) (nm : string) :
  nm ∉ publishedNames →
  process (store (run X cfg w).2) !! nm = process (store w) !! nm ∧
  user (store (run X cfg w).2) !! nm = user (store w) !! nm.
Proof.
  intros Hnm.
  set (table := varsTable X cfg (nativeSSH cfg)).
  assert (Hout : nm ∉ name <$> table) by (unfold table; rewrite varsTable_names; exact Hnm).
  assert (Hset : ∀ ws,
            process (store (setVarsOn X table ws).2) !! nm = process (store ws) !! nm ∧
            user (store (setVarsOn X table ws).2) !! nm = user (store ws) !! nm).
  { intros ws. rewrite setVarsOn_unfold.
    apply (registerFrom_frame X table nm Hout (length table) 0 (set_vars table ws));
      reflexivity. }
  subst table.
  destruct (run_store_cases X cfg w)
    as [->|(_ & ws & Hws & [(_ & ->)|(Hm & w2 & St2 & V2 & ->)])].
  - split; reflexivity.
  - rewrite <- Hws. apply Hset.
  - destruct (setVarsOn_None X _ ws (varsTable_fresh _ _ _) Hm) as (_ & _ & V & _).
    destruct (cleaner_frame X w2 nm) as [P U].
    { rewrite V2, V. intros Hin. apply Hout.
      apply list_elem_of_fmap in Hin as (v & -> & Hv).
      apply list_elem_of_fmap in Hv as (v0 & -> & Hv0).
      apply (list_elem_of_fmap_2 name _ v0 Hv0). }
    rewrite P, U, St2, <- Hws. apply Hset.
Qed.

Lemma run_touches_only_its_variables_witness :
  process (store (run X_teardownFails cfg_env
                    (set_store (store_write "PATH" "C:\bin" true noStore) w0)).2)
    !! "PATH" = Some "C:\bin".
Proof.
  refine (eq_trans (proj1 (run_touches_only_its_variables X_teardownFails cfg_env
            (set_store (store_write "PATH" "C:\bin" true noStore) w0) "PATH" _)) _).
  - unfold publishedNames. rewrite !elem_of_cons, elem_of_nil.
    intros H. repeat (destruct H as [H|H]; [discriminate H|]). destruct H.
  - reflexivity.
Defined.

(** X10.  When no entry of the published table was observable before and
    no removal fails, [run] hands the store back exactly as it found it,
    whether it ends in an error or not: the variables it published are
    gone and nothing else has changed. *)
Theorem run_restores_store X cfg (w : World) :
  (∀ v, v ∈ varsTable X cfg (nativeSSH cfg) → ¬ observable v (store w)) →
  (∀ h nm r, failure X (h ++ [EvCleanEnv nm r]) = None) →
  store (run X cfg w).2 = store w.
Proof.
  intros Hout Hclean.
  destruct (run_store_cases X cfg w)
    as [->|(_ & ws & Hws & [(Hm & ->)|(Hm & w2 & St2 & V2 & ->)])];
    [reflexivity| |];
    (destruct (setVarsOn_store X _ ws (varsTable_fresh X cfg (nativeSSH cfg)) Hclean)
       as [(R & St & V)|(R & St & V)];
       [rewrite Hws; exact Hout| |]); try congruence.
  rewrite (cleaner_store X w2 Hclean), V2, V, St2, St, applied_registered, Hws.
  apply write_remove_roundtrip; [apply key_reverse_registered|exact Hout].
Qed.

Lemma run_restores_store_witness :
  store (run X_ok cfg_env w0).2 = store w0.
Proof.
  apply (run_restores_store X_ok cfg_env w0).
  - intros v _ [[x Hx]|[_ [x Hx]]];
      change ((∅ : gmap string string) !! name v = Some x) in Hx;
      rewrite lookup_empty in Hx; discriminate.
  - intros h nm r. unfold X_ok, externals, failing. cbn [failure].
    rewrite last_snoc. reflexivity.
Defined.

(** X11.  With publication disabled, [run] makes no write and no removal
    and leaves the store as it found it, whatever fails. *)
Theorem run_without_publication X cfg (w : World) :
  GUI_SetEnv cfg = false →
  store (run X cfg w).2 = store w ∧
  ∃ evs,
    trace (run X cfg w).2 = trace w ++ evs ∧
    (∀ n v r t, EvPrepareEnv n v r t ∉ evs) ∧
    (∀ n r, EvCleanEnv n r ∉ evs).
Proof.
  intros Henv. split.
  - destruct (run_store_cases X cfg w) as [->|(Ht & _)]; [reflexivity|congruence].
  - destruct (run_traces X cfg w) as (evs & T & H). exists evs. split; [exact T|].
    rewrite (published_none X cfg Henv) in H.
    destruct H as [(served & k & e & -> & _)
                  |[(sv & msg & Ht & _)
                   |[(rev & e & -> & _ & Hnil & _)|(rev & -> & _ & Hnil & _)]]];
      try congruence; try rewrite (Hnil Henv); split; intros; absent.
Qed.

Lemma run_without_publication_witness :
  store (run X_ok
           {| GUI_PipeName := "pipe"; GUI_Home := "home"; GUI_ExtraPort := 4321;
              GUI_SetEnv := false; GUI_SSH := "native"; GUI_Clp_Keys := [];
              GUI_Clp_Port := 0; GUI_Clp_LE := ""; GPG_Home := "gnupg" |} w0).2
  = store w0.
Proof.
  refine (proj1 (run_without_publication X_ok _ w0 _)). reflexivity.
Defined.

(** [setVarsOn] returns nil exactly when no write fails. *)
Lemma setVarsOn_nil_iff X (vs : list EnvVar) w :
  Forall (λ v, initialized v = false) vs →
  (setVarsOn X vs w).1 = None ↔
  ∀ j, j < length vs →
    failure X (trace w ++ (prepareEv <$> take (S j) vs)) = None.
Proof.
  intros Hfresh. split.
  - intros Hnone. apply (setVarsOn_None X vs w Hfresh Hnone).
  - intros Hall. rewrite setVarsOn_unfold.
    apply (registerFrom_ok X vs (length vs) 0 (set_vars vs w));
      [reflexivity|reflexivity|exact Hall].
Qed.

(** X3.  [setVars] returns nil exactly when none of its five writes
    fails; failures of removals play no part. *)
Theorem setVars_nil_iff_no_write_fails X cfg native (w : World) :
  (setVars X cfg native w).1 = None ↔
  ∀ j, j < 5 →
    failure X (trace w ++ (prepareEv <$> take (S j) (varsTable X cfg native))) = None.
Proof.
  unfold setVars.
  rewrite (setVarsOn_nil_iff X _ w (varsTable_fresh X cfg native)).
  destruct native; reflexivity.
Qed.

(** X1.  Publication followed by revocation is a round trip on the
    store: when no entry of the table was observable before, [setVars]
    succeeds and no removal fails, the closure it returns hands the store
    back exactly as [setVars] found it, with every flag false again. *)
Theorem setVars_then_cleaner_roundtrip X cfg native (w : World) :
  (∀ v, v ∈ varsTable X cfg native → ¬ observable v (store w)) →
  (∀ h nm r, failure X (h ++ [EvCleanEnv nm r]) = None) →
  (setVars X cfg native w).1 = None →
  let w1 := (setVars X cfg native w).2 in
  let w2 := (cleaner X w1).2 in
  store w1 = foldl (writeEntry X) (store w) (varsTable X cfg native) ∧
  store w2 = store w ∧
  vars w2 = varsTable X cfg native.
Proof.
  intros Hout Hclean Hnone w1 w2. subst w1 w2. unfold setVars in *.
  destruct (setVarsOn_store X _ w (varsTable_fresh X cfg native) Hclean Hout)
    as [(_ & St & V)|(R & _)]; [|congruence].
  split; [exact St|]. split.
  - rewrite (cleaner_store X _ Hclean), V, St, applied_registered.
    apply write_remove_roundtrip; [apply key_reverse_registered|exact Hout].
  - destruct (cleaner_spec X (setVarsOn X (varsTable X cfg native) w).2)
      as (evs & _ & _ & _ & _ & _ & V' & _).
    rewrite V', V, <- list_fmap_compose.
    rewrite <- (list_fmap_id (varsTable X cfg native)) at 2.
    apply Forall_fmap_ext_1.
    eapply Forall_impl; [apply (varsTable_fresh X cfg native)|].
    intros v Hv. apply set_false_true_id, Hv.
Qed.

Lemma setVars_then_cleaner_roundtrip_witness :
  store (cleaner X_ok (setVars X_ok cfg_env false w0).2).2 = store w0.
Proof.
  refine (proj1 (proj2 (setVars_then_cleaner_roundtrip X_ok cfg_env false w0 _ _ _))).
  - intros v _ [[x Hx]|[_ [x Hx]]];
      change ((∅ : gmap string string) !! name v = Some x) in Hx;
      rewrite lookup_empty in Hx; discriminate.
  - intros h nm r. unfold X_ok, externals, failing. cbn [failure].
    rewrite last_snoc. reflexivity.
  - reflexivity.
Defined.

(** X2.  When no entry of the table was observable before and no removal
    fails, a failed [setVars] leaves the store exactly as it found it. *)
Theorem setVars_failure_restores_store X cfg native (w : World) :
  (∀ v, v ∈ varsTable X cfg native → ¬ observable v (store w)) →
  (∀ h nm r, failure X (h ++ [EvCleanEnv nm r]) = None) →
  (setVars X cfg native w).1 ≠ None →
  store (setVars X cfg native w).2 = store w.
Proof.
  intros Hout Hclean Hfail. unfold setVars in *.
  destruct (setVarsOn_store X _ w (varsTable_fresh X cfg native) Hclean Hout)
    as [(R & _)|(_ & St & _)]; [congruence|exact St].
Qed.

Lemma setVars_failure_restores_store_witness :
  store (setVars X_homeWriteFails cfg_env true w0).2 = store w0.
Proof.
  apply (setVars_failure_restores_store X_homeWriteFails cfg_env true w0).
  - intros v _ [[x Hx]|[_ [x Hx]]];
      change ((∅ : gmap string string) !! name v = Some x) in Hx;
      rewrite lookup_empty in Hx; discriminate.
  - intros h nm r. unfold X_homeWriteFails, externals, failing. cbn [failure].
    rewrite last_snoc. reflexivity.
  - discriminate.
Defined.

(** X4.  A [run] that is entered with [clipCancel] set returns nil
    exactly when no [Serve] of the configured connectors fails, no write
    of the publication fails (when publication is enabled) and [Start]
    does not fail.  Failures of [Stop], of the removals and of [Close]
    never show in the result. *)
Theorem run_nil_iff_setup_succeeds X cfg (w : World) :
  clipCancelSet w →
  let serves := EvServe <$> configured cfg in
  (run X cfg w).1 = None ↔
  (∀ j, j < length (configured cfg) →
     failure X (trace w ++ (EvServe <$> take (S j) (configured cfg))) = None) ∧
  (∀ j, j < length (published X cfg) →
     failure X (trace w ++ serves ++ (prepareEv <$> take (S j) (published X cfg))) = None) ∧
  failure X (trace w ++ serves ++ (prepareEv <$> published X cfg) ++ [EvStart]) = None.
Proof.
  intros _ serves. subst serves.
  set (ws := set_trace (trace w ++ (EvServe <$> configured cfg)) w).
  assert (Hpub : GUI_SetEnv cfg = true →
            (setVars X cfg (nativeSSH cfg) ws).1 = None ↔
            ∀ j, j < length (published X cfg) →
              failure X (trace w ++ (EvServe <$> configured cfg)
                           ++ (prepareEv <$> take (S j) (published X cfg))) = None).
  { intros Henv. rewrite (published_table X cfg Henv). unfold setVars.
    rewrite (setVarsOn_nil_iff X _ ws (varsTable_fresh X cfg (nativeSSH cfg))).
    unfold ws. cbn [trace set_trace].
    split; intros H j Hj; specialize (H j Hj);
      [rewrite <- app_assoc in H|rewrite <- app_assoc]; exact H. }
  assert (Htrace : GUI_SetEnv cfg = true →
            (setVars X cfg (nativeSSH cfg) ws).1 = None →
            trace (setVars X cfg (nativeSSH cfg) ws).2
            = trace w ++ (EvServe <$> configured cfg) ++ (prepareEv <$> published X cfg)).
  { intros Henv Hm. rewrite (published_table X cfg Henv). unfold setVars in *.
    destruct (setVarsOn_None X _ ws (varsTable_fresh X cfg (nativeSSH cfg)) Hm)
      as (_ & T & _).
    rewrite T. unfold ws. cbn [trace set_trace]. rewrite <- app_assoc. reflexivity. }
  subst ws.
  destruct (run_outcome X cfg w)
    as [(served & k & tail & e & Hks & Hfail & Heq)
       |(Hok & [(Henv & msg & Hm & Heq)|(w1 & revoke & Hw1 & Hrun)])].
  - rewrite Heq. cbn [fst]. split; [discriminate|]. intros (Hall & _).
    specialize (Hall (length served)).
    assert (Ht : take (S (length served)) (served ++ k :: tail) = served ++ [k]).
    { change (k :: tail) with ([k] ++ tail). rewrite app_assoc.
      apply take_app_length'. rewrite length_app. cbn. lia. }
    rewrite Hks, length_app, Ht, fmap_app in Hall. cbn [length] in Hall.
    change (EvServe <$> [k]) with [EvServe k] in Hall.
    rewrite Hfail in Hall. assert (Some e = None) by (apply Hall; lia). discriminate.
  - rewrite Heq. cbn [fst]. split; [discriminate|]. intros (_ & Hwrites & _).
    apply (Hpub Henv) in Hwrites. congruence.
  - assert (Hstart : trace w1 ++ [EvStart]
              = trace w ++ (EvServe <$> configured cfg)
                  ++ (prepareEv <$> published X cfg) ++ [EvStart] ∧
              ((∀ j, j < length (published X cfg) →
                  failure X (trace w ++ (EvServe <$> configured cfg)
                               ++ (prepareEv <$> take (S j) (published X cfg))) = None))).
    { destruct Hw1 as [(Henv & Hm & -> & _)|(Henv & -> & _)].
      - split; [|apply (Hpub Henv), Hm].
        rewrite (Htrace Henv Hm), <- !app_assoc. reflexivity.
      - rewrite (published_none X cfg Henv). split; [|intros j Hj; inversion Hj].
        cbn [trace set_trace fmap list_fmap app].
        rewrite <- app_assoc. reflexivity. }
    destruct Hstart as [Hstart Hwrites]. rewrite <- Hstart.
    destruct Hrun as [(e & Hf & Heq)|(Hf & Heq)]; rewrite Heq; cbn [fst].
    + split; [discriminate|]. intros (_ & _ & Hs). congruence.
    + split; [|reflexivity]. intros _. split; [exact Hok|]. split; [exact Hwrites|exact Hf].
Qed.

Lemma run_nil_iff_setup_succeeds_witness :
  (run X_teardownFails cfg_env (clipServe X_teardownFails cfg_env w0).2).1 = None.
Proof.
  apply (run_nil_iff_setup_succeeds X_teardownFails cfg_env
           (clipServe X_teardownFails cfg_env w0).2).
  - discriminate.
  - split; [|split].
    + intros j Hj. change (length (configured cfg_env)) with 5 in Hj.
      do 5 (destruct j as [|j]; [reflexivity|]). lia.
    + intros j Hj. change (length (published X_teardownFails cfg_env)) with 5 in Hj.
      do 5 (destruct j as [|j]; [reflexivity|]). lia.
    + reflexivity.
Defined.

(** ** More on the clipboard service *)

Lemma string_pair_ind (P : string → Prop) :
  P EmptyString →
  (∀ c, P (String c EmptyString)) →
  (∀ a b s, P s → P (String a (String b s))) →
  ∀ s, P s.
Proof.
  intros H0 H1 H2 s.
  assert (H : P s ∧ ∀ c, P (String c s)); [|apply H].
  induction s as [|c s [IHs IHc]].
  - split; [exact H0|exact H1].
  - split; [apply IHc|]. intros a. apply H2, IHs.
Qed.

Lemma fromHexChar_isHexDigit c :
  isHexDigit c = match Hex.fromHexChar c with Some _ => true | None => false end.
Proof.
  assert (H : hexDigitTable_ok = true) by (vm_compute; reflexivity).
  apply Bool.eqb_prop, (everyByte_spec _ H c).
Qed.

Lemma fromHexChar_lowerByte c :
  Hex.fromHexChar (GoStrings.lowerByte c) = Hex.fromHexChar c.
Proof.
  assert (H : lowerDigitTable_ok = true) by (vm_compute; reflexivity).
  pose proof (everyByte_spec _ H c) as Hc. cbv beta in Hc.
  destruct (Hex.fromHexChar (GoStrings.lowerByte c)) as [x|],
           (Hex.fromHexChar c) as [y|]; cbn in Hc; try discriminate; [|reflexivity].
  apply N.eqb_eq in Hc. congruence.
Qed.

(** Decoding succeeds with [n] bytes exactly on [2 * n] hex digits. *)
Lemma Decode_ok : ∀ s n,
  (Hex.Decode s).2 = None ∧ length (Hex.Decode s).1 = n ↔
  allHexDigits s = true ∧ String.length s = 2 * n.
Proof.
  induction s as [|c|a b s IH] using string_pair_ind; intros n.
  - cbn. split; intros [_ H]; (split; [reflexivity|lia]).
  - cbn [Hex.Decode]. destruct (Hex.fromHexChar c); cbn; split; intros [H1 H2];
      try discriminate H1; lia.
  - cbn [Hex.Decode allHexDigits].
    rewrite !fromHexChar_isHexDigit.
    destruct (Hex.fromHexChar a) as [x|];
      [|cbn; split; intros [H _]; discriminate H].
    destruct (Hex.fromHexChar b) as [y|];
      [|cbn; split; intros [H _]; discriminate H].
    destruct (Hex.Decode s) as [bs err]. cbn [fst snd andb length String.length] in *.
    destruct n as [|n]; [split; intros [_ H]; lia|].
    specialize (IH n).
    split; intros [H1 H2].
    + destruct IH as [IH _]. destruct IH as [Ha Hl]; [split; [exact H1|lia]|].
      split; [exact Ha|lia].
    + destruct IH as [_ IH]. destruct IH as [Ha Hl]; [split; [exact H1|lia]|].
      split; [exact Ha|lia].
Qed.

(** Lower-casing a key changes neither the bytes decoded nor whether the
    decoding fails. *)
Lemma Decode_lower : ∀ s,
  (Hex.Decode (GoStrings.ToLowerASCII s)).1 = (Hex.Decode s).1 ∧
  ((Hex.Decode (GoStrings.ToLowerASCII s)).2 = None ↔ (Hex.Decode s).2 = None).
Proof.
  induction s as [|c|a b s [IH1 IH2]] using string_pair_ind.
  - split; reflexivity.
  - cbn [GoStrings.ToLowerASCII Hex.Decode]. rewrite fromHexChar_lowerByte.
    destruct (Hex.fromHexChar c); cbn; split; try reflexivity; split; discriminate.
  - cbn [GoStrings.ToLowerASCII Hex.Decode]. rewrite !fromHexChar_lowerByte.
    destruct (Hex.fromHexChar a) as [x|];
      [|cbn; split; [reflexivity|split; discriminate]].
    destruct (Hex.fromHexChar b) as [y|];
      [|cbn; split; [reflexivity|split; discriminate]].
    destruct (Hex.Decode s) as [bs err],
             (Hex.Decode (GoStrings.ToLowerASCII s)) as [bs' err'].
    cbn [fst snd] in *. split; [congruence|exact IH2].
Qed.

Lemma validKey_lower k : validKey (GoStrings.ToLowerASCII k) = validKey k.
Proof.
  unfold validKey, Hex.DecodeString.
  destruct (Decode_lower k) as [H1 H2]. rewrite H1. f_equal.
  apply bool_decide_ext, H2.
Qed.

Lemma addKey_lower X m k : addKey X m (GoStrings.ToLowerASCII k) = addKey X m k.
Proof.
  unfold addKey. rewrite validKey_lower. unfold Hex.DecodeString.
  rewrite (proj1 (Decode_lower k)). reflexivity.
Qed.

(** The exact effect of the key loop. *)
Lemma clipKeys_effect X : ∀ keys i pkeys w,
  clipKeys X i keys pkeys w
  = (foldl (addKey X) pkeys keys, set_trace (trace w ++ keyLogs X i keys) w).
Proof.
  induction keys as [|k keys IH]; intros i pkeys w.
  - cbn. rewrite app_nil_r. destruct w; reflexivity.
  - rewrite clipKeys_step, IH. cbn [foldl keyLogs trace set_trace].
    rewrite <- app_assoc. reflexivity.
Qed.

(** The exact effect of [clipServe]. *)
Lemma clipServe_effect X cfg w :
  let keys := GUI_Clp_Keys cfg in
  let pkeys := foldl (addKey X) ∅ keys in
  let w1 := (clipServe X cfg w).2 in
  trace w1 = trace w ++ keyLogs X 0 keys ++
    (if (0 <? size pkeys)%nat
     then [EvClipServe (GUI_Clp_Port cfg) (GUI_Clp_LE cfg) pkeys compatibleMagic]
     else []) ∧
  clipHelp w1 = (if (0 <? size pkeys)%nat then servingHelp cfg pkeys else clipHelp w) ∧
  store w1 = store w ∧ vars w1 = vars w ∧ lock w1 = lock w ∧
  clipCtx w1 = Some true.
Proof.
  intros keys pkeys w1.
  subst w1. unfold clipServe. rewrite bind_run. cbv beta.
  change (modify (set_clipCtx (Some true)) w).2 with (set_clipCtx (Some true) w).
  fold keys.
  destruct (0 <? length keys)%nat eqn:Hlen.
  - rewrite bind_run. cbv beta. rewrite clipKeys_effect. cbn [fst snd]. fold pkeys.
    destruct (0 <? size pkeys)%nat.
    + rewrite bind_run. cbn. rewrite <- app_assoc. repeat split; reflexivity.
    + cbn. rewrite app_nil_r. repeat split; reflexivity.
  - assert (Hnil : keys = []) by (destruct keys; [reflexivity|discriminate]).
    subst pkeys. rewrite Hnil. cbn. rewrite app_nil_r. repeat split; reflexivity.
Qed.

Lemma validKey_hex64 k : validKey k = hex64 k.
Proof.
  assert (H : validKey k = true ↔ hex64 k = true).
  { unfold validKey, hex64, Hex.DecodeString.
    rewrite !andb_true_iff, bool_decide_eq_true, !Nat.eqb_eq, (Decode_ok k 32).
    split; intros [H1 H2]; (split; [lia|assumption]) || (split; [assumption|lia]). }
  destruct (validKey k), (hex64 k); try reflexivity.
  - symmetry. apply H. reflexivity.
  - apply H. reflexivity.
Qed.

Lemma keyLogs_lines X : ∀ (keys : list string) i,
  length (keyLogs X i keys) = length keys ∧
  ∀ j k, keys !! j = Some k → keyLogs X i keys !! j = Some (keyLine X (i + j) k).
Proof.
  induction keys as [|k keys IH]; intros i.
  - split; [reflexivity|]. intros j k Hk. inversion Hk.
  - destruct (IH (S i)) as [L N]. split; [cbn; rewrite L; reflexivity|].
    intros [|j] k' Hk'; cbn in Hk'.
    + inversion Hk'; subst k'. rewrite Nat.add_0_r.
      cbn [keyLogs]. unfold keyLog, keyLine. rewrite validKey_hex64. reflexivity.
    + cbn [keyLogs]. change (keyLogs X (S i) keys !! j = Some (keyLine X (i + S j) k')).
      rewrite (N j k' Hk'). do 2 f_equal. lia.
Qed.

(** X12.  The key loop of [clipServe] logs exactly one line for every
    configured key, in the order of the configuration: for a key written
    as 64 hexadecimal digits the key as configured with the hex form of
    its hash, for any other key the rejection with the index of the key.
    It makes no other call and leaves the store, the slice, the help text
    and the lock alone. *)
Theorem clipKeys_logs_every_key X (keys : list string) i pkeys (w : World) :
  let w1 := (clipKeys X i keys pkeys w).2 in
  ∃ logs,
    trace w1 = trace w ++ logs ∧
    length logs = length keys ∧
    (∀ j k, keys !! j = Some k → logs !! j = Some (keyLine X (i + j) k)) ∧
    store w1 = store w ∧ vars w1 = vars w ∧ clipHelp w1 = clipHelp w ∧
    lock w1 = lock w.
Proof.
  intros w1. subst w1. rewrite clipKeys_effect. cbn [snd].
  exists (keyLogs X i keys). split; [reflexivity|].
  destruct (keyLogs_lines X keys i) as [L N].
  split; [exact L|]. split; [exact N|]. repeat split.
Qed.

(** X13.  The key loop of [clipServe] keeps a key exactly when it is
    written as 64 hexadecimal digits, in either case: the map it gives is
    the map it was given with, for every such key in turn, the decoded key
    put under its hash, and with nothing for any other key. *)
Theorem clipKeys_accepts_64_hex_digits X (keys : list string) i pkeys (w : World) :
  (clipKeys X i keys pkeys w).1 = foldl (keepKey X) pkeys keys.
Proof.
  rewrite clipKeys_effect. cbn [fst]. revert pkeys.
  induction keys as [|k keys IH]; intros pkeys; [reflexivity|].
  cbn [foldl]. rewrite IH. f_equal.
  unfold addKey, keepKey. rewrite validKey_hex64. reflexivity.
Qed.

(** X14.  The map [clipServe] builds does not depend on the case in which
    the keys are written: lower-casing every configured key gives the same
    map, and a key followed by its lower-case spelling takes one place in
    it. *)
Theorem clipKeys_ignores_case X (keys : list string) i pkeys (w : World) :
  (clipKeys X i (GoStrings.ToLowerASCII <$> keys) pkeys w).1
  = (clipKeys X i keys pkeys w).1 ∧
  ∀ k, (clipKeys X i [k; GoStrings.ToLowerASCII k] pkeys w).1
       = (clipKeys X i [k] pkeys w).1.
Proof.
  rewrite !clipKeys_effect. cbn [fst]. split.
  - revert pkeys.
    induction keys as [|k keys IH]; intros pkeys; [reflexivity|].
    cbn [fmap list_fmap foldl]. rewrite addKey_lower. apply IH.
  - intros k. rewrite !clipKeys_effect. cbn [fst foldl].
    rewrite addKey_lower. unfold addKey.
    destruct (validKey k); [apply insert_insert_eq|reflexivity].
Qed.

(** X15.  The key loop adds at most one entry to the map for every
    accepted key, and none for a rejected one. *)
Theorem clipKeys_counts_accepted X (keys : list string) i pkeys (w : World) :
  size (clipKeys X i keys pkeys w).1
  ≤ size pkeys + length (filter (λ k, validKey k = true) keys).
Proof.
  rewrite clipKeys_effect. cbn [fst]. revert pkeys.
  induction keys as [|k keys IH]; intros pkeys; [cbn; lia|].
  cbn [foldl]. etrans; [apply IH|].
  unfold addKey at 1. rewrite filter_cons.
  destruct (validKey k) eqn:Hv.
  - rewrite decide_True by reflexivity. cbn [length].
    destruct (pkeys !! Sum256 X (Hex.DecodeString k).1) as [old|] eqn:Hl.
    + rewrite map_size_insert_Some by (eexists; exact Hl). lia.
    + rewrite map_size_insert_None by exact Hl. lia.
  - rewrite decide_False by discriminate. lia.
Qed.

(** ** The program entry *)

Lemma newEvents_app w w' (evs : list Event) :
  trace w' = trace w ++ evs → newEvents w w' = MInner <$> evs.
Proof. unfold newEvents. intros ->. rewrite drop_app_length. reflexivity. Qed.

Lemma keyLogs_isClipEvent X : ∀ keys i, Forall isClipEvent (keyLogs X i keys).
Proof.
  induction keys as [|k keys IH]; intros i; [constructor|].
  cbn [keyLogs]. constructor; [|apply IH].
  unfold keyLog, foundKeyLog, badKeyLog. destruct (validKey k); exact I.
Qed.

Lemma clipServe_extends X cfg w :
  ∃ evs, trace (clipServe X cfg w).2 = trace w ++ evs ∧ Forall isClipEvent evs ∧
         store (clipServe X cfg w).2 = store w.
Proof.
  destruct (clipServe_effect X cfg w) as (T & _ & St & _).
  eexists. split; [exact T|]. split; [|exact St].
  apply Forall_app. split; [apply keyLogs_isClipEvent|].
  destruct (0 <? size _)%nat; repeat constructor.
Qed.

Lemma run_extends X cfg w :
  ∃ rest,
    trace (run X cfg w).2 = trace w ++ EvServe ConnectorSockAgentCygwinSSH :: rest.
Proof.
  destruct (run_traces X cfg w) as (evs & T & H). rewrite T.
  destruct H as [(served & k & e & -> & _ & tail & Hks)
                |[(sv & msg & _ & -> & _)
                 |[(rev & e & -> & _)|(rev & -> & _)]]];
    try (eexists; unfold configured; cbn [fmap list_fmap app]; reflexivity).
  unfold configured in Hks. cbn [app] in Hks.
  destruct served as [|k0 served]; cbn [app] in Hks; inversion Hks; subst;
    eexists; cbn [fmap list_fmap app]; reflexivity.
Qed.

(** The five ways through [main]: an error before the lock, the help
    text, a second instance, an error under the lock, and the run. *)
Lemma main_cases S0 X w :
  let r := main S0 X w in
  let lockEv := MCreateLockFile (lockName S0) in
  (∃ pre e,
     outcomeOf r = Exited 1 ∧ callsOf r = pre ++ [MShowOKMessage MsgError e] ∧
     Forall isCheck pre ∧ worldOf r = w)
  ∨ (outcomeOf r = Exited 0 ∧
     callsOf r = [MNewLogWriter false;
                  MShowOKMessage MsgInformation (buildUsageString S0)] ∧
     worldOf r = w)
  ∨ (∃ pre,
       outcomeOf r = Exited 0 ∧
       callsOf r = pre ++ [lockEv; MInner (EvLog "Application already running")] ∧
       Forall isCheck pre ∧ CreateLockFile S0 (lockName S0) ≠ None ∧
       trace (worldOf r) = trace w ++ [EvLog "Application already running"] ∧
       store (worldOf r) = store w)
  ∨ (∃ pre clip mid e,
       outcomeOf r = Exited 1 ∧
       callsOf r = pre ++ [lockEv] ++ (MInner <$> clip) ++ MKillRunningAgent :: mid
                     ++ [MShowOKMessage MsgError e] ∧
       Forall isCheck pre ∧ Forall isClipEvent clip ∧
       (mid = [] ∨ ∃ cfg debug, mid = [MNewAgent cfg debug]) ∧
       CreateLockFile S0 (lockName S0) = None ∧
       trace (worldOf r) = trace w ++ clip ∧ store (worldOf r) = store w)
  ∨ (∃ pre clip cfg debug,
       let w1 := (clipServe X cfg w).2 in
       let res := run X cfg w1 in
       outcomeOf r = Returned ∧
       callsOf r = pre ++ [lockEv] ++ (MInner <$> clip)
                     ++ [MKillRunningAgent; MNewAgent cfg debug]
                     ++ newEvents w1 res.2
                     ++ match res.1 with
                        | Some e => [MShowOKMessage MsgError e]
                        | None => []
                        end
                     ++ [MInstClose; MRemove (lockName S0)] ∧
       Forall isCheck pre ∧ Forall isClipEvent clip ∧
       CreateLockFile S0 (lockName S0) = None ∧
       trace w1 = trace w ++ clip ∧ store w1 = store w ∧
       worldOf r = res.2).
Proof.
  intros r lockEv. subst r lockEv. unfold main.
  destruct (Getopt S0) as [flags|e].
  2:{ left. exists [MNewLogWriter false], e. repeat split. repeat constructor. }
  destruct (optHelp flags).
  { right. left. repeat split. }
  destruct (Load S0 (configName S0 flags)) as [[cfg dbg]|e].
  2:{ left. exists [MNewLogWriter false; MLoad (configName S0 flags)], e.
      repeat split. repeat constructor. }
  set (debug := if optDebug flags then optDebug flags else dbg).
  unfold mainLoaded.
  destruct (MkdirAll S0 (GUI_Home cfg)) as [e|].
  { left. eexists _, e. unfold exitWithError. split; [reflexivity|].
    split; [reflexivity|]. split; [|reflexivity]. cbn. repeat constructor. }
  destruct (IsProperWindowsVer S0) as [ok [e|]].
  { left. eexists _, e. unfold exitWithError.
    destruct ok; (split; [reflexivity|]);
      (split; [reflexivity|]); (split; [|reflexivity]); cbn; repeat constructor. }
  destruct ok.
  2:{ left. eexists _, _. unfold exitWithError. split; [reflexivity|].
      split; [reflexivity|]. split; [|reflexivity]. cbn. repeat constructor. }
  set (pre := (([MNewLogWriter false] ++ [MLoad (configName S0 flags)])
                 ++ [MNewLogWriter debug; MMkdirAll (GUI_Home cfg)])
                ++ [MIsProperWindowsVer]).
  assert (Hpre : Forall isCheck pre) by (subst pre; cbn; repeat constructor).
  destruct (CreateLockFile S0 (lockName S0)) as [e|] eqn:Hlock.
  { right. right. left. exists pre. split; [reflexivity|].
    split; [|split; [exact Hpre|split; [discriminate|split; reflexivity]]].
    unfold callsOf. cbn [fst snd].
    rewrite (newEvents_app w _ [EvLog "Application already running"]) by reflexivity.
    rewrite <- app_assoc. reflexivity. }
  unfold mainLocked.
  destruct (clipServe_extends X cfg w) as (clip & Tc & Fc & Sc).
  rewrite (newEvents_app w _ clip Tc).
  destruct (KillRunningAgent S0) as [e|].
  { right. right. right. left. exists pre, clip, [], e. unfold exitWithError.
    split; [reflexivity|]. split; [unfold callsOf; cbn [fst snd]; rewrite <- !app_assoc;
                                   reflexivity|].
    split; [exact Hpre|]. split; [exact Fc|]. split; [left; reflexivity|].
    split; [reflexivity|]. split; [exact Tc|exact Sc]. }
  destruct (NewAgent S0 cfg debug) as [e|].
  { right. right. right. left. exists pre, clip, [MNewAgent cfg debug], e.
    unfold exitWithError.
    split; [reflexivity|]. split; [unfold callsOf; cbn [fst snd]; rewrite <- !app_assoc;
                                   reflexivity|].
    split; [exact Hpre|]. split; [exact Fc|].
    split; [right; exists cfg, debug; reflexivity|].
    split; [reflexivity|]. split; [exact Tc|exact Sc]. }
  right. right. right. right. exists pre, clip, cfg, debug. cbv zeta.
  split; [reflexivity|].
  split; [|split; [exact Hpre|split; [exact Fc|split; [reflexivity|
           split; [exact Tc|split; [exact Sc|reflexivity]]]]]].
  unfold callsOf. cbn [fst snd].
  destruct (run X cfg (clipServe X cfg w).2).1; rewrite <- !app_assoc; reflexivity.
Qed.

Lemma boxesOf_checks (pre : list MainEvent) : Forall isCheck pre → boxesOf pre = [].
Proof.
  induction 1 as [|e pre He _ IH]; [reflexivity|].
  unfold boxesOf in *. cbn [omap list_omap]. rewrite IH.
  destruct e; try destruct He; reflexivity.
Qed.

Lemma boxesOf_inner (l : list Event) : boxesOf (MInner <$> l) = [].
Proof. induction l as [|e l IH]; [reflexivity|exact IH]. Qed.

Lemma checks_hold_lock (pre : list MainEvent) :
  Forall isCheck pre → Forall (λ e, isRelease e = false) pre.
Proof.
  intros Hpre. eapply Forall_impl; [exact Hpre|].
  intros e He. destruct e; try destruct He; reflexivity.
Qed.

Lemma inner_hold_lock (l : list Event) :
  Forall (λ e, isRelease e = false) (MInner <$> l).
Proof. apply Forall_fmap, Forall_true. intros e. reflexivity. Qed.

Lemma inner_not_check e (pre : list MainEvent) : Forall isCheck pre → MInner e ∉ pre.
Proof.
  intros Hpre Hin. rewrite Forall_forall in Hpre. apply (Hpre _ Hin).
Qed.

Lemma MInner_elem e (l : list Event) : MInner e ∈ MInner <$> l → e ∈ l.
Proof.
  intros Hin. apply list_elem_of_fmap in Hin as (e' & Heq & Hin).
  inversion Heq. subst. exact Hin.
Qed.

(** X16.  [main] ends in one of three ways: exit 0, exit 1, or a normal
    return.  It exits with 1 exactly when the last thing it did was to
    show an error box, and that box is then the only one it has shown; an
    exit with 0 has shown the usage text in an information box or no box
    at all. *)
Theorem main_exit_status S0 X (w : World) :
  let r := main S0 X w in
  (outcomeOf r = Exited 0 ∨ outcomeOf r = Exited 1 ∨ outcomeOf r = Returned) ∧
  (outcomeOf r = Exited 1 ↔
   ∃ e, last (callsOf r) = Some (MShowOKMessage MsgError e)) ∧
  (outcomeOf r = Exited 1 →
   ∃ e, boxesOf (callsOf r) = [(MsgError, e)]) ∧
  (outcomeOf r = Exited 0 →
   boxesOf (callsOf r) = [] ∨
   boxesOf (callsOf r) = [(MsgInformation, buildUsageString S0)]).
Proof.
  intros r. subst r.
  destruct (main_cases S0 X w)
    as [(pre & e & Ho & Hc & Hpre & _)
       |[(Ho & Hc & _)
       |[(pre & Ho & Hc & Hpre & _)
       |[(pre & clip & mid & e & Ho & Hc & Hpre & _ & Hmid & _)
        |(pre & clip & cfg & debug & Ho & Hc & Hpre & _)]]]];
    rewrite Ho, Hc.
  - split; [right; left; reflexivity|]. split; [|split; [|discriminate]].
    + split; [intros _; exists e; apply last_snoc|reflexivity].
    + intros _. exists e. unfold boxesOf. rewrite omap_app. fold (boxesOf pre).
      rewrite (boxesOf_checks pre Hpre). reflexivity.
  - split; [left; reflexivity|]. split; [|split; [discriminate|]].
    + split; [discriminate|]. intros [e He]. discriminate He.
    + intros _. right. reflexivity.
  - split; [left; reflexivity|]. split; [|split; [discriminate|]].
    + split; [discriminate|]. intros [e He].
      change [MCreateLockFile (lockName S0); MInner (EvLog "Application already running")]
        with ([MCreateLockFile (lockName S0)]
                ++ [MInner (EvLog "Application already running")]) in He.
      rewrite app_assoc, last_snoc in He. discriminate He.
    + intros _. left. unfold boxesOf. rewrite omap_app. fold (boxesOf pre).
      rewrite (boxesOf_checks pre Hpre). reflexivity.
  - split; [right; left; reflexivity|]. split; [|split; [|discriminate]].
    + split; [intros _; exists e|reflexivity].
      apply last_Some. exists (pre ++ [MCreateLockFile (lockName S0)]
                                 ++ (MInner <$> clip) ++ MKillRunningAgent :: mid).
      rewrite <- !app_assoc. reflexivity.
    + intros _. exists e. unfold boxesOf. rewrite !omap_app.
      fold (boxesOf pre). fold (boxesOf (MInner <$> clip)).
      rewrite (boxesOf_checks pre Hpre), boxesOf_inner.
      destruct Hmid as [->|(c & d & ->)]; reflexivity.
  - split; [right; right; reflexivity|]. split; [|split; discriminate].
    split; [discriminate|]. intros [e He].
    change [MInstClose; MRemove (lockName S0)]
      with ([MInstClose] ++ [MRemove (lockName S0)]) in He.
    rewrite !app_assoc, last_snoc in He. discriminate He.
Qed.

(** X17.  [main] gives the lock back exactly when it returns: then the
    last two calls are the close of the lock and the removal of the lock
    file that was created, and they are made once.  On every exit, also
    the exits after the lock was taken, neither call is made. *)
Theorem main_releases_lock_iff_returns S0 X (w : World) :
  let r := main S0 X w in
  (outcomeOf r = Returned ↔ MInstClose ∈ callsOf r) ∧
  (outcomeOf r = Returned →
   ∃ pre, callsOf r = pre ++ [MInstClose; MRemove (lockName S0)] ∧
          MCreateLockFile (lockName S0) ∈ pre ∧
          Forall (λ e, isRelease e = false) pre) ∧
  (outcomeOf r ≠ Returned → Forall (λ e, isRelease e = false) (callsOf r)).
Proof.
  intros r.
  assert (Hret : outcomeOf r = Returned →
            ∃ pre, callsOf r = pre ++ [MInstClose; MRemove (lockName S0)] ∧
                   MCreateLockFile (lockName S0) ∈ pre ∧
                   Forall (λ e, isRelease e = false) pre).
  { subst r.
    destruct (main_cases S0 X w)
      as [(pre & e & Ho & _)
         |[(Ho & _)
         |[(pre & Ho & _)
         |[(pre & clip & mid & e & Ho & _)
          |(pre & clip & cfg & debug & Ho & Hc & Hpre & _)]]]];
      rewrite Ho; try discriminate.
    intros _. rewrite Hc. eexists. rewrite !app_assoc. split; [reflexivity|].
    split.
    - rewrite !elem_of_app. do 4 left. right. apply list_elem_of_here.
    - repeat apply Forall_app_2; try apply inner_hold_lock;
        try (apply checks_hold_lock, Hpre); try (repeat constructor).
      destruct (run X cfg (clipServe X cfg w).2).1; repeat constructor. }
  assert (Hexit : outcomeOf r ≠ Returned →
            Forall (λ e, isRelease e = false) (callsOf r)).
  { subst r.
    destruct (main_cases S0 X w)
      as [(pre & e & Ho & Hc & Hpre & _)
         |[(Ho & Hc & _)
         |[(pre & Ho & Hc & Hpre & _)
         |[(pre & clip & mid & e & Ho & Hc & Hpre & _ & Hmid & _)
          |(pre & clip & cfg & debug & Ho & _)]]]];
      rewrite Ho; try congruence; intros _; rewrite Hc.
    - apply Forall_app_2; [apply checks_hold_lock, Hpre|repeat constructor].
    - repeat constructor.
    - apply Forall_app_2; [apply checks_hold_lock, Hpre|repeat constructor].
    - repeat apply Forall_app_2; try apply inner_hold_lock;
        try (apply checks_hold_lock, Hpre); try (repeat constructor).
      destruct Hmid as [->|(c & d & ->)]; repeat constructor. }
  split; [|split; [exact Hret|exact Hexit]].
  split.
  - intros Ho. destruct (Hret Ho) as (pre & -> & _).
    rewrite elem_of_app. right. apply list_elem_of_here.
  - intros Hin. destruct (outcomeOf r) as [code|] eqn:Ho; [|reflexivity].
    exfalso. assert (Hne : Exited code ≠ Returned) by discriminate.
    specialize (Hexit Hne). rewrite Forall_forall in Hexit.
    specialize (Hexit _ Hin). discriminate Hexit.
Qed.

(** X18.  [main] returns exactly when it entered [run].  It has then
    shown no box before [run], it entered [run] with [clipCancel] set, and
    what it does after [run] is to show the error of [run] in an error
    box, when there is one, and to give the lock back: an error of [run]
    does not change the way the program ends. *)
Theorem main_returns_iff_run_entered S0 X (w : World) :
  let r := main S0 X w in
  (outcomeOf r = Returned ↔
   MInner (EvServe ConnectorSockAgentCygwinSSH) ∈ callsOf r) ∧
  (outcomeOf r = Returned →
   ∃ pre cfg,
     let w1 := (clipServe X cfg w).2 in
     let res := run X cfg w1 in
     callsOf r = pre ++ newEvents w1 res.2
                   ++ match res.1 with
                      | Some e => [MShowOKMessage MsgError e]
                      | None => []
                      end
                   ++ [MInstClose; MRemove (lockName S0)] ∧
     boxesOf pre = [] ∧
     clipCancelSet w1 ∧
     worldOf r = res.2).
Proof.
  intros r. subst r.
  destruct (main_cases S0 X w)
    as [(pre & e & Ho & Hc & Hpre & _)
       |[(Ho & Hc & _)
       |[(pre & Ho & Hc & Hpre & _)
       |[(pre & clip & mid & e & Ho & Hc & Hpre & Hclip & Hmid & _)
        |(pre & clip & cfg & debug & Ho & Hc & Hpre & _ & _ & _ & _ & Hw)]]]];
    rewrite Ho, Hc.
  - split; [|discriminate]. split; [discriminate|].
    rewrite elem_of_app, list_elem_of_singleton.
    intros [Hin|Hin]; [destruct (inner_not_check _ _ Hpre Hin)|discriminate Hin].
  - split; [|discriminate]. split; [discriminate|].
    rewrite !elem_of_cons, elem_of_nil. intros [H|[H|[]]]; discriminate H.
  - split; [|discriminate]. split; [discriminate|].
    rewrite elem_of_app, !elem_of_cons, elem_of_nil.
    intros [Hin|[H|[H|[]]]];
      [destruct (inner_not_check _ _ Hpre Hin)|discriminate H|discriminate H].
  - split; [|discriminate]. split; [discriminate|].
    rewrite !elem_of_app, !elem_of_cons, elem_of_nil.
    intros [Hin|[[H|[]]|[Hin|[H|Hin]]]];
      [destruct (inner_not_check _ _ Hpre Hin)|discriminate H| |discriminate H|].
    + apply MInner_elem in Hin. rewrite Forall_forall in Hclip.
      destruct (Hclip _ Hin).
    + destruct Hmid as [->|(c & d & ->)]; cbn [app] in Hin;
        rewrite ?elem_of_cons, elem_of_nil in Hin;
        repeat (destruct Hin as [Hin|Hin]; [discriminate Hin|]); destruct Hin.
  - split.
    + split; [intros _|reflexivity].
      destruct (run_extends X cfg (clipServe X cfg w).2) as (rest & T).
      rewrite (newEvents_app _ _ _ T).
      rewrite !elem_of_app. do 4 right. left.
      cbn [fmap list_fmap]. apply list_elem_of_here.
    + intros _.
      exists (pre ++ [MCreateLockFile (lockName S0)] ++ (MInner <$> clip)
                ++ [MKillRunningAgent; MNewAgent cfg debug]), cfg.
      cbv zeta. split; [rewrite <- !app_assoc; reflexivity|].
      split; [|split; [|exact Hw]].
      * unfold boxesOf. rewrite !omap_app.
        fold (boxesOf pre). fold (boxesOf (MInner <$> clip)).
        rewrite (boxesOf_checks pre Hpre), boxesOf_inner. reflexivity.
      * unfold clipCancelSet.
        destruct (clipServe_effect X cfg w) as (_ & _ & _ & _ & _ & C).
        rewrite C. discriminate.
Qed.

Lemma names_not_observable X cfg native (s : Store) :
  (∀ nm, nm ∈ publishedNames → process s !! nm = None ∧ user s !! nm = None) →
  ∀ v, v ∈ varsTable X cfg native → ¬ observable v s.
Proof.
  intros Hnames v Hv.
  assert (Hn : name v ∈ publishedNames).
  { rewrite <- (varsTable_names X cfg native). apply list_elem_of_fmap_2, Hv. }
  destruct (Hnames _ Hn) as [Hp Hu].
  intros [[x Hx]|[_ [x Hx]]]; congruence.
Qed.

(** X19.  When none of the five variables was set before and no removal
    fails, [main] ends with the store exactly as it found it, whichever
    way it ends: nothing is written before [run], and [run] takes back
    what it has written. *)
Theorem main_restores_store S0 X (w : World) :
  (∀ nm, nm ∈ publishedNames →
     process (store w) !! nm = None ∧ user (store w) !! nm = None) →
  (∀ h nm r, failure X (h ++ [EvCleanEnv nm r]) = None) →
  store (worldOf (main S0 X w)) = store w.
Proof.
  intros Hnames Hclean.
  destruct (main_cases S0 X w)
    as [(pre & e & _ & _ & _ & ->)
       |[(_ & _ & ->)
       |[(pre & _ & _ & _ & _ & _ & St)
       |[(pre & clip & mid & e & _ & _ & _ & _ & _ & _ & _ & St)
        |(pre & clip & cfg & debug & _ & _ & _ & _ & _ & _ & Sc & ->)]]]];
    try reflexivity; try exact St.
  rewrite <- Sc in Hnames |- *.
  pose proof (names_not_observable X cfg (nativeSSH cfg) _ Hnames) as Hout.
  destruct (run_store_cases X cfg (clipServe X cfg w).2)
    as [->|(_ & ws & Hws & [(Hm & ->)|(Hm & w2 & St2 & V2 & ->)])];
    [reflexivity| |];
    (destruct (setVarsOn_store X _ ws (varsTable_fresh X cfg (nativeSSH cfg)) Hclean)
       as [(R & St & V)|(R & St & V)];
       [rewrite Hws; exact Hout| |]); try congruence.
  rewrite (cleaner_store X w2 Hclean), V2, V, St2, St, applied_registered, Hws.
  apply write_remove_roundtrip; [apply key_reverse_registered|exact Hout].
Qed.

Lemma main_restores_store_witness :
  store (worldOf (main startup_ok X_ok w0)) = store w0.
Proof.
  apply (main_restores_store startup_ok X_ok w0).
  - intros nm _. split; apply lookup_empty.
  - intros h nm r. unfold X_ok, externals, failing. cbn [failure].
    rewrite last_snoc. reflexivity.
Defined.

(** X20.  When the lock cannot be taken, [main] never returns, kills no
    agent, creates none, starts no clipboard server and enters no run:
    the only thing it may do to the program state is to log that the
    application is already running, and then it exits with 0 and without
    a message box. *)
Theorem main_second_instance_only_logs S0 X (w : World) :
  CreateLockFile S0 (lockName S0) ≠ None →
  let r := main S0 X w in
  outcomeOf r ≠ Returned ∧
  (MKillRunningAgent ∉ callsOf r) ∧
  (∀ cfg debug, MNewAgent cfg debug ∉ callsOf r) ∧
  (∀ e, MInner e ∈ callsOf r → e = EvLog "Application already running") ∧
  (MCreateLockFile (lockName S0) ∈ callsOf r →
   outcomeOf r = Exited 0 ∧ boxesOf (callsOf r) = [] ∧
   trace (worldOf r) = trace w ++ [EvLog "Application already running"]) ∧
  store (worldOf r) = store w.
Proof.
  intros Hlock r. subst r.
  destruct (main_cases S0 X w)
    as [(pre & e & Ho & Hc & Hpre & Hw)
       |[(Ho & Hc & Hw)
       |[(pre & Ho & Hc & Hpre & _ & T & St)
       |[(pre & clip & mid & e & _ & _ & _ & _ & _ & Hl & _)
        |(pre & clip & cfg & debug & _ & _ & _ & _ & Hl & _)]]]];
    try congruence; rewrite Ho, Hc.
  - rewrite Hw. rewrite Forall_forall in Hpre.
    split; [discriminate|].
    split; [rewrite elem_of_app, list_elem_of_singleton;
            intros [Hin|Hin]; [apply (Hpre _ Hin)|discriminate Hin]|].
    split; [intros c d; rewrite elem_of_app, list_elem_of_singleton;
            intros [Hin|Hin]; [apply (Hpre _ Hin)|discriminate Hin]|].
    split; [intros e'; rewrite elem_of_app, list_elem_of_singleton;
            intros [Hin|Hin]; [destruct (Hpre _ Hin)|discriminate Hin]|].
    split; [|reflexivity].
    rewrite elem_of_app, list_elem_of_singleton.
    intros [Hin|Hin]; [destruct (Hpre _ Hin)|discriminate Hin].
  - rewrite Hw.
    split; [discriminate|].
    split; [rewrite !elem_of_cons, elem_of_nil; intros [H|[H|[]]]; discriminate H|].
    split; [intros c d; rewrite !elem_of_cons, elem_of_nil;
            intros [H|[H|[]]]; discriminate H|].
    split; [intros e'; rewrite !elem_of_cons, elem_of_nil;
            intros [H|[H|[]]]; discriminate H|].
    split; [|reflexivity].
    rewrite !elem_of_cons, elem_of_nil; intros [H|[H|[]]]; discriminate H.
  - rewrite Forall_forall in Hpre.
    split; [discriminate|].
    split; [rewrite elem_of_app, !elem_of_cons, elem_of_nil;
            intros [Hin|[H|[H|[]]]];
            [apply (Hpre _ Hin)|discriminate H|discriminate H]|].
    split; [intros c d; rewrite elem_of_app, !elem_of_cons, elem_of_nil;
            intros [Hin|[H|[H|[]]]];
            [apply (Hpre _ Hin)|discriminate H|discriminate H]|].
    split; [intros e'; rewrite elem_of_app, !elem_of_cons, elem_of_nil;
            intros [Hin|[H|[H|[]]]];
            [destruct (Hpre _ Hin)|discriminate H|inversion H; reflexivity]|].
    split; [|exact St].
    intros _. split; [reflexivity|]. split; [|exact T].
    unfold boxesOf. rewrite omap_app. fold (boxesOf pre).
    rewrite (boxesOf_checks pre (proj2 (Forall_forall _ _) Hpre)). reflexivity.
Qed.

Lemma main_second_instance_only_logs_witness :
  outcomeOf (main startup_second X_ok w0) = Exited 0.
Proof.
  refine (proj1 (proj1 (proj2 (proj2 (proj2 (proj2
            (main_second_instance_only_logs startup_second X_ok w0 _))))) _)).
  - discriminate.
  - unfold callsOf. cbn. rewrite !elem_of_cons. do 5 right. left. reflexivity.
Defined.
